(** * The Edgen token factory front end: token registry and wallet session

    A shallow embedding of [src/lib/tokenStorage.ts] (the [TokenStorage]
    registry), of [syncWithBlockchain] in [src/hooks/useTokenManager.ts] and of
    the account-change handling of [src/components/WalletConnect.tsx], with the
    properties the specification states about them.

    Conventions of the embedding.
    - A JavaScript value is a [JsValue]; an object is a finite map from
      property names to values ([gmap string JsValue]), so that the object
      spread [{...a, ...b}] is the left-biased union [b ∪ a].
    - A JavaScript number is modelled by the integer it denotes.  This is exact
      on the safe-integer range [-(2^53-1) .. 2^53-1]; the results that involve
      arithmetic carry that range as a hypothesis.
    - [String.prototype.toLowerCase] is a built-in of the language: the
      embedding takes it as a parameter ([CaseMapping]) and assumes nothing of
      it but that it leaves the empty string empty.
    - A JSON text is modelled by the value [JSON.parse] builds from it
      ([JsonText]); [JSON.stringify] followed by [JSON.parse] is [toJSON].
    - Exceptions are explicit: a computation returns [Ok] or [Throw], and a
      stateful computation keeps the state it reached when it throws.
    - Of the console only [console.error] is kept; the progress messages of
      [console.log] are left out. *)

From Stdlib Require Import Ascii String DecimalString DecimalN DecimalPos DecimalFacts.
From stdpp Require Import gmap strings list fin_maps.

#[local] Set Warnings "-register-all".
#[local] Open Scope string_scope.
#[local] Open Scope list_scope.
#[local] Open Scope Z_scope.

(** ** JavaScript values, exceptions and the built-ins the code uses *)

Module Js.

Inductive JsValue :=
| VUndefined
| VNull
| VBool (b : bool)
| VNumber (n : Z)
| VString (s : string)
| VArray (l : list JsValue)
| VObject (o : gmap string JsValue).

Abbreviation JsObject := (gmap string JsValue).

Inductive JsError :=
| TypeError
| SyntaxError
| QuotaExceededError
| Error (message : string).

Inductive Result (A : Type) :=
| Ok (a : A)
| Throw (e : JsError).

Arguments Ok {A} a.
Arguments Throw {A} e.

Definition Result_bind {A B} (r : Result A) (k : A → Result B) : Result B :=
  match r with
  | Ok a => k a
  | Throw e => Throw e
  end.

(** A computation over a mutable state [S] that may throw.  The state reached
    before the exception is kept, as in JavaScript. *)
Definition M (S A : Type) : Type := S → Result A * S.

Definition ret {S A} (a : A) : M S A := λ s, (Ok a, s).

Definition bind {S A B} (c : M S A) (k : A → M S B) : M S B :=
  λ s, match c s with
       | (Ok a, s') => k a s'
       | (Throw e, s') => (Throw e, s')
       end.

Definition throw {S A} (e : JsError) : M S A := λ s, (Throw e, s).

Definition lift {S A} (r : Result A) : M S A := λ s, (r, s).

Definition gets {S A} (f : S → A) : M S A := λ s, (Ok (f s), s).

Definition modify {S} (f : S → S) : M S unit := λ s, (Ok tt, f s).

(** [try { body } catch (e) { handler e }] *)
Definition tryCatch {S A} (body : M S A) (handler : JsError → M S A) : M S A :=
  λ s, match body s with
       | (Ok a, s') => (Ok a, s')
       | (Throw e, s') => handler e s'
       end.

(** [for (const x of l) { body x }] *)
Fixpoint forOf {S A} (l : list A) (body : A → M S unit) : M S unit :=
  match l with
  | [] => ret tt
  | x :: l' => bind (body x) (λ _, forOf l' body)
  end.

(** [String.prototype.toLowerCase] is a built-in, which follows the Unicode
    case mappings: the code is embedded over any function in its place.  The
    one fact used of it is that the empty string has no letter to map. *)
Class CaseMapping := {
  toLowerCase : string → string;
  toLowerCase_empty : toLowerCase "" = ""
}.

Fixpoint startsWith (s p : string) {struct p} : bool :=
  match p, s with
  | EmptyString, _ => true
  | String a p', String b s' => bool_decide (a = b) && startsWith s' p'
  | String _ _, EmptyString => false
  end.

(** [String.prototype.includes] *)
Fixpoint includes (s sub : string) : bool :=
  startsWith s sub ||
  match s with
  | EmptyString => false
  | String _ s' => includes s' sub
  end.

(** [BigInt.prototype.toString] on a non-negative big integer. *)
Definition bigint_toString (n : N) : string :=
  NilZero.string_of_uint (N.to_uint n).

(** The [typeof] operator. *)
Definition typeof (v : JsValue) : string :=
  match v with
  | VUndefined => "undefined"
  | VNull => "object"
  | VBool _ => "boolean"
  | VNumber _ => "number"
  | VString _ => "string"
  | VArray _ => "object"
  | VObject _ => "object"
  end.

(** Truthiness, as used by [!x] and [x || y]. *)
Definition truthy (v : JsValue) : bool :=
  match v with
  | VUndefined | VNull => false
  | VBool b => b
  | VNumber n => negb (Z.eqb n 0)
  | VString s => negb (String.eqb s "")
  | VArray _ | VObject _ => true
  end.

Definition isArray (v : JsValue) : bool :=
  match v with
  | VArray _ => true
  | _ => false
  end.

(** Reading a property of an object: [undefined] when it is absent. *)
Definition prop (o : JsObject) (k : string) : JsValue :=
  default VUndefined (o !! k).

(** [v.k] on an arbitrary value, for the field names the repository reads
    ([tokens], [address], [name], ...): none of them is a property of a
    string, an array, a number or a boolean.  Reading a property of [null] or
    [undefined] throws. *)
Definition getProp (v : JsValue) (k : string) : Result JsValue :=
  match v with
  | VUndefined | VNull => Throw TypeError
  | VObject o => Ok (prop o k)
  | _ => Ok VUndefined
  end.

(** [v.toLowerCase()]: only a string has the method. *)
Definition callToLowerCase {casing : CaseMapping} (v : JsValue) : Result string :=
  match v with
  | VString s => Ok (toLowerCase s)
  | _ => Throw TypeError
  end.

(** [Array.prototype.findIndex] with a callback that may throw; [-1] when no
    element satisfies it. *)
Fixpoint findIndex {A} (p : A → Result bool) (l : list A) : Result Z :=
  match l with
  | [] => Ok (-1)
  | x :: l' =>
      Result_bind (p x) (λ b,
        if b then Ok 0
        else Result_bind (findIndex p l') (λ i,
               Ok (if bool_decide (0 ≤ i) then i + 1 else -1)))
  end.

(** [Array.prototype.filter] with a callback that may throw. *)
Fixpoint filterR {A} (p : A → Result bool) (l : list A) : Result (list A) :=
  match l with
  | [] => Ok []
  | x :: l' =>
      Result_bind (p x) (λ b,
        Result_bind (filterR p l') (λ r, Ok (if b then x :: r else r)))
  end.

(** [Array.prototype.map] with a callback that may throw. *)
Fixpoint mapR {A B} (f : A → Result B) (l : list A) : Result (list B) :=
  match l with
  | [] => Ok []
  | x :: l' =>
      Result_bind (f x) (λ y, Result_bind (mapR f l') (λ r, Ok (y :: r)))
  end.

(** The value [JSON.parse (JSON.stringify v)] rebuilds: a property whose value
    is [undefined] is dropped, an [undefined] array element becomes [null]. *)
Fixpoint toJSON (v : JsValue) : JsValue :=
  match v with
  | VArray l =>
      VArray (map (λ x, match x with VUndefined => VNull | _ => toJSON x end) l)
  | VObject o =>
      VObject (omap (λ x, match x with
                          | VUndefined => None
                          | _ => Some (toJSON x)
                          end) o)
  | _ => v
  end.

(** The object case of [toJSON], property by property. *)
Definition jsonProperty (x : JsValue) : option JsValue :=
  match x with
  | VUndefined => None
  | _ => Some (toJSON x)
  end.

Definition jsonObject (o : JsObject) : JsObject := omap jsonProperty o.

(** A text handed to [JSON.parse]: either it is not JSON, or it denotes a
    value. *)
Inductive JsonText :=
| Malformed
| Denotes (v : JsValue).

Definition JSON_stringify (v : JsValue) : JsonText := Denotes (toJSON v).

Definition JSON_parse (t : JsonText) : Result JsValue :=
  match t with
  | Malformed => Throw SyntaxError
  | Denotes v => Ok v
  end.

End Js.

Export Js.

Declare Scope js_scope.
Delimit Scope js_scope with js.
Notation "x <~ c ;; k" := (Result_bind c (λ x, k))
  (at level 100, c at next level, right associativity) : js_scope.
Notation "x <- c ;; k" := (bind c (λ x, k))
  (at level 100, c at next level, right associativity) : js_scope.
Notation "c ;;; k" := (bind c (λ _, k))
  (at level 100, right associativity) : js_scope.
#[local] Open Scope js_scope.

(** ** The token registry: [src/lib/tokenStorage.ts] *)

Module TokenStorage.

(** [STORAGE_KEYS] *)
Definition USER_TOKENS : string := "edgen_user_tokens".
Definition TOKEN_METADATA : string := "edgen_token_metadata".
Definition LAST_SYNC : string := "edgen_last_sync".

(** The state the registry runs in: the two maps of the [TokenStorage]
    instance, and the part of the browser it touches.  [clock] is what
    [Date.now()] reads.  [setItemOutcomes] lists, for the coming calls of
    [localStorage.setItem], whether each one succeeds ([true]) or throws
    ([false]); once the list is used up every call succeeds.  [console] keeps
    what [console.error] reported. *)
Record World := mkWorld {
  userTokens : gmap string (list JsObject);
  tokenMetadata : gmap string JsObject;
  localStorage : gmap string JsonText;
  console : list (string * JsError);
  clock : Z;
  setItemOutcomes : list bool
}.

Definition set_userTokens (f : gmap string (list JsObject) → gmap string (list JsObject))
    (w : World) : World :=
  mkWorld (f (userTokens w)) (tokenMetadata w) (localStorage w) (console w)
          (clock w) (setItemOutcomes w).

Definition set_tokenMetadata (f : gmap string JsObject → gmap string JsObject)
    (w : World) : World :=
  mkWorld (userTokens w) (f (tokenMetadata w)) (localStorage w) (console w)
          (clock w) (setItemOutcomes w).

Definition set_localStorage (f : gmap string JsonText → gmap string JsonText)
    (w : World) : World :=
  mkWorld (userTokens w) (tokenMetadata w) (f (localStorage w)) (console w)
          (clock w) (setItemOutcomes w).

Definition set_console (f : list (string * JsError) → list (string * JsError))
    (w : World) : World :=
  mkWorld (userTokens w) (tokenMetadata w) (localStorage w) (f (console w))
          (clock w) (setItemOutcomes w).

Definition set_setItemOutcomes (f : list bool → list bool) (w : World) : World :=
  mkWorld (userTokens w) (tokenMetadata w) (localStorage w) (console w)
          (clock w) (f (setItemOutcomes w)).

(** [localStorage.setItem(key, text)] *)
Definition localStorage_setItem (key : string) (text : JsonText) : M World unit :=
  λ w, match setItemOutcomes w with
       | false :: rest =>
           (Throw QuotaExceededError, set_setItemOutcomes (λ _, rest) w)
       | true :: rest =>
           (Ok tt, set_localStorage (<[key := text]>)
                     (set_setItemOutcomes (λ _, rest) w))
       | [] => (Ok tt, set_localStorage (<[key := text]>) w)
       end.

(** [console.error(message, error)] *)
Definition console_error (message : string) (error : JsError) : M World unit :=
  modify (set_console (λ c, c ++ [(message, error)])).

(** [Date.now()] *)
Definition Date_now : M World Z := gets clock.

(** [Object.fromEntries(this.userTokens)] and
    [Object.fromEntries(this.tokenMetadata)] *)
Definition userTokensObj (w : World) : JsValue :=
  VObject ((λ l : list JsObject, VArray (VObject <$> l)) <$> userTokens w).

Definition metadataObj (w : World) : JsValue :=
  VObject (VObject <$> tokenMetadata w).

Definition saveToStorage : M World unit :=
  tryCatch
    (o <- gets userTokensObj ;;
     localStorage_setItem USER_TOKENS (JSON_stringify o) ;;;
     m <- gets metadataObj ;;
     localStorage_setItem TOKEN_METADATA (JSON_stringify m) ;;;
     now <- Date_now ;;
     localStorage_setItem LAST_SYNC (Denotes (VNumber now)))
    (λ error, console_error "Error saving token data to storage:" error).

Section Registry.

Context {casing : CaseMapping}.

(** The callback of [findIndex] in [addUserToken]:
    [t => t.address.toLowerCase() === token.address.toLowerCase()] *)
Definition sameAddress (token t : JsObject) : Result bool :=
  a <~ callToLowerCase (prop t "address") ;;
  b <~ callToLowerCase (prop token "address") ;;
  Ok (String.eqb a b).

(** [userTokens[existingIndex] = { ...userTokens[existingIndex], ...token }]
    when [existingIndex >= 0], [userTokens.push(token)] otherwise.  The index
    comes from [findIndex], so it is within the array. *)
Definition mergeOrPush (token : JsObject) (existingIndex : Z)
    (tokens : list JsObject) : list JsObject :=
  if bool_decide (0 ≤ existingIndex) then
    <[Z.to_nat existingIndex :=
        token ∪ default ∅ (tokens !! Z.to_nat existingIndex)]> tokens
  else tokens ++ [token].

Definition addUserToken (userAddress : string) (token : JsObject) : M World unit :=
  let normalizedAddress := toLowerCase userAddress in
  tokens <- gets (λ w, default [] (userTokens w !! normalizedAddress)) ;;
  existingIndex <- lift (findIndex (sameAddress token) tokens) ;;
  modify (set_userTokens
            (<[normalizedAddress := mergeOrPush token existingIndex tokens]>)) ;;;
  saveToStorage.

(** [this.tokenMetadata.get(key)], [undefined] when there is none. *)
Definition metadataOf (w : World) (key : string) : JsValue :=
  match tokenMetadata w !! key with
  | Some m => VObject m
  | None => VUndefined
  end.

Definition getUserTokens (userAddress : string) (w : World)
    : Result (list JsObject) :=
  let normalizedAddress := toLowerCase userAddress in
  let tokens := default [] (userTokens w !! normalizedAddress) in
  mapR (λ token : JsObject,
          a <~ callToLowerCase (prop token "address") ;;
          Ok (<["metadata" := metadataOf w a]> token))
       tokens.

Definition updateTokenMetadata (tokenAddress : string) (metadata : JsObject)
    : M World unit :=
  let normalizedAddress := toLowerCase tokenAddress in
  existing <- gets (λ w, default {["lastUpdated" := VNumber 0]}
                           (tokenMetadata w !! normalizedAddress)) ;;
  now <- Date_now ;;
  modify (set_tokenMetadata
            (<[normalizedAddress :=
                 <["lastUpdated" := VNumber now]> (metadata ∪ existing)]>)) ;;;
  saveToStorage.

Definition removeUserToken (userAddress tokenAddress : string) : M World unit :=
  let normalizedUserAddress := toLowerCase userAddress in
  let normalizedTokenAddress := toLowerCase tokenAddress in
  tokens <- gets (λ w, default [] (userTokens w !! normalizedUserAddress)) ;;
  filteredTokens <-
    lift (filterR (λ token : JsObject,
                     a <~ callToLowerCase (prop token "address") ;;
                     Ok (negb (String.eqb a normalizedTokenAddress)))
                  tokens) ;;
  modify (set_userTokens (<[normalizedUserAddress := filteredTokens]>)) ;;;
  saveToStorage.

(** The callback of [filter] in [searchTokens]; [||] evaluates its right
    operand only when the left one is false. *)
Definition matchesQuery (lowerQuery : string) (token : JsObject) : Result bool :=
  n <~ callToLowerCase (prop token "name") ;;
  if includes n lowerQuery then Ok true else
  s <~ callToLowerCase (prop token "symbol") ;;
  if includes s lowerQuery then Ok true else
  a <~ callToLowerCase (prop token "address") ;;
  Ok (includes a lowerQuery).

Definition searchTokens (userAddress query : string) (w : World)
    : Result (list JsObject) :=
  tokens <~ getUserTokens userAddress w ;;
  let lowerQuery := toLowerCase query in
  filterR (matchesQuery lowerQuery) tokens.

(** [getStorageStats().totalUsers] *)
Definition totalUsers (w : World) : nat := size (userTokens w).

Section Externals.

(** [ethers.isAddress] and [Date.prototype.toISOString] are library code: the
    registry is parameterised by them. *)
Context (isAddress : JsValue → bool) (toISOString : Z → string).

Definition exportUserData (userAddress : string) (w : World) : Result JsonText :=
  tokens <~ getUserTokens userAddress w ;;
  Ok (JSON_stringify
        (VObject (<["userAddress" := VString userAddress]>
                 (<["tokens" := VArray (VObject <$> tokens)]>
                 (<["exportedAt" := VString (toISOString (clock w))]>
                 (<["version" := VString "1.0"]> ∅)))))).

(** [typeof token.k === ty] *)
Definition typeofIs (token : JsValue) (k ty : string) : Result bool :=
  v <~ getProp token k ;;
  Ok (String.eqb (typeof v) ty).

(** [a && b] on conditions that may throw: [b] is evaluated only when [a]
    holds. *)
Definition andThen (a b : Result bool) : Result bool :=
  x <~ a ;; if x then b else Ok false.

Definition isValidToken (token : JsValue) : Result bool :=
  andThen (typeofIs token "address" "string")
 (andThen (typeofIs token "name" "string")
 (andThen (typeofIs token "symbol" "string")
 (andThen (typeofIs token "creator" "string")
 (andThen (typeofIs token "decimals" "number")
 (andThen (typeofIs token "createdAt" "number")
 (andThen (a <~ getProp token "address" ;; Ok (isAddress a))
          (c <~ getProp token "creator" ;; Ok (isAddress c)))))))).

(** The body of the loop of [importUserData].  A token that passes
    [isValidToken] is an object, so the last branch is never taken. *)
Definition importToken (userAddress : string) (token : JsValue) : M World unit :=
  valid <- lift (isValidToken token) ;;
  if valid then
    match token with
    | VObject o => addUserToken userAddress o
    | _ => ret tt
    end
  else ret tt.

Definition importUserData (userAddress : string) (data : JsonText) : M World bool :=
  tryCatch
    (parsed <- lift (JSON_parse data) ;;
     tokens <- lift (getProp parsed "tokens") ;;
     if negb (truthy tokens) || negb (isArray tokens) then
       throw (Error "Invalid data format")
     else
       forOf (match tokens with VArray l => l | _ => [] end)
             (importToken userAddress) ;;;
       ret true)
    (λ error,
       console_error "Error importing user data:" error ;;;
       ret false).

End Externals.

End Registry.

End TokenStorage.

(** ** The parts of [ethers] the hook and the wallet component rely on *)

Module Ethers.

(** A [JsonRpcSigner], identified by the account it signs for. *)
Inductive Signer := JsonRpcSigner (account : string).

Definition getAddress (signer : Signer) : string :=
  match signer with JsonRpcSigner account => account end.

End Ethers.

(** ** Synchronisation with the chain: [src/hooks/useTokenManager.ts] *)

Module TokenManager.

Import TokenStorage Ethers.

(** One tuple of the array [getTokensByCreator] returns (see
    [TOKEN_FACTORY_ABI]): the [uint256] fields are big integers, absent when
    the reply lacks them; [decimals] is handed on as it comes. *)
Record FactoryToken := mkFactoryToken {
  tokenAddress : string;
  name : string;
  symbol : string;
  initialSupply : option N;
  maxSupply : option N;
  decimals : JsValue;
  creator : string;
  createdAt : N
}.

(** [supply?.toString() || '0'] *)
Definition supplyString (supply : option N) : string :=
  match supply with
  | Some n =>
      let s := bigint_toString n in
      if String.eqb s "" then "0" else s
  | None => "0"
  end.

(** The object literal [userToken] built in the loop of
    [syncWithBlockchain]. *)
Definition userTokenOf (chainId : Z) (factoryToken : FactoryToken) : JsObject :=
  <["address" := VString (tokenAddress factoryToken)]>
 (<["name" := VString (name factoryToken)]>
 (<["symbol" := VString (symbol factoryToken)]>
 (<["initialSupply" := VString (supplyString (initialSupply factoryToken))]>
 (<["maxSupply" := VString (supplyString (maxSupply factoryToken))]>
 (<["decimals" := decimals factoryToken]>
 (<["creator" := VString (creator factoryToken)]>
 (<["createdAt" := VNumber (Z.of_N (createdAt factoryToken) * 1000)]>
 (<["transactionHash" := VString ""]>
 (<["network" := VString "Edgen Chain"]>
 (<["chainId" := VNumber chainId]> ∅)))))))))).

(** The effect of [syncWithBlockchain] on the registry.  The reply of the
    factory contract is [getTokensByCreator signer userAddress]; the view state
    of the hook ([isLoading], [error], the token snapshot) is refreshed from
    the registry afterwards and is not part of the embedding. *)
Definition syncWithBlockchain {casing : CaseMapping}
    (getTokensByCreator : Signer → string → Result (list FactoryToken))
    (signer : option Signer) (userAddress : string) (chainId : Z)
    : M World unit :=
  match signer with
  | None => ret tt
  | Some sg =>
      if String.eqb userAddress "" then ret tt
      else
        tryCatch
          (factoryTokens <- lift (getTokensByCreator sg userAddress) ;;
           forOf factoryTokens
                 (λ factoryToken,
                    addUserToken userAddress (userTokenOf chainId factoryToken)))
          (λ err, console_error "Error syncing with blockchain:" err)
  end.

End TokenManager.

(** ** The wallet session: [src/components/WalletConnect.tsx] *)

Module WalletConnect.

Import Ethers.

Inductive NetworkStatus := correct | wrong | unknown.

(** The two callbacks the component receives from its parent. *)
Inductive Callback :=
| onWalletConnected (signer : Signer) (address : string)
| onWalletDisconnected.

(** The state variables of the component, the callbacks it has invoked and
    what it reported with [console.error]. *)
Record Session := mkSession {
  isConnected : bool;
  address : string;
  isConnecting : bool;
  error : string;
  networkStatus : NetworkStatus;
  balance : string;
  callbacks : list Callback;
  console : list (string * JsError)
}.

Definition setIsConnected (b : bool) : M Session unit :=
  modify (λ s, mkSession b (address s) (isConnecting s) (error s)
                 (networkStatus s) (balance s) (callbacks s) (console s)).

Definition setAddress (a : string) : M Session unit :=
  modify (λ s, mkSession (isConnected s) a (isConnecting s) (error s)
                 (networkStatus s) (balance s) (callbacks s) (console s)).

Definition setNetworkStatus (n : NetworkStatus) : M Session unit :=
  modify (λ s, mkSession (isConnected s) (address s) (isConnecting s) (error s)
                 n (balance s) (callbacks s) (console s)).

Definition setBalance (b : string) : M Session unit :=
  modify (λ s, mkSession (isConnected s) (address s) (isConnecting s) (error s)
                 (networkStatus s) b (callbacks s) (console s)).

Definition invoke (c : Callback) : M Session unit :=
  modify (λ s, mkSession (isConnected s) (address s) (isConnecting s) (error s)
                 (networkStatus s) (balance s) (callbacks s ++ [c]) (console s)).

Definition console_error (message : string) (e : JsError) : M Session unit :=
  modify (λ s, mkSession (isConnected s) (address s) (isConnecting s) (error s)
                 (networkStatus s) (balance s) (callbacks s)
                 (console s ++ [(message, e)])).

(** What the wallet bridge ([window.ethereum], through an
    [ethers.BrowserProvider]) answers to the requests of [checkConnection]. *)
Record Wallet := mkWallet {
  eth_accounts : Result (list string);
  getSigner : Result Signer;
  getNetwork_chainId : Result Z;
  getBalance : string → Result Z
}.

Section Externals.

(** [ethers.formatEther] is library code. *)
Context (formatEther : Z → string).

(** [ethereum] is [window.ethereum], absent when no wallet is installed. *)
Definition checkConnection (ethereum : option Wallet) : M Session unit :=
  match ethereum with
  | None => ret tt
  | Some wallet =>
      tryCatch
        (accounts <- lift (eth_accounts wallet) ;;
         if bool_decide (0 < length accounts)%nat then
           signer <- lift (getSigner wallet) ;;
           let address := getAddress signer in
           chainId <- lift (getNetwork_chainId wallet) ;;
           let isCorrectNetwork := bool_decide (chainId = 4207) in
           setNetworkStatus (if isCorrectNetwork then correct else wrong) ;;;
           balanceWei <- lift (getBalance wallet address) ;;
           setBalance (formatEther balanceWei) ;;;
           setIsConnected true ;;;
           setAddress address ;;;
           invoke (onWalletConnected signer address)
         else ret tt)
        (λ e,
           console_error "Error checking connection:" e ;;;
           setNetworkStatus unknown)
  end.

Definition handleAccountsChanged (ethereum : option Wallet)
    (accounts : list string) : M Session unit :=
  match accounts with
  | [] =>
      setIsConnected false ;;;
      setAddress "" ;;;
      setBalance "0" ;;;
      setNetworkStatus unknown ;;;
      invoke onWalletDisconnected
  | primary :: _ =>
      setAddress primary ;;;
      checkConnection ethereum
  end.

End Externals.

End WalletConnect.

(** ** Vocabulary of the specification *)

Module RegistrySpec.

Import TokenStorage.

Definition isString (v : JsValue) : bool :=
  match v with
  | VString _ => true
  | _ => false
  end.

Definition isNumber (v : JsValue) : bool :=
  match v with
  | VNumber _ => true
  | _ => false
  end.

(** [null] or [undefined]: the values without properties. *)
Definition isNullish (v : JsValue) : bool :=
  match v with
  | VUndefined | VNull => true
  | _ => false
  end.

(** The fields the registry dereferences ([address], [name], [symbol]) hold
    strings, as the interface [UserToken] declares and as [isValidToken]
    checks on import. *)
Definition wellTyped (t : JsObject) : bool :=
  isString (prop t "address") && isString (prop t "name") &&
  isString (prop t "symbol").

Section Vocabulary.

Context {casing : CaseMapping}.

(** The address of a record, compared case-insensitively. *)
Definition addressKey (t : JsObject) : string :=
  match prop t "address" with
  | VString s => toLowerCase s
  | _ => ""
  end.

(** The list the registry keeps for an owner. *)
Definition tokensOf (w : World) (owner : string) : list JsObject :=
  default [] (userTokens w !! toLowerCase owner).

(** Every stored record is well typed. *)
Definition registryTyped (w : World) : Prop :=
  map_Forall (λ _ l, Forall (λ t, wellTyped t = true) l) (userTokens w).

(** No owner has two records with the same address. *)
Definition registryUnique (w : World) : Prop :=
  map_Forall (λ _ l, NoDup (addressKey <$> l)) (userTokens w).

#[global] Instance registryTyped_dec w : Decision (registryTyped w).
Proof. unfold registryTyped. apply _. Defined.

#[global] Instance registryUnique_dec w : Decision (registryUnique w).
Proof. unfold registryUnique. apply _. Defined.

(** Insert-or-merge on a list of records, by recursion on the list: what
    [findIndex] followed by the assignment or the [push] amounts to. *)
Fixpoint upsert (token : JsObject) (l : list JsObject) : list JsObject :=
  match l with
  | [] => [token]
  | t :: l' =>
      if decide (addressKey t = addressKey token) then (token ∪ t) :: l'
      else t :: upsert token l'
  end.

(** A stored record as [getUserTokens] returns it: with the metadata
    recorded for its address, [undefined] when there is none. *)
Definition withMetadata (w : World) (t : JsObject) : JsObject :=
  <["metadata" := metadataOf w (addressKey t)]> t.

(** What [isValidToken] decides on an object. *)
Definition validRecord (isAddress : JsValue → bool) (o : JsObject) : bool :=
  isString (prop o "address") &&
  (isString (prop o "name") &&
  (isString (prop o "symbol") &&
  (isString (prop o "creator") &&
  (isNumber (prop o "decimals") &&
  (isNumber (prop o "createdAt") &&
  (isAddress (prop o "address") && isAddress (prop o "creator"))))))).

(** The valid records among the elements of an imported [tokens] array, in
    the order of the array. *)
Definition validRecords (isAddress : JsValue → bool) (elems : list JsValue)
    : list JsObject :=
  omap (λ v, match v with
             | VObject o => if validRecord isAddress o then Some o else None
             | _ => None
             end) elems.

(** A value that serialisation to JSON and back leaves as it is. *)
Definition jsonData (v : JsValue) : Prop := toJSON v = v.

(** The string a field holds. *)
Definition stringField (t : JsObject) (k : string) : string :=
  match prop t k with
  | VString s => s
  | _ => ""
  end.

(** [s] contains [q] as a substring when the case of the letters is set
    aside: in lower case, [q] is a substring of [s]. *)
Definition containsCI (s q : string) : Prop :=
  ∃ pre post, toLowerCase s = pre +:+ toLowerCase q +:+ post.


(** The test [searchTokens] applies to a well-typed record. *)
Definition searchHit (q : string) (t : JsObject) : bool :=
  includes (toLowerCase (stringField t "name")) (toLowerCase q) ||
  includes (toLowerCase (stringField t "symbol")) (toLowerCase q) ||
  includes (toLowerCase (stringField t "address")) (toLowerCase q).

(** The metadata [updateTokenMetadata] starts from: the entry recorded for
    the address, or the baseline [{ lastUpdated: 0 }]. *)
Definition existingMetadata (w : World) (tokenAddress : string) : JsObject :=
  default {["lastUpdated" := VNumber 0]}
          (tokenMetadata w !! toLowerCase tokenAddress).

(** The registry with nothing in it, in a browser with an empty store. *)
Definition emptyWorld : World := mkWorld ∅ ∅ ∅ [] 0 [].

(** The invariant of the registry. *)
Definition registryInvariant (w : World) : Prop :=
  registryTyped w ∧ registryUnique w.

(** The states the registry goes through from empty maps (a browser whose
    store holds nothing for it), when callers apply its mutators and pass
    [addUserToken] records of the type the interface [UserToken] asks for.
    The clock is left free: it may read anything at any step. *)
Inductive reachable (isAddress : JsValue → bool) : World → Prop :=
| reach_start w :
    userTokens w = ∅ → tokenMetadata w = ∅ →
    reachable isAddress w
| reach_add owner token w :
    reachable isAddress w → wellTyped token = true →
    reachable isAddress (addUserToken owner token w).2
| reach_remove owner tokenAddress w :
    reachable isAddress w →
    reachable isAddress (removeUserToken owner tokenAddress w).2
| reach_update tokenAddress metadata w :
    reachable isAddress w →
    reachable isAddress (updateTokenMetadata tokenAddress metadata w).2
| reach_import owner data w :
    reachable isAddress w →
    reachable isAddress (importUserData isAddress owner data w).2
| reach_clock now w :
    reachable isAddress w →
    reachable isAddress
      (mkWorld (userTokens w) (tokenMetadata w) (localStorage w) (console w)
               now (setItemOutcomes w)).

End Vocabulary.

End RegistrySpec.

Module TokenManagerSpec.

Import TokenStorage TokenManager.

Definition isDigit (c : ascii) : bool :=
  let n := nat_of_ascii c in bool_decide (48 ≤ n ≤ 57)%nat.

Fixpoint allDigits (s : string) : bool :=
  match s with
  | EmptyString => true
  | String c s' => isDigit c && allDigits s'
  end.

(** A decimal string: at least one character, and digits only. *)
Definition isDecimalString (s : string) : bool :=
  negb (String.eqb s "") && allDigits s.

(** The number a decimal string denotes. *)
Definition decimalValue (s : string) : option N :=
  N.of_uint <$> NilZero.uint_of_string s.

(** [Number.MAX_SAFE_INTEGER]: up to it, integers are JavaScript numbers. *)
Definition MAX_SAFE_INTEGER : Z := 2 ^ 53 - 1.

(** The fields of the interface [UserToken]. *)
Definition userTokenFields : gset string :=
  {[ "address"; "name"; "symbol"; "initialSupply"; "maxSupply"; "decimals";
     "creator"; "createdAt"; "transactionHash"; "network"; "chainId" ]}.

End TokenManagerSpec.

(** ** Sample data: the scenario of the specification *)

Module Samples.

Import TokenStorage RegistrySpec.

(** The case mapping of the samples.  Their strings hold ASCII characters
    only, and on those [String.prototype.toLowerCase] maps [A] to [Z] to [a]
    to [z] and leaves the rest.  It serves the examples alone: every result
    is proved for an arbitrary [CaseMapping]. *)
Definition lowerLetter (c : ascii) : ascii :=
  let n := nat_of_ascii c in
  if bool_decide (65 ≤ n ≤ 90)%nat then ascii_of_nat (n + 32) else c.

Fixpoint lowerLetters (s : string) : string :=
  match s with
  | EmptyString => EmptyString
  | String c s' => String (lowerLetter c) (lowerLetters s')
  end.

#[export] Instance asciiCase : CaseMapping | 100 :=
  {| toLowerCase := lowerLetters; toLowerCase_empty := eq_refl |}.

Definition ownerA : string := "0xAAAAAAAAAAAAAAAAAAAAAAAAAAAAAAAAAAAAAAAA".
Definition ownerC : string := "0xCCCCCCCCCCCCCCCCCCCCCCCCCCCCCCCCCCCCCCCC".
Definition addressB : string := "0xBBBBBBBBBBBBBBBBBBBBBBBBBBBBBBBBBBBBBBBB".
Definition addressD : string := "0xDDDDDDDDDDDDDDDDDDDDDDDDDDDDDDDDDDDDDDDD".

Definition record (addr name symbol creator : JsValue) : JsObject :=
  <["address" := addr]>
 (<["name" := name]>
 (<["symbol" := symbol]>
 (<["initialSupply" := VString "1000"]>
 (<["maxSupply" := VString "10000"]>
 (<["decimals" := VNumber 18]>
 (<["creator" := creator]>
 (<["createdAt" := VNumber 1700000000000]>
 (<["transactionHash" := VString "0x01"]>
 (<["network" := VString "Edgen Chain"]>
 (<["chainId" := VNumber 4207]> ∅)))))))))).

(** The token of the scenario, and the same address under another name and
    in lower case. *)
Definition tokenTST : JsObject :=
  record (VString addressB) (VString "Test") (VString "TST") (VString ownerA).

Definition tokenRenamed : JsObject :=
  record (VString (toLowerCase addressB)) (VString "Renamed") (VString "TST")
         (VString ownerA).

Definition tokenUSD : JsObject :=
  record (VString addressD) (VString "Dollar") (VString "USDx") (VString ownerA).

(** Owner A holds the token of the scenario. *)
Definition worldA : World :=
  mkWorld {[ toLowerCase ownerA := [tokenTST] ]} ∅ ∅ [] 1700000000000 [].

(** Stand-ins for the library functions in the examples: an address is [0x]
    followed by 40 hexadecimal digits, and the export is dated to a fixed
    instant. *)
Definition isHexDigit (c : ascii) : bool :=
  let n := nat_of_ascii c in
  bool_decide (48 ≤ n ≤ 57 ∨ 65 ≤ n ≤ 70 ∨ 97 ≤ n ≤ 102)%nat.

Fixpoint allHex (s : string) : bool :=
  match s with
  | EmptyString => true
  | String c s' => isHexDigit c && allHex s'
  end.

Definition hexAddress (v : JsValue) : bool :=
  match v with
  | VString (String "0" (String "x" digits)) =>
      bool_decide (String.length digits = 40%nat) && allHex digits
  | _ => false
  end.

Definition fixedISOString (now : Z) : string := "2023-11-14T22:13:20.000Z".

(** A record whose [creator] is not an address. *)
Definition tokenBadCreator : JsObject :=
  record (VString ownerC) (VString "Broken") (VString "BRK")
         (VString "not-an-address").

(** An import document with two valid records around an invalid one. *)
Definition payload : JsObject :=
  <["tokens" := VArray [VObject tokenTST; VObject tokenBadCreator;
                        VObject tokenUSD]]>
    {[ "version" := VString "1.0" ]}.

(** An import document with a [null] entry between two valid records. *)
Definition payloadWithNull : JsObject :=
  {[ "tokens" := VArray [VObject tokenTST; VNull; VObject tokenUSD] ]}.

(** Owner A holds the token of the scenario, in a browser whose store
    refuses the next write. *)
Definition worldFull : World :=
  mkWorld {[ toLowerCase ownerA := [tokenTST] ]} ∅ ∅ [] 1700000000000 [false].

(** Owner A holds two tokens, one of them described by metadata. *)
Definition worldA2 : World :=
  mkWorld {[ toLowerCase ownerA := [tokenTST; tokenUSD] ]}
          {[ toLowerCase addressB :=
               <["tags" := VArray [VString "stable"]]>
                 {[ "lastUpdated" := VNumber 1600000000000 ]} ]}
          ∅ [] 1700000000000 [].

(** The same registry with the metadata stamped at the time [worldA2] reads,
    on a machine whose clock has been set back since. *)
Definition worldClockSetBack : World :=
  mkWorld {[ toLowerCase ownerA := [tokenTST; tokenUSD] ]}
          {[ toLowerCase addressB := {[ "lastUpdated" := VNumber 1700000000000 ]} ]}
          ∅ [] 1600000000000 [].

(** A reply of the factory contract: the two tokens owner A created. *)
Definition factoryTST : TokenManager.FactoryToken :=
  TokenManager.mkFactoryToken addressB "Test" "TST" (Some 1000%N)
    (Some 10000%N) (VNumber 18) ownerA 1700000000%N.

Definition factoryUSD : TokenManager.FactoryToken :=
  TokenManager.mkFactoryToken addressD "Dollar" "USDx" (Some 5%N) None
    (VNumber 6) ownerA 1700000100%N.

Definition signerA : Ethers.Signer := Ethers.JsonRpcSigner ownerA.

Definition factoryReply (signer : Ethers.Signer) (creator : string)
    : Result (list TokenManager.FactoryToken) :=
  Ok [factoryTST; factoryUSD].

(** A wallet that answers every request, on the target chain, and a stand-in
    for [ethers.formatEther] that prints the amount in wei. *)
Definition walletA : WalletConnect.Wallet :=
  WalletConnect.mkWallet (Ok [ownerA]) (Ok signerA) (Ok 4207)
    (λ _, Ok 1500000000000000000).

Definition weiString (wei : Z) : string :=
  bigint_toString (Z.to_N wei) +:+ " wei".

(** A session connected as owner C on another chain. *)
Definition sessionC : WalletConnect.Session :=
  WalletConnect.mkSession true ownerC false "" WalletConnect.wrong "2.0" [] [].

End Samples.

(** ** The rest of the registry: queries, reset and loading *)

Module TokenStorageRest.

Import TokenStorage.

Section Queries.

Context {casing : CaseMapping}.

(** [Array.prototype.find] with a callback that may throw; [None] is
    [undefined]. *)
Fixpoint findR {A} (p : A → Result bool) (l : list A) : Result (option A) :=
  match l with
  | [] => Ok None
  | x :: l' => Result_bind (p x) (λ b, if b then Ok (Some x) else findR p l')
  end.

Definition getToken (userAddress tokenAddress : string) (w : World)
    : Result (option JsObject) :=
  tokens <~ getUserTokens userAddress w ;;
  findR (λ token : JsObject,
           a <~ callToLowerCase (prop token "address") ;;
           Ok (String.eqb a (toLowerCase tokenAddress)))
        tokens.

(** [v === n] for a number [n]. *)
Definition strictEqualsNumber (v : JsValue) (n : Z) : bool :=
  match v with
  | VNumber m => bool_decide (m = n)
  | _ => false
  end.

Definition getTokensByNetwork (userAddress : string) (chainId : Z) (w : World)
    : Result (list JsObject) :=
  tokens <~ getUserTokens userAddress w ;;
  filterR (λ token : JsObject, Ok (strictEqualsNumber (prop token "chainId") chainId))
          tokens.

(** [getAllTokens] walks [this.userTokens.values()].  A JavaScript [Map] hands
    out its entries in the order the keys were first set; the finite map of
    the embedding does not keep that order, so the owners come here in the
    order of [map_to_list].  Within an owner the order is the order of the
    list. *)
Definition getAllTokens (w : World) : Result (list JsObject) :=
  lists <~ mapR (λ entry : string * list JsObject,
                   mapR (λ token : JsObject,
                           a <~ callToLowerCase (prop token "address") ;;
                           Ok (<["metadata" := metadataOf w a]> token))
                        entry.2)
                (map_to_list (userTokens w)) ;;
  Ok (concat lists).

End Queries.

(** [localStorage.removeItem(key)] *)
Definition localStorage_removeItem (key : string) : M World unit :=
  modify (set_localStorage (delete key)).

Definition clearAllData : M World unit :=
  modify (set_userTokens (λ _, ∅)) ;;;
  modify (set_tokenMetadata (λ _, ∅)) ;;;
  localStorage_removeItem USER_TOKENS ;;;
  localStorage_removeItem TOKEN_METADATA ;;;
  localStorage_removeItem LAST_SYNC.

(** What [new Map(Object.entries(JSON.parse(text)))] gives: a map, an
    exception, or a map whose values are not of the type the registry keeps
    (the embedding has no state for it). *)
Inductive Entries (B : Type) :=
| EntriesMap (m : gmap string B)
| EntriesThrow (e : JsError)
| EntriesOutside.

Arguments EntriesMap {B} m.
Arguments EntriesThrow {B} e.
Arguments EntriesOutside {B}.

(** [Object.entries] of a number or a boolean is empty and of [null] throws;
    for an object every value has to be of the expected type, which [decode]
    checks.  Strings and arrays are left outside. *)
Definition entriesOf {B} (decode : JsValue → option B) (text : JsonText)
    : Entries B :=
  match text with
  | Malformed => EntriesThrow SyntaxError
  | Denotes VNull => EntriesThrow TypeError
  | Denotes (VNumber _) | Denotes (VBool _) => EntriesMap ∅
  | Denotes (VObject o) =>
      if decide (map_Forall (λ _ v, is_Some (decode v)) o)
      then EntriesMap (omap decode o)
      else EntriesOutside
  | Denotes _ => EntriesOutside
  end.

(** An array of objects, as a list of records. *)
Definition asRecords (v : JsValue) : option (list JsObject) :=
  match v with
  | VArray l => mapM (λ x, match x with VObject o => Some o | _ => None end) l
  | _ => None
  end.

Definition asMetadata (v : JsValue) : option JsObject :=
  match v with
  | VObject o => Some o
  | _ => None
  end.

Definition loadFailed (e : JsError) (w : World) : World :=
  set_console (λ c, c ++ [("Error loading token data from storage:", e)]) w.

(** The second half of the [try] block of [loadFromStorage]. *)
Definition loadMetadata (w : World) : option World :=
  match localStorage w !! TOKEN_METADATA with
  | None => Some w
  | Some text =>
      match entriesOf asMetadata text with
      | EntriesMap m => Some (set_tokenMetadata (λ _, m) w)
      | EntriesThrow e => Some (loadFailed e w)
      | EntriesOutside => None
      end
  end.

(** [loadFromStorage] returns nothing and catches what it throws, so its
    outcome is a state; [None] stands for a stored document whose values the
    embedding cannot hold.  [Malformed] is a non-empty text that is not JSON
    (an empty text is falsy and would be skipped like an absent one). *)
Definition loadFromStorage (w : World) : option World :=
  match localStorage w !! USER_TOKENS with
  | None => loadMetadata w
  | Some text =>
      match entriesOf asRecords text with
      | EntriesMap m => loadMetadata (set_userTokens (λ _, m) w)
      | EntriesThrow e => Some (loadFailed e w)
      | EntriesOutside => None
      end
  end.

(** The constructor, on a page load: both maps start empty, then
    [loadFromStorage] runs on what the browser kept. *)
Definition newTokenStorage (w : World) : option World :=
  loadFromStorage (set_userTokens (λ _, ∅) (set_tokenMetadata (λ _, ∅) w)).

End TokenStorageRest.

(** ** What an import reads *)

Module ImportSpec.

Import TokenStorage RegistrySpec.

(** The elements of a [tokens] array the loop of [importUserData] gets
    through: [isValidToken] throws on [null], so those before the first
    [null]. *)
Fixpoint beforeNull (elems : list JsValue) : list JsValue :=
  match elems with
  | [] => []
  | v :: rest => if isNullish v then [] else v :: beforeNull rest
  end.

(** The [tokens] array of an import document, when it is a JSON object that
    has one. *)
Definition tokensArray (data : JsonText) : option (list JsValue) :=
  match data with
  | Denotes (VObject doc) =>
      match doc !! "tokens" with
      | Some (VArray elems) => Some elems
      | _ => None
      end
  | _ => None
  end.

(** The records an import of [data] hands to [addUserToken], in order. *)
Definition recordsRead (isAddress : JsValue → bool) (data : JsonText)
    : list JsObject :=
  match tokensArray data with
  | Some elems => validRecords isAddress (beforeNull elems)
  | None => []
  end.

End ImportSpec.

(** ** More sample data *)

Module MoreSamples.

Import TokenStorage RegistrySpec Samples.

(** A browser whose stored token document is not JSON, next to a sound
    metadata document. *)
Definition worldCorrupt : World :=
  mkWorld ∅ ∅
    (<[USER_TOKENS := Malformed]>
       {[ TOKEN_METADATA := JSON_stringify (metadataObj worldA2) ]})
    [] 1700000000000 [].

(** A factory contract that cannot be reached. *)
Definition factoryDown (signer : Ethers.Signer) (creator : string)
    : Result (list TokenManager.FactoryToken) :=
  Throw (Error "could not detect network").

End MoreSamples.

(** ** The rest of the wallet component: connecting and display *)

Module WalletConnectRest.

Import Ethers WalletConnect.

(** [String.prototype.slice(start, end)]; [None] is an omitted [end].  A
    negative index counts from the end of the string, and both indices are
    clamped to the string. *)
Definition slice (s : string) (start : Z) (end_ : option Z) : string :=
  let len := Z.of_nat (String.length s) in
  let clamp (i : Z) := if bool_decide (i < 0) then Z.max (len + i) 0 else Z.min i len in
  let from := clamp start in
  let to := match end_ with None => len | Some e => clamp e end in
  substring (Z.to_nat from) (Z.to_nat (to - from)) s.

(** [formatAddress] of the component, and [ContractUtils.formatAddress]. *)
Definition formatAddress (addr : string) : string :=
  slice addr 0 (Some 6) +:+ "..." +:+ slice addr (-4) None.

Definition setIsConnecting (b : bool) : M Session unit :=
  modify (λ s, mkSession (isConnected s) (address s) b (error s)
                 (networkStatus s) (balance s) (callbacks s) (console s)).

Definition setError (e : string) : M Session unit :=
  modify (λ s, mkSession (isConnected s) (address s) (isConnecting s) e
                 (networkStatus s) (balance s) (callbacks s) (console s)).

(** The error a wallet request is rejected with: its [code], and its
    [message], empty when it has none. *)
Record ProviderError := mkProviderError {
  code : JsValue;
  message : string
}.

Inductive Reply (A : Type) :=
| Answer (a : A)
| Rejected (e : ProviderError).

Arguments Answer {A} a.
Arguments Rejected {A} e.

(** The requests [connectWallet] sends. *)
Inductive Request :=
| eth_requestAccounts
| eth_chainId
| wallet_switchEthereumChain
| wallet_addEthereumChain
| provider_getSigner.

#[export] Instance Request_eq_dec : EqDecision Request.
Proof. solve_decision. Defined.

(** What the wallet answers to each of them. *)
Record Provider := mkProvider {
  requestAccounts : Reply (list string);
  chainId : Reply string;
  switchEthereumChain : Reply unit;
  addEthereumChain : Reply unit;
  signerOf : Reply Signer
}.

(** The session together with the requests sent so far. *)
Record Connection := mkConnection {
  session : Session;
  requests : list Request
}.

(** A computation that sends requests, updates the session, and may throw the
    error of a rejected request. *)
Definition Ask (A : Type) : Type := Connection → Reply A * Connection.

Definition answer {A} (a : A) : Ask A := λ c, (Answer a, c).

Definition raise {A} (e : ProviderError) : Ask A := λ c, (Rejected e, c).

Definition andThenAsk {A B} (c : Ask A) (k : A → Ask B) : Ask B :=
  λ s, match c s with
       | (Answer a, s') => k a s'
       | (Rejected e, s') => (Rejected e, s')
       end.

Definition catchAsk {A} (body : Ask A) (handler : ProviderError → Ask A) : Ask A :=
  λ s, match body s with
       | (Answer a, s') => (Answer a, s')
       | (Rejected e, s') => handler e s'
       end.

(** [try { body } finally { last }] for a [last] that does not throw. *)
Definition finallyAsk {A} (body : Ask A) (last : Ask unit) : Ask A :=
  λ s, match body s with
       | (r, s') => (r, (last s').2)
       end.

Definition request {A} (r : Request) (reply : Reply A) : Ask A :=
  λ c, (reply, mkConnection (session c) (requests c ++ [r])).

(** A setter of the component, run on the session. *)
Definition update (f : M Session unit) : Ask unit :=
  λ c, (Answer tt, mkConnection (f (session c)).2 (requests c)).

(** [console.error(text, error)]: the console of the embedding keeps the
    message of the error. *)
Definition logError (text : string) (e : ProviderError) : Ask unit :=
  update (WalletConnect.console_error text (Error (message e))).

(** [edgenChainConfig.chainId] *)
Definition edgenChainId : string := "0x106F".

Definition addEdgenChain (wallet : Provider) : Ask unit :=
  catchAsk (request wallet_addEthereumChain (addEthereumChain wallet))
           (λ e, andThenAsk (logError "Error adding Edgen Chain:" e)
                            (λ _, raise e)).

Definition switchToEdgenChain (wallet : Provider) : Ask unit :=
  catchAsk (request wallet_switchEthereumChain (switchEthereumChain wallet))
           (λ e, if TokenStorageRest.strictEqualsNumber (code e) 4902
                 then addEdgenChain wallet
                 else raise e).

Definition connectWallet (ethereum : option Provider) : Ask unit :=
  match ethereum with
  | None =>
      update (setError
                "MetaMask is not installed. Please install MetaMask to continue.")
  | Some wallet =>
      andThenAsk (update (setIsConnecting true)) (λ _,
      andThenAsk (update (setError "")) (λ _,
      finallyAsk
        (catchAsk
           (andThenAsk (request eth_requestAccounts (requestAccounts wallet)) (λ _,
            andThenAsk (request eth_chainId (chainId wallet)) (λ id,
            andThenAsk (if String.eqb id edgenChainId then answer tt
                        else switchToEdgenChain wallet) (λ _,
            andThenAsk (request provider_getSigner (signerOf wallet)) (λ signer,
            let address := getAddress signer in
            andThenAsk (update (setIsConnected true)) (λ _,
            andThenAsk (update (setAddress address)) (λ _,
            update (invoke (onWalletConnected signer address)))))))))
           (λ e,
              andThenAsk (logError "Error connecting wallet:" e) (λ _,
              update (setError (if String.eqb (message e) ""
                                then "Failed to connect wallet"
                                else message e)))))
        (update (setIsConnecting false))))
  end.

End WalletConnectRest.

Module WalletSpec.

Import Ethers WalletConnect WalletConnectRest.

(** The wallet ends up on the target chain: it reports it, or accepts the
    switch, or does not know the chain (error 4902) and accepts to add it. *)
Definition chainReady (wallet : Provider) : bool :=
  match chainId wallet with
  | Rejected _ => false
  | Answer id =>
      String.eqb id edgenChainId ||
      match switchEthereumChain wallet with
      | Answer _ => true
      | Rejected e =>
          TokenStorageRest.strictEqualsNumber (code e) 4902 &&
          match addEthereumChain wallet with
          | Answer _ => true
          | Rejected _ => false
          end
      end
  end.

(** The rejection that keeps the wallet off the target chain, when there is
    one: of the chain query, of the switch when its code is not 4902, or of
    the request to add the chain. *)
Definition chainRejection (wallet : Provider) : option ProviderError :=
  match chainId wallet with
  | Rejected e => Some e
  | Answer id =>
      if String.eqb id edgenChainId then None
      else match switchEthereumChain wallet with
           | Answer _ => None
           | Rejected e =>
               if TokenStorageRest.strictEqualsNumber (code e) 4902
               then match addEthereumChain wallet with
                    | Answer _ => None
                    | Rejected e' => Some e'
                    end
               else Some e
           end
  end.

(** The reply of the wallet that stops [connectWallet]: the first rejection
    among the requests it sends, in the order it sends them. *)
Definition rejection (wallet : Provider) : option ProviderError :=
  match requestAccounts wallet with
  | Rejected e => Some e
  | Answer _ =>
      match chainRejection wallet with
      | Some e => Some e
      | None =>
          match signerOf wallet with
          | Rejected e => Some e
          | Answer _ => None
          end
      end
  end.

(** The signer [connectWallet] obtains, when every request it needs is
    answered. *)
Definition connects (wallet : Provider) : option Signer :=
  match requestAccounts wallet, signerOf wallet with
  | Answer _, Answer signer => if chainReady wallet then Some signer else None
  | _, _ => None
  end.

(** A wallet on another chain that does not know the target chain and accepts
    to add it, and a wallet whose user refuses the connection. *)
Definition walletNewChain : Provider :=
  mkProvider (Answer [Samples.ownerA]) (Answer "0x1")
             (Rejected (mkProviderError (VNumber 4902) "Unrecognized chain ID"))
             (Answer tt) (Answer Samples.signerA).

Definition walletRefused : Provider :=
  mkProvider (Rejected (mkProviderError (VNumber 4001) "User rejected the request."))
             (Answer "0x106F") (Answer tt) (Answer tt) (Answer Samples.signerA).

(** A wallet already on the Edgen chain, which reports its chain in lower
    case hexadecimal. *)
Definition walletLowerCase : Provider :=
  mkProvider (Answer [Samples.ownerA]) (Answer "0x106f") (Answer tt) (Answer tt)
             (Answer Samples.signerA).

Definition sessionIdle : Session :=
  mkSession false "" false "" unknown "0" [] [].

End WalletSpec.

(** ** The contract library: addresses, error messages, transaction tracking *)

Module Contracts.

Import Ethers.

(** The two variables of [import.meta.env] the library reads: a string, or
    [undefined] when the variable is not set. *)
Record Env := mkEnv {
  VITE_TOKEN_FACTORY_ADDRESS : option string;
  VITE_MINTABLE_TOKEN_ADDRESS : option string
}.

(** [value || fallback] on a string that may be [undefined]. *)
Definition orElse (value : option string) (fallback : string) : string :=
  match value with
  | Some s => if String.eqb s "" then fallback else s
  | None => fallback
  end.

Definition TOKEN_FACTORY (env : Env) : string :=
  orElse (VITE_TOKEN_FACTORY_ADDRESS env)
         "0x6a825c21AB4A0B9B93E18E08fCAf37ad3c82c7bD".

Definition MINTABLE_TOKEN (env : Env) : string :=
  orElse (VITE_MINTABLE_TOKEN_ADDRESS env)
         "0x5a057D0a115D4f004Fd58a3faAe75eeBfb6aD414".

Inductive ContractName := TokenFactory | MintableToken.

Definition getContractAddress (env : Env) (contractName : ContractName) : string :=
  match contractName with
  | TokenFactory => TOKEN_FACTORY env
  | MintableToken => MINTABLE_TOKEN env
  end.

Inductive Abi := TOKEN_FACTORY_ABI | MINTABLE_TOKEN_ABI.

Section Externals.

(** [new ethers.Contract(address, abi, signer)] is library code. *)
Context {Contract : Type}.
Context (newContract : string → Abi → Signer → Result Contract).

Definition getTokenFactoryContract (env : Env) (signer : Signer) : Result Contract :=
  let address := getContractAddress env TokenFactory in
  if String.eqb address "" then
    Throw (Error "TokenFactory contract address not configured. Please check your environment variables.")
  else newContract address TOKEN_FACTORY_ABI signer.

Definition getMintableTokenContract (env : Env) (signer : Signer)
    (address : option string) : Result Contract :=
  let contractAddress := orElse address (getContractAddress env MintableToken) in
  if String.eqb contractAddress "" then
    Throw (Error "MintableToken contract address not configured. Please check your environment variables.")
  else newContract contractAddress MINTABLE_TOKEN_ABI signer.

End Externals.

(** The error [handleContractError] receives: its [code], and its [message],
    a string or [undefined]. *)
Record Failure := mkFailure {
  code : JsValue;
  message : option string
}.

(** [v === s] for a string [s]. *)
Definition strictEqualsString (v : JsValue) (s : string) : bool :=
  match v with
  | VString t => String.eqb t s
  | _ => false
  end.

Fixpoint dropChars (n : nat) (s : string) : string :=
  match n, s with
  | O, _ => s
  | S n', String _ s' => dropChars n' s'
  | S _, EmptyString => EmptyString
  end.

(** The text before and the text after the first occurrence of [sep] in [s],
    when there is one. *)
Fixpoint cut (sep s : string) : option (string * string) :=
  if startsWith s sep then Some (EmptyString, dropChars (String.length sep) s)
  else match s with
       | EmptyString => None
       | String c s' =>
           match cut sep s' with
           | Some (before, after) => Some (String c before, after)
           | None => None
           end
       end.

(** [s.split(sep)[1]] for a non-empty [sep]: [None] is [undefined]. *)
Definition splitSecond (s sep : string) : option string :=
  match cut sep s with
  | None => None
  | Some (_, rest) =>
      Some (match cut sep rest with
            | None => rest
            | Some (before, _) => before
            end)
  end.

Definition Console : Type := list (string * JsError).

Definition console_error (text : string) (error : Failure) : M Console unit :=
  modify (λ c, c ++ [(text, Error (default "" (message error)))]).

Definition handleContractError (error : Failure) : M Console string :=
  console_error "Contract error:" error ;;;
  if strictEqualsString (code error) "UNPREDICTABLE_GAS_LIMIT" then
    ret "Transaction may fail. Please check your inputs and try again."
  else if strictEqualsString (code error) "INSUFFICIENT_FUNDS" then
    ret "Insufficient funds to complete the transaction."
  else if strictEqualsString (code error) "USER_REJECTED" then
    ret "Transaction was rejected by user."
  else if match message error with
          | Some m => includes m "execution reverted"
          | None => false
          end then
    let revertReason := splitSecond (default "" (message error))
                                    "execution reverted: " in
    ret (orElse revertReason "Transaction reverted")
  else ret (orElse (message error) "An unknown error occurred").

(** [TransactionTracker]: the static map from transaction hashes to status
    records. *)
Abbreviation Transactions := (gmap string JsObject).

Definition addTransaction (hash : string) (txs : Transactions) : Transactions :=
  <[hash := {[ "hash" := VString hash;
               "status" := VString "pending";
               "confirmations" := VNumber 0 ]}]> txs.

(** [{ ...existing, ...update }] *)
Definition updateTransaction (hash : string) (update : JsObject)
    (txs : Transactions) : Transactions :=
  match txs !! hash with
  | Some existing => <[hash := update ∪ existing]> txs
  | None => txs
  end.

Definition getTransaction (hash : string) (txs : Transactions) : option JsObject :=
  txs !! hash.

Definition removeTransaction (hash : string) (txs : Transactions) : Transactions :=
  delete hash txs.

End Contracts.

Module ContractsSpec.

Import Contracts.

(** One call on the tracker. *)
Inductive Call :=
| Add (hash : string)
| Update (hash : string) (update : JsObject)
| Remove (hash : string).

Definition call (txs : Transactions) (c : Call) : Transactions :=
  match c with
  | Add hash => addTransaction hash txs
  | Update hash update => updateTransaction hash update txs
  | Remove hash => removeTransaction hash txs
  end.

Definition calls (cs : list Call) (txs : Transactions) : Transactions :=
  foldl call txs cs.

(** An update that leaves the [hash] field alone. *)
Definition keepsHash (c : Call) : Prop :=
  match c with
  | Update _ update => update !! "hash" = None
  | _ => True
  end.

(** Every record is filed under its own hash, and has a status and a number
    of confirmations. *)
Definition filed (txs : Transactions) : Prop :=
  ∀ hash record, txs !! hash = Some record →
    record !! "hash" = Some (VString hash) ∧
    is_Some (record !! "status") ∧ is_Some (record !! "confirmations").

Definition failureReverted : Failure :=
  mkFailure (VString "CALL_EXCEPTION")
            (Some "call failed: execution reverted: Max supply exceeded").

End ContractsSpec.

(** * Properties *)

Import TokenStorage RegistrySpec.

(** A closed decidable statement about the sample data is settled by
    evaluating its decision procedure. *)
Ltac by_evaluation := apply (bool_decide_unpack _); vm_compute; exact I.

Section Upsert.

Context {casing : CaseMapping}.

(** ** Saving never throws and does not touch the maps *)

Lemma saveToStorage_ok (w : World) :
  saveToStorage w = (Ok tt, (saveToStorage w).2).
Proof.
  unfold saveToStorage, tryCatch, bind, gets, Date_now, localStorage_setItem,
    console_error, modify.
  destruct w as [ut tm ls co cl outs]; simpl.
  destruct outs as [|[] [|[] [|[] outs]]]; reflexivity.
Qed.

Lemma saveToStorage_maps (w : World) :
  userTokens (saveToStorage w).2 = userTokens w ∧
  tokenMetadata (saveToStorage w).2 = tokenMetadata w ∧
  clock (saveToStorage w).2 = clock w.
Proof.
  unfold saveToStorage, tryCatch, bind, gets, Date_now, localStorage_setItem,
    console_error, modify.
  destruct w as [ut tm ls co cl outs]; simpl.
  destruct outs as [|[] [|[] [|[] outs]]]; auto.
Qed.

(** ** Records, their keys and the insert-or-merge step *)

Lemma isString_inv (v : JsValue) :
  isString v = true → ∃ s, v = VString s.
Proof. destruct v; simpl; try discriminate. eauto. Qed.

Lemma prop_string (t : JsObject) (k s : string) :
  prop t k = VString s → t !! k = Some (VString s).
Proof.
  unfold prop. destruct (t !! k) as [v|]; simpl; [congruence | discriminate].
Qed.

Lemma wellTyped_inv (t : JsObject) :
  wellTyped t = true →
  ∃ a n s, prop t "address" = VString a ∧ prop t "name" = VString n ∧
           prop t "symbol" = VString s.
Proof.
  unfold wellTyped. rewrite !andb_true_iff. intros [[Ha Hn] Hs].
  apply isString_inv in Ha as [a Ha]. apply isString_inv in Hn as [n Hn].
  apply isString_inv in Hs as [s Hs]. eauto 6.
Qed.

Lemma prop_union_l (token t : JsObject) (k : string) (v : JsValue) :
  token !! k = Some v → prop (token ∪ t) k = v.
Proof.
  intros H. unfold prop. by rewrite (lookup_union_Some_l _ _ _ _ H).
Qed.

Lemma wellTyped_union (token t : JsObject) :
  wellTyped token = true → wellTyped (token ∪ t) = true.
Proof.
  intros (a & n & s & Ha & Hn & Hs)%wellTyped_inv.
  unfold wellTyped.
  rewrite (prop_union_l _ _ _ _ (prop_string _ _ _ Ha)).
  rewrite (prop_union_l _ _ _ _ (prop_string _ _ _ Hn)).
  by rewrite (prop_union_l _ _ _ _ (prop_string _ _ _ Hs)).
Qed.

Lemma addressKey_union (token t : JsObject) :
  wellTyped token = true → addressKey (token ∪ t) = addressKey token.
Proof.
  intros (a & n & s & Ha & _)%wellTyped_inv.
  unfold addressKey.
  by rewrite (prop_union_l _ _ _ _ (prop_string _ _ _ Ha)), Ha.
Qed.

Lemma sameAddress_typed (token t : JsObject) :
  wellTyped token = true → wellTyped t = true →
  sameAddress token t = Ok (bool_decide (addressKey t = addressKey token)).
Proof.
  intros (a & ? & ? & Ha & _)%wellTyped_inv (b & ? & ? & Hb & _)%wellTyped_inv.
  unfold sameAddress, addressKey. rewrite Ha, Hb. simpl. f_equal.
  destruct (String.eqb_spec (toLowerCase b) (toLowerCase a)) as [E|E].
  - by rewrite bool_decide_eq_true_2.
  - by rewrite bool_decide_eq_false_2.
Qed.

(** [findIndex] followed by the assignment or the [push] is [upsert]. *)
Lemma findIndex_mergeOrPush (token : JsObject) (l : list JsObject) :
  wellTyped token = true → Forall (λ t, wellTyped t = true) l →
  ∃ i, findIndex (sameAddress token) l = Ok i ∧ -1 ≤ i ∧
       mergeOrPush token i l = upsert token l.
Proof.
  intros Htok. induction 1 as [|t l Ht Hl IH].
  - exists (-1). by repeat split.
  - destruct IH as (i & Hi & Hge & Hm).
    simpl. rewrite (sameAddress_typed _ _ Htok Ht). simpl.
    destruct (decide (addressKey t = addressKey token)) as [E|E].
    + rewrite (bool_decide_eq_true_2 _ E). exists 0. by repeat split.
    + rewrite (bool_decide_eq_false_2 _ E), Hi. simpl.
      eexists. split; [reflexivity|]. rewrite <- Hm.
      unfold mergeOrPush. destruct (decide (0 ≤ i)) as [Hp|Hn].
      * rewrite (bool_decide_eq_true_2 _ Hp).
        rewrite bool_decide_eq_true_2 by lia.
        replace (Z.to_nat (i + 1)) with (S (Z.to_nat i)) by lia.
        split; [lia | done].
      * rewrite (bool_decide_eq_false_2 _ Hn).
        rewrite bool_decide_eq_false_2 by lia. split; [lia | done].
Qed.

Lemma upsert_typed (token : JsObject) (l : list JsObject) :
  wellTyped token = true → Forall (λ t, wellTyped t = true) l →
  Forall (λ t, wellTyped t = true) (upsert token l).
Proof.
  intros Htok. induction 1 as [|t l Ht Hl IH]; simpl.
  - by repeat constructor.
  - case_decide; constructor; auto using wellTyped_union.
Qed.

Lemma upsert_keys (token : JsObject) (l : list JsObject) :
  wellTyped token = true →
  addressKey <$> upsert token l =
    if decide (addressKey token ∈ addressKey <$> l) then addressKey <$> l
    else (addressKey <$> l) ++ [addressKey token].
Proof.
  intros Htok. induction l as [|t l IH].
  - done.
  - rewrite fmap_cons. cbn [upsert].
    destruct (decide (addressKey t = addressKey token)) as [E|E].
    + rewrite decide_True by (rewrite E; apply list_elem_of_here).
      by rewrite fmap_cons, (addressKey_union _ _ Htok), E.
    + rewrite fmap_cons, IH.
      destruct (decide (addressKey token ∈ addressKey <$> l)).
      * rewrite decide_True; [done | by apply list_elem_of_further].
      * rewrite decide_False; [done |].
        rewrite elem_of_cons. intros [?|?]; congruence.
Qed.

Lemma upsert_NoDup (token : JsObject) (l : list JsObject) :
  wellTyped token = true → NoDup (addressKey <$> l) →
  NoDup (addressKey <$> upsert token l).
Proof.
  intros Htok Hnd. rewrite (upsert_keys _ _ Htok). case_decide; [done|].
  apply NoDup_app. split; [done|]. split; [|apply NoDup_singleton].
  intros k Hk. rewrite list_elem_of_singleton. by intros ->.
Qed.

Lemma upsert_key_present (token : JsObject) (l : list JsObject) :
  wellTyped token = true → addressKey token ∈ addressKey <$> upsert token l.
Proof.
  intros Htok. rewrite (upsert_keys _ _ Htok). case_decide; [done|].
  apply elem_of_app. right. apply list_elem_of_here.
Qed.

Lemma upsert_present (token old : JsObject) (l : list JsObject) (i : nat) :
  NoDup (addressKey <$> l) → l !! i = Some old →
  addressKey old = addressKey token →
  upsert token l = <[i := token ∪ old]> l.
Proof.
  revert i. induction l as [|t l IH]; intros i Hnd Hi Hk; [done|].
  rewrite fmap_cons in Hnd. apply NoDup_cons in Hnd as [Hnotin Hnd].
  destruct i as [|i]; simpl in *.
  - injection Hi as ->. by rewrite decide_True.
  - rewrite decide_False; [by rewrite (IH i)|].
    intros E. apply Hnotin. rewrite E, <- Hk.
    apply list_elem_of_fmap_2. by eapply list_elem_of_lookup_2.
Qed.

Lemma upsert_absent (token : JsObject) (l : list JsObject) :
  (∀ old, old ∈ l → addressKey old ≠ addressKey token) →
  upsert token l = l ++ [token].
Proof.
  induction l as [|t l IH]; intros H; simpl; [done|].
  rewrite decide_False by (apply H, list_elem_of_here).
  rewrite IH; [done|]. intros old Hold. by apply H, list_elem_of_further.
Qed.

Lemma upsert_length_present (token : JsObject) (l : list JsObject) :
  (∃ old, old ∈ l ∧ addressKey old = addressKey token) →
  length (upsert token l) = length l.
Proof.
  induction l as [|t l IH]; intros (old & Hin & Hk).
  - by apply elem_of_nil in Hin.
  - simpl. case_decide as E; [done|]. simpl. f_equal. apply IH.
    apply elem_of_cons in Hin as [->|Hin]; [done | eauto].
Qed.

(** With distinct keys, at most one record carries a given key. *)
Lemma count_key_le (k : string) (l : list JsObject) :
  NoDup (addressKey <$> l) →
  (length (filter (λ t, addressKey t = k) l) ≤ 1)%nat.
Proof.
  induction l as [|t l IH]; intros Hnd; [simpl; lia|].
  rewrite fmap_cons in Hnd. apply NoDup_cons in Hnd as [Hnotin Hnd].
  rewrite filter_cons. case_decide as E; [|auto].
  simpl. assert (filter (λ t0, addressKey t0 = k) l = []) as ->; [|simpl; lia].
  apply length_zero_iff_nil.
  destruct (filter (λ t0, addressKey t0 = k) l) as [|x xs] eqn:F; [done|].
  exfalso. apply Hnotin.
  assert (x ∈ filter (λ t0, addressKey t0 = k) l) as Hx
    by (rewrite F; apply list_elem_of_here).
  apply list_elem_of_filter in Hx as [Hkx Hx].
  rewrite E, <- Hkx. by apply list_elem_of_fmap_2.
Qed.

Lemma count_key_present (k : string) (l : list JsObject) :
  NoDup (addressKey <$> l) → k ∈ addressKey <$> l →
  length (filter (λ t, addressKey t = k) l) = 1%nat.
Proof.
  intros Hnd Hin. pose proof (count_key_le k l Hnd) as Hle.
  apply list_elem_of_fmap in Hin as (t & -> & Ht).
  assert (t ∈ filter (λ t0, addressKey t0 = addressKey t) l) as Hx
    by (by apply list_elem_of_filter).
  destruct (filter (λ t0, addressKey t0 = addressKey t) l); simpl in *;
    [by apply elem_of_nil in Hx | lia].
Qed.
(** ** Running the registry operations on a well-typed registry *)

Lemma tokensOf_typed (w : World) (owner : string) :
  registryTyped w → Forall (λ t, wellTyped t = true) (tokensOf w owner).
Proof.
  intros H. unfold tokensOf.
  destruct (userTokens w !! toLowerCase owner) as [l|] eqn:E; simpl.
  - exact (map_Forall_lookup_1 _ _ _ _ H E).
  - constructor.
Qed.

Lemma tokensOf_NoDup (w : World) (owner : string) :
  registryUnique w → NoDup (addressKey <$> tokensOf w owner).
Proof.
  intros H. unfold tokensOf.
  destruct (userTokens w !! toLowerCase owner) as [l|] eqn:E; simpl.
  - exact (map_Forall_lookup_1 _ _ _ _ H E).
  - constructor.
Qed.

Lemma tokensOf_insert (w w' : World) (owner : string) (l : list JsObject) :
  userTokens w' = <[toLowerCase owner := l]> (userTokens w) →
  tokensOf w' owner = l.
Proof. intros H. unfold tokensOf. by rewrite H, lookup_insert_eq. Qed.

Lemma tokensOf_insert_ne (w w' : World) (owner other : string) (l : list JsObject) :
  userTokens w' = <[toLowerCase owner := l]> (userTokens w) →
  toLowerCase other ≠ toLowerCase owner →
  tokensOf w' other = tokensOf w other.
Proof. intros H Hne. unfold tokensOf. by rewrite H, lookup_insert_ne. Qed.

Lemma addUserToken_run (owner : string) (token : JsObject) (w : World) :
  registryTyped w → wellTyped token = true →
  addUserToken owner token w =
    (Ok tt,
     (saveToStorage
        (set_userTokens
           (<[toLowerCase owner := upsert token (tokensOf w owner)]>) w)).2).
Proof.
  intros Hw Htok.
  destruct (findIndex_mergeOrPush token (tokensOf w owner) Htok
              (tokensOf_typed w owner Hw)) as (i & Hi & _ & Hm).
  unfold addUserToken, bind, gets, lift, modify.
  fold (tokensOf w owner). rewrite Hi, Hm. apply saveToStorage_ok.
Qed.

Lemma addUserToken_userTokens (owner : string) (token : JsObject) (w : World) :
  registryTyped w → wellTyped token = true →
  userTokens (addUserToken owner token w).2 =
    <[toLowerCase owner := upsert token (tokensOf w owner)]> (userTokens w) ∧
  tokenMetadata (addUserToken owner token w).2 = tokenMetadata w ∧
  clock (addUserToken owner token w).2 = clock w.
Proof.
  intros Hw Htok. rewrite (addUserToken_run _ _ _ Hw Htok).
  destruct (saveToStorage_maps
              (set_userTokens
                 (<[toLowerCase owner := upsert token (tokensOf w owner)]>) w))
    as (H1 & H2 & H3).
  cbn [snd]. by rewrite H1, H2, H3.
Qed.

Lemma addUserToken_typed (owner : string) (token : JsObject) (w : World) :
  registryTyped w → wellTyped token = true →
  registryTyped (addUserToken owner token w).2.
Proof.
  intros Hw Htok. unfold registryTyped.
  destruct (addUserToken_userTokens owner token w Hw Htok) as (-> & _).
  apply map_Forall_insert_2; [|done].
  apply upsert_typed; [done | by apply tokensOf_typed].
Qed.

Lemma addUserToken_unique (owner : string) (token : JsObject) (w : World) :
  registryTyped w → registryUnique w → wellTyped token = true →
  registryUnique (addUserToken owner token w).2.
Proof.
  intros Hw Hu Htok. unfold registryUnique.
  destruct (addUserToken_userTokens owner token w Hw Htok) as (-> & _).
  apply map_Forall_insert_2; [|done].
  apply upsert_NoDup; [done | by apply tokensOf_NoDup].
Qed.

Lemma mapR_typed (w : World) (l : list JsObject) :
  Forall (λ t, wellTyped t = true) l →
  mapR (λ token : JsObject,
          a <~ callToLowerCase (prop token "address") ;;
          Ok (<["metadata" := metadataOf w a]> token)) l
  = Ok (withMetadata w <$> l).
Proof.
  induction 1 as [|t l Ht Hl IH]; [done|].
  simpl. rewrite IH.
  apply wellTyped_inv in Ht as (a & ? & ? & Ha & _).
  unfold withMetadata, addressKey. by rewrite Ha.
Qed.

Lemma getUserTokens_run (owner : string) (w : World) :
  registryTyped w →
  getUserTokens owner w = Ok (withMetadata w <$> tokensOf w owner).
Proof.
  intros Hw. unfold getUserTokens. fold (tokensOf w owner).
  apply mapR_typed, tokensOf_typed, Hw.
Qed.

(** C1. On a registry whose records are well typed and pairwise distinct by
    address, [addUserToken owner token] returns normally and keeps both
    properties; afterwards at most one record of the owner has the address of
    [token] (compared case-insensitively).  If a record [old] with that
    address was at index [i], the list is the old one with index [i] set to
    the shallow merge [{...old, ...token}], whose fields are those of [token]
    where present and those of [old] elsewhere, and [getUserTokens owner] has
    the length it had; if no record had that address, [token] is appended. *)
Theorem addUserToken_no_duplicate (owner : string) (token : JsObject) (w : World) :
  registryTyped w → registryUnique w → wellTyped token = true →
  ∃ w', addUserToken owner token w = (Ok tt, w') ∧
    registryTyped w' ∧ registryUnique w' ∧
    (length (filter (λ t, addressKey t = addressKey token) (tokensOf w' owner))
       ≤ 1)%nat ∧
    (∀ i old, tokensOf w owner !! i = Some old →
       addressKey old = addressKey token →
       tokensOf w' owner = <[i := token ∪ old]> (tokensOf w owner) ∧
       (∀ k, (token ∪ old) !! k =
               match token !! k with Some v => Some v | None => old !! k end) ∧
       ∃ before after,
         getUserTokens owner w = Ok before ∧
         getUserTokens owner w' = Ok after ∧
         length after = length before) ∧
    ((∀ old, old ∈ tokensOf w owner → addressKey old ≠ addressKey token) →
       tokensOf w' owner = tokensOf w owner ++ [token]).
Proof.
  intros Hw Hu Htok.
  pose proof (addUserToken_run owner token w Hw Htok) as Hrun.
  pose proof (addUserToken_typed owner token w Hw Htok) as Hw'.
  pose proof (addUserToken_unique owner token w Hw Hu Htok) as Hu'.
  destruct (addUserToken_userTokens owner token w Hw Htok) as (Hut & _).
  rewrite Hrun in Hw', Hu', Hut. simpl in Hw', Hu', Hut.
  eexists. split; [exact Hrun|].
  pose proof (tokensOf_insert _ _ _ _ Hut) as Hafter.
  split; [done|]. split; [done|]. split; [|split].
  - apply count_key_le, tokensOf_NoDup, Hu'.
  - intros i old Hi Hk. rewrite Hafter.
    pose proof (upsert_present token old _ i (tokensOf_NoDup w owner Hu) Hi Hk)
      as Hup.
    split; [done|]. split.
    + intros k. rewrite lookup_union. by destruct (token !! k), (old !! k).
    + exists (withMetadata w <$> tokensOf w owner). eexists.
      split; [by apply getUserTokens_run|].
      split; [by apply getUserTokens_run|].
      rewrite !length_fmap, Hafter, Hup. apply length_insert.
  - intros Habs. rewrite Hafter. by apply upsert_absent.
Qed.

End Upsert.

Import Samples.

Lemma addUserToken_no_duplicate_witness :
  registryTyped worldA ∧ registryUnique worldA ∧ wellTyped tokenRenamed = true ∧
  ∃ w', addUserToken ownerA tokenRenamed worldA = (Ok tt, w') ∧
        tokensOf w' ownerA = [tokenRenamed ∪ tokenTST].
Proof.
  assert (registryTyped worldA) as Hw by by_evaluation.
  assert (registryUnique worldA) as Hu by by_evaluation.
  assert (wellTyped tokenRenamed = true) as Ht by reflexivity.
  split; [exact Hw|]. split; [exact Hu|]. split; [exact Ht|].
  destruct (addUserToken_no_duplicate ownerA tokenRenamed worldA Hw Hu Ht)
    as (w' & Hrun & _ & _ & _ & Hmerge & _).
  exists w'. split; [exact Hrun|].
  destruct (Hmerge 0%nat tokenTST) as (Heq & _); [reflexivity | reflexivity |].
  exact Heq.
Defined.

Section StorageFaults.

Context {casing : CaseMapping}.

(** ** What saving leaves in the store and on the console *)


Lemma saveToStorage_fault (w : World) :
  false ∈ take 3 (setItemOutcomes w) →
  console (saveToStorage w).2 =
    console w ++ [("Error saving token data to storage:", QuotaExceededError)] ∧
  localStorage (saveToStorage w).2 !! LAST_SYNC = localStorage w !! LAST_SYNC.
Proof.
  unfold saveToStorage, tryCatch, bind, gets, Date_now, localStorage_setItem,
    console_error, modify.
  destruct w as [ut tm ls co cl outs]; simpl.
  destruct outs as [|[] [|[] [|[] outs]]]; simpl; intros H;
    repeat (apply elem_of_cons in H as [H|H]; [discriminate H|]);
    try (by apply elem_of_nil in H);
    (split; [done | by rewrite ?lookup_insert_ne]).
Qed.

Lemma saveToStorage_no_fault (w : World) :
  false ∉ take 3 (setItemOutcomes w) →
  console (saveToStorage w).2 = console w ∧
  localStorage (saveToStorage w).2 =
    <[LAST_SYNC := Denotes (VNumber (clock w))]>
      (<[TOKEN_METADATA := JSON_stringify (metadataObj w)]>
         (<[USER_TOKENS := JSON_stringify (userTokensObj w)]> (localStorage w))).
Proof.
  unfold saveToStorage, tryCatch, bind, gets, Date_now, localStorage_setItem,
    console_error, modify.
  destruct w as [ut tm ls co cl outs]; simpl.
  destruct outs as [|[] [|[] [|[] outs]]]; simpl; intros H;
    try (by split);
    exfalso; apply H; repeat constructor.
Qed.

(** C9. On a well-typed registry [addUserToken] returns normally whatever the
    store does.  The owner's list in memory is updated in every case; when one
    of the three writes of [saveToStorage] throws, the exception is caught and
    reported on the console and the update in memory stays; when none throws,
    nothing is reported and the store holds the serialised maps. *)
Theorem addUserToken_never_raises (owner : string) (token : JsObject) (w : World) :
  registryTyped w → wellTyped token = true →
  ∃ w', addUserToken owner token w = (Ok tt, w') ∧
    userTokens w' =
      <[toLowerCase owner := upsert token (tokensOf w owner)]> (userTokens w) ∧
    tokenMetadata w' = tokenMetadata w ∧
    (false ∈ take 3 (setItemOutcomes w) →
       console w' = console w ++
         [("Error saving token data to storage:", QuotaExceededError)]) ∧
    (false ∉ take 3 (setItemOutcomes w) →
       console w' = console w ∧
       localStorage w' !! USER_TOKENS = Some (JSON_stringify (userTokensObj w'))).
Proof.
  intros Hw Htok.
  pose proof (addUserToken_run owner token w Hw Htok) as Hrun.
  destruct (addUserToken_userTokens owner token w Hw Htok) as (Hut & Htm & _).
  rewrite Hrun in Hut, Htm. cbn [snd] in Hut, Htm.
  eexists. split; [exact Hrun|]. split; [exact Hut|]. split; [exact Htm|].
  set (w1 := set_userTokens _ w) in *.
  assert (setItemOutcomes w1 = setItemOutcomes w) as Houts by reflexivity.
  split.
  - intros Hf. rewrite <- Houts in Hf.
    by destruct (saveToStorage_fault w1 Hf) as [-> _].
  - intros Hf. rewrite <- Houts in Hf.
    destruct (saveToStorage_no_fault w1 Hf) as [-> Hls]. split; [done|].
    rewrite Hls. unfold userTokensObj at 2. rewrite Hut.
    rewrite lookup_insert_ne by done. rewrite lookup_insert_ne by done.
    by rewrite lookup_insert_eq.
Qed.

End StorageFaults.

Lemma addUserToken_never_raises_witness :
  registryTyped worldFull ∧ wellTyped tokenUSD = true ∧
  ∃ w', addUserToken ownerA tokenUSD worldFull = (Ok tt, w') ∧
        tokensOf w' ownerA = [tokenTST; tokenUSD] ∧
        console w' = [("Error saving token data to storage:", QuotaExceededError)].
Proof.
  assert (registryTyped worldFull) as Hw
    by by_evaluation.
  assert (wellTyped tokenUSD = true) as Ht by reflexivity.
  split; [exact Hw|]. split; [exact Ht|].
  destruct (addUserToken_never_raises ownerA tokenUSD worldFull Hw Ht)
    as (w' & Hrun & Hut & _ & Hlog & _).
  exists w'. split; [exact Hrun|]. split.
  - unfold tokensOf. rewrite Hut, lookup_insert_eq. reflexivity.
  - apply Hlog. vm_compute. constructor.
Defined.

Section Removal.

Context {casing : CaseMapping}.

(** ** Removal *)

Lemma filterR_typed (key : string) (l : list JsObject) :
  Forall (λ t, wellTyped t = true) l →
  filterR (λ token : JsObject,
             a <~ callToLowerCase (prop token "address") ;;
             Ok (negb (String.eqb a key))) l
  = Ok (filter (λ t, addressKey t ≠ key) l).
Proof.
  induction 1 as [|t l Ht Hl IH]; [done|].
  apply wellTyped_inv in Ht as (a & ? & ? & Ha & _).
  assert (addressKey t = toLowerCase a) as Hk
    by (unfold addressKey; by rewrite Ha).
  simpl. rewrite IH, Ha, filter_cons, Hk. simpl.
  destruct (String.eqb_spec (toLowerCase a) key) as [E|E]; simpl.
  - by rewrite decide_False by (by intros []).
  - by rewrite decide_True.
Qed.

Lemma removeUserToken_run (owner tokenAddress : string) (w : World) :
  registryTyped w →
  removeUserToken owner tokenAddress w =
    (Ok tt,
     (saveToStorage
        (set_userTokens
           (<[toLowerCase owner :=
                filter (λ t, addressKey t ≠ toLowerCase tokenAddress)
                       (tokensOf w owner)]>) w)).2).
Proof.
  intros Hw. unfold removeUserToken, bind, gets, lift, modify.
  fold (tokensOf w owner).
  rewrite (filterR_typed _ _ (tokensOf_typed w owner Hw)).
  apply saveToStorage_ok.
Qed.

Lemma removeUserToken_maps (owner tokenAddress : string) (w : World) :
  registryTyped w →
  userTokens (removeUserToken owner tokenAddress w).2 =
    <[toLowerCase owner :=
        filter (λ t, addressKey t ≠ toLowerCase tokenAddress) (tokensOf w owner)]>
      (userTokens w) ∧
  tokenMetadata (removeUserToken owner tokenAddress w).2 = tokenMetadata w ∧
  clock (removeUserToken owner tokenAddress w).2 = clock w.
Proof.
  intros Hw. rewrite (removeUserToken_run _ _ _ Hw).
  destruct (saveToStorage_maps
              (set_userTokens
                 (<[toLowerCase owner :=
                      filter (λ t, addressKey t ≠ toLowerCase tokenAddress)
                             (tokensOf w owner)]>) w))
    as (H1 & H2 & H3).
  cbn [snd]. by rewrite H1, H2, H3.
Qed.

Lemma filter_all {A} (P : A → Prop) `{∀ x, Decision (P x)} (l : list A) :
  (∀ x, x ∈ l → P x) → filter P l = l.
Proof.
  induction l as [|x l IH]; intros Hall; [done|].
  rewrite filter_cons, decide_True by (apply Hall, list_elem_of_here).
  f_equal. apply IH. intros y Hy. by apply Hall, list_elem_of_further.
Qed.

Lemma addressKey_withMetadata (w : World) (t : JsObject) :
  addressKey (withMetadata w t) = addressKey t.
Proof.
  unfold addressKey, withMetadata, prop. by rewrite lookup_insert_ne.
Qed.

Lemma getUserTokens_same (w w' : World) (owner : string) :
  tokensOf w' owner = tokensOf w owner → tokenMetadata w' = tokenMetadata w →
  getUserTokens owner w' = getUserTokens owner w.
Proof.
  intros Ht Hm. unfold getUserTokens. fold (tokensOf w' owner) (tokensOf w owner).
  rewrite Ht. unfold metadataOf. by rewrite Hm.
Qed.

(** C5 (amended).  On a well-typed registry [removeUserToken owner address]
    returns normally, and afterwards [getUserTokens owner] holds no record
    with that address (compared case-insensitively).  When the owner had no
    record with that address, every owner's token list, hence every result of
    [getUserTokens], and the metadata are what they were; the map of owners
    itself is unchanged provided the owner already had an entry. *)
Theorem removeUserToken_removes (owner tokenAddress : string) (w : World) :
  registryTyped w →
  ∃ w', removeUserToken owner tokenAddress w = (Ok tt, w') ∧
    registryTyped w' ∧
    (∃ l, getUserTokens owner w' = Ok l ∧
          ∀ r, r ∈ l → addressKey r ≠ toLowerCase tokenAddress) ∧
    ((∀ t, t ∈ tokensOf w owner → addressKey t ≠ toLowerCase tokenAddress) →
       (∀ o, tokensOf w' o = tokensOf w o) ∧
       (∀ o, getUserTokens o w' = getUserTokens o w) ∧
       tokenMetadata w' = tokenMetadata w ∧
       (is_Some (userTokens w !! toLowerCase owner) →
          userTokens w' = userTokens w)).
Proof.
  intros Hw.
  pose proof (removeUserToken_run owner tokenAddress w Hw) as Hrun.
  destruct (removeUserToken_maps owner tokenAddress w Hw) as (Hut & Htm & _).
  rewrite Hrun in Hut, Htm. cbn [snd] in Hut, Htm.
  eexists. split; [exact Hrun|].
  set (w' := (saveToStorage _).2) in *.
  pose proof (tokensOf_insert _ _ _ _ Hut) as Hafter.
  assert (registryTyped w') as Hw'.
  { unfold registryTyped. rewrite Hut. apply map_Forall_insert_2; [|done].
    apply Forall_forall. intros x [_ Hx]%list_elem_of_filter. revert x Hx.
    apply Forall_forall, tokensOf_typed, Hw. }
  split; [exact Hw'|]. split.
  - eexists. split; [by apply getUserTokens_run|].
    intros r (t & -> & Ht)%list_elem_of_fmap.
    rewrite addressKey_withMetadata. rewrite Hafter in Ht.
    by apply list_elem_of_filter in Ht as [? _].
  - intros Habs.
    assert (tokensOf w' owner = tokensOf w owner) as Hsame
      by (rewrite Hafter; by apply filter_all).
    assert (∀ o, tokensOf w' o = tokensOf w o) as Hall.
    { intros o. destruct (decide (toLowerCase o = toLowerCase owner)) as [E|E].
      - unfold tokensOf in *. by rewrite E.
      - by apply (tokensOf_insert_ne _ _ _ _ _ Hut). }
    split; [exact Hall|]. split; [|split; [exact Htm|]].
    + intros o. by apply getUserTokens_same.
    + intros [l Hl]. rewrite Hut. apply insert_id.
      rewrite filter_all by done. unfold tokensOf. by rewrite Hl.
Qed.

End Removal.

Lemma removeUserToken_removes_witness :
  registryTyped worldA2 ∧
  ∃ w', removeUserToken ownerA (toLowerCase addressB) worldA2 = (Ok tt, w') ∧
        tokensOf w' ownerA = [tokenUSD].
Proof.
  assert (registryTyped worldA2) as Hw
    by by_evaluation.
  split; [exact Hw|].
  destruct (removeUserToken_removes ownerA (toLowerCase addressB) worldA2 Hw)
    as (w' & Hrun & _).
  exists w'. split; [exact Hrun|].
  rewrite (removeUserToken_run _ _ _ Hw) in Hrun.
  injection Hrun as <-. reflexivity.
Defined.

(** C5, as stated, fails: removing an address from an owner the registry has
    never seen returns normally but adds an entry with an empty list for that
    owner, so the owner count of [getStorageStats] goes from 0 to 1, and the
    store is written. *)
Lemma removeUserToken_absent_changes_state :
  tokensOf emptyWorld ownerA = [] ∧
  ∃ w', removeUserToken ownerA addressB emptyWorld = (Ok tt, w') ∧
        userTokens emptyWorld !! toLowerCase ownerA = None ∧
        userTokens w' !! toLowerCase ownerA = Some [] ∧
        totalUsers emptyWorld = 0%nat ∧ totalUsers w' = 1%nat ∧
        localStorage emptyWorld !! LAST_SYNC = None ∧
        localStorage w' !! LAST_SYNC = Some (Denotes (VNumber 0)) ∧
        w' ≠ emptyWorld.
Proof.
  split; [reflexivity|]. eexists. split; [reflexivity|].
  repeat split; try reflexivity. intros H.
  apply (f_equal totalUsers) in H. vm_compute in H. discriminate H.
Qed.

Section Metadata.

Context {casing : CaseMapping}.

(** ** Metadata *)

Lemma updateTokenMetadata_run (tokenAddress : string) (metadata : JsObject)
    (w : World) :
  updateTokenMetadata tokenAddress metadata w =
    (Ok tt,
     (saveToStorage
        (set_tokenMetadata
           (<[toLowerCase tokenAddress :=
                <["lastUpdated" := VNumber (clock w)]>
                  (metadata ∪ existingMetadata w tokenAddress)]>) w)).2).
Proof.
  unfold updateTokenMetadata, bind, gets, Date_now, modify.
  apply saveToStorage_ok.
Qed.

Lemma updateTokenMetadata_maps (tokenAddress : string) (metadata : JsObject)
    (w : World) :
  userTokens (updateTokenMetadata tokenAddress metadata w).2 = userTokens w ∧
  tokenMetadata (updateTokenMetadata tokenAddress metadata w).2 =
    <[toLowerCase tokenAddress :=
        <["lastUpdated" := VNumber (clock w)]>
          (metadata ∪ existingMetadata w tokenAddress)]> (tokenMetadata w) ∧
  clock (updateTokenMetadata tokenAddress metadata w).2 = clock w.
Proof.
  rewrite updateTokenMetadata_run.
  destruct (saveToStorage_maps
              (set_tokenMetadata
                 (<[toLowerCase tokenAddress :=
                      <["lastUpdated" := VNumber (clock w)]>
                        (metadata ∪ existingMetadata w tokenAddress)]>) w))
    as (H1 & H2 & H3).
  cbn [snd]. by rewrite H1, H2, H3.
Qed.

(** C4. [updateTokenMetadata address partial] returns normally, from any
    state.  The entry it leaves for the address carries the fields of
    [partial], and where [partial] has none, the fields of the entry it
    started from, which is the former entry or, when there was none, the
    baseline [{ lastUpdated: 0 }].  Entries of other addresses and the token
    lists are untouched.  [lastUpdated] becomes the reading of the clock,
    whatever [partial] holds for it: it is at least the stamp the entry
    started from exactly when that stamp is not after the clock. *)
Theorem updateTokenMetadata_frame (tokenAddress : string) (partial : JsObject)
    (w : World) :
  ∃ w' entry,
    updateTokenMetadata tokenAddress partial w = (Ok tt, w') ∧
    tokenMetadata w' !! toLowerCase tokenAddress = Some entry ∧
    (∀ k, k ≠ "lastUpdated" → partial !! k = None →
          entry !! k = existingMetadata w tokenAddress !! k) ∧
    (∀ k v, k ≠ "lastUpdated" → partial !! k = Some v → entry !! k = Some v) ∧
    (tokenMetadata w !! toLowerCase tokenAddress = None →
       existingMetadata w tokenAddress = {["lastUpdated" := VNumber 0]} ∧
       ∀ k, k ≠ "lastUpdated" → entry !! k = partial !! k) ∧
    (∀ old, tokenMetadata w !! toLowerCase tokenAddress = Some old →
       existingMetadata w tokenAddress = old) ∧
    entry !! "lastUpdated" = Some (VNumber (clock w)) ∧
    (∀ previous,
       existingMetadata w tokenAddress !! "lastUpdated" = Some (VNumber previous) →
       ∃ now, entry !! "lastUpdated" = Some (VNumber now) ∧
              (previous ≤ now ↔ previous ≤ clock w)) ∧
    (∀ other, other ≠ toLowerCase tokenAddress →
       tokenMetadata w' !! other = tokenMetadata w !! other) ∧
    userTokens w' = userTokens w.
Proof.
  pose proof (updateTokenMetadata_run tokenAddress partial w) as Hrun.
  destruct (updateTokenMetadata_maps tokenAddress partial w) as (Hut & Htm & Hcl).
  rewrite Hrun in Hut, Htm, Hcl. cbn [snd] in Hut, Htm, Hcl.
  eexists. eexists. split; [exact Hrun|].
  set (w' := (saveToStorage _).2) in *.
  split; [by rewrite Htm, lookup_insert_eq|].
  split; [|split; [|split; [|split; [|split; [|split; [|split]]]]]].
  - intros k Hk Hnone. rewrite lookup_insert_ne by done.
    by rewrite lookup_union_r.
  - intros k v Hk Hsome. rewrite lookup_insert_ne by done.
    by apply lookup_union_Some_l.
  - intros Hnone. unfold existingMetadata. rewrite Hnone. simpl.
    split; [done|]. intros k Hk. rewrite lookup_insert_ne by done.
    rewrite lookup_union, lookup_singleton_ne by done.
    by destruct (partial !! k).
  - intros old Hold. unfold existingMetadata. by rewrite Hold.
  - apply lookup_insert_eq.
  - intros previous _. exists (clock w). split; [apply lookup_insert_eq|done].
  - intros other Hne. by rewrite Htm, lookup_insert_ne.
  - exact Hut.
Qed.

End Metadata.

Lemma updateTokenMetadata_frame_witness :
  ∃ w' entry,
    updateTokenMetadata addressB {["description" := VString "A test token"]}
      worldA2 = (Ok tt, w') ∧
    tokenMetadata w' !! toLowerCase addressB = Some entry ∧
    entry !! "tags" = Some (VArray [VString "stable"]) ∧
    entry !! "description" = Some (VString "A test token") ∧
    entry !! "lastUpdated" = Some (VNumber 1700000000000).
Proof.
  destruct (updateTokenMetadata_frame addressB
              {["description" := VString "A test token"]} worldA2)
    as (w' & entry & Hrun & Hentry & Hkeep & Hset & _ & _ & Hstamp & _).
  exists w', entry. split; [exact Hrun|]. split; [exact Hentry|].
  split; [|split].
  - rewrite (Hkeep "tags"); [reflexivity | discriminate | reflexivity].
  - apply Hset; [discriminate | reflexivity].
  - exact Hstamp.
Defined.

(** The stamp is not monotone.  An entry stamped at 1700000000000 is updated
    when the clock of the machine, set back since, reads 1600000000000: the
    new [lastUpdated] is below the previous one. *)
Lemma updateTokenMetadata_stamp_decreases :
  ∃ previous now entry,
    tokenMetadata worldClockSetBack !! toLowerCase addressB
      = Some {[ "lastUpdated" := VNumber previous ]} ∧
    tokenMetadata
      (updateTokenMetadata addressB {["description" := VString "A test token"]}
         worldClockSetBack).2 !! toLowerCase addressB = Some entry ∧
    entry !! "lastUpdated" = Some (VNumber now) ∧
    now < previous.
Proof.
  exists 1700000000000, 1600000000000. eexists.
  split; [reflexivity|]. split; [reflexivity|]. split; [reflexivity|]. lia.
Qed.

Section Searching.

Context {casing : CaseMapping}.

(** ** Strings: substrings *)

Lemma startsWith_spec (s p : string) :
  startsWith s p = true ↔ ∃ t, s = p +:+ t.
Proof.
  revert s. induction p as [|a p IH]; intros s; simpl.
  - split; [intros _; by exists s | done].
  - destruct s as [|b s].
    + split; [done | by intros [t Ht]].
    + rewrite andb_true_iff, bool_decide_eq_true, IH. split.
      * intros [-> [t ->]]. by exists t.
      * intros [t Ht]. injection Ht as -> ->. eauto.
Qed.

Lemma includes_spec (s sub : string) :
  includes s sub = true ↔ ∃ pre post, s = pre +:+ sub +:+ post.
Proof.
  induction s as [|c s IH]; simpl; rewrite orb_true_iff, startsWith_spec.
  - split.
    + intros [[t Ht]|?]; [|done]. by exists "", t.
    + intros (pre & post & H). left. destruct pre; [by exists post | done].
  - rewrite IH. split.
    + intros [[t Ht]|(pre & post & ->)]; [by exists "", t|].
      by exists (String c pre), post.
    + intros (pre & post & H). destruct pre as [|d pre].
      * left. by exists post.
      * right. injection H as -> ->. eauto.
Qed.

Lemma includes_lower_spec (s q : string) :
  includes (toLowerCase s) (toLowerCase q) = true ↔ containsCI s q.
Proof. apply includes_spec. Qed.

Lemma includes_empty (s : string) : includes s "" = true.
Proof. by destruct s. Qed.


(** ** Search *)

Lemma wellTyped_withMetadata (w : World) (t : JsObject) :
  wellTyped t = true → wellTyped (withMetadata w t) = true.
Proof.
  unfold wellTyped, withMetadata, prop. by rewrite !lookup_insert_ne.
Qed.

Lemma matchesQuery_typed (q : string) (t : JsObject) :
  wellTyped t = true → matchesQuery (toLowerCase q) t = Ok (searchHit q t).
Proof.
  intros (a & n & s & Ha & Hn & Hs)%wellTyped_inv.
  unfold matchesQuery, searchHit, stringField. rewrite Ha, Hn, Hs. simpl.
  destruct (includes (toLowerCase n) (toLowerCase q)); [done|].
  by destruct (includes (toLowerCase s) (toLowerCase q)).
Qed.

Lemma filterR_searchHit (q : string) (l : list JsObject) :
  Forall (λ t, wellTyped t = true) l →
  filterR (matchesQuery (toLowerCase q)) l
  = Ok (filter (λ t, searchHit q t = true) l).
Proof.
  induction 1 as [|t l Ht Hl IH]; [done|].
  simpl. rewrite (matchesQuery_typed _ _ Ht), IH, filter_cons. simpl.
  destruct (searchHit q t); [by rewrite decide_True | by rewrite decide_False].
Qed.

Lemma searchTokens_run (owner q : string) (w : World) :
  registryTyped w →
  searchTokens owner q w =
    Ok (filter (λ t, searchHit q t = true) (withMetadata w <$> tokensOf w owner)).
Proof.
  intros Hw. unfold searchTokens. rewrite (getUserTokens_run _ _ Hw). simpl.
  apply filterR_searchHit. apply Forall_fmap.
  eapply Forall_impl; [by apply tokensOf_typed|].
  intros t. apply wellTyped_withMetadata.
Qed.


End Searching.


Section EmptyQuery.

Context {casing : CaseMapping}.

(** C10. On a well-typed registry the empty query matches every record:
    [searchTokens owner ""] returns all of [getUserTokens owner]. *)
Theorem searchTokens_empty_query (owner : string) (w : World) :
  registryTyped w →
  ∃ tokens, getUserTokens owner w = Ok tokens ∧
            searchTokens owner "" w = Ok tokens.
Proof.
  intros Hw. eexists. split; [by apply getUserTokens_run|].
  rewrite (searchTokens_run _ _ _ Hw). f_equal. apply filter_all.
  intros t _. unfold searchHit. by rewrite toLowerCase_empty, !includes_empty.
Qed.

End EmptyQuery.

Lemma searchTokens_empty_query_witness :
  registryTyped worldA2 ∧
  searchTokens ownerA "" worldA2 =
    Ok [withMetadata worldA2 tokenTST; withMetadata worldA2 tokenUSD].
Proof.
  assert (registryTyped worldA2) as Hw
    by by_evaluation.
  split; [exact Hw|].
  destruct (searchTokens_empty_query ownerA worldA2 Hw) as (tokens & Hget & Hrun).
  rewrite Hrun. f_equal.
  rewrite (getUserTokens_run _ _ Hw) in Hget. injection Hget as <-.
  reflexivity.
Defined.

(** ** Import *)

Section ImportFacts.

Context {casing : CaseMapping}.

Context (isAddress : JsValue → bool).

Lemma andThen_Ok (a b : bool) : andThen (Ok a) (Ok b) = Ok (a && b).
Proof. by destruct a. Qed.

Lemma typeofIs_string (o : JsObject) (k : string) :
  typeofIs (VObject o) k "string" = Ok (isString (prop o k)).
Proof. unfold typeofIs. simpl. by destruct (prop o k). Qed.

Lemma typeofIs_number (o : JsObject) (k : string) :
  typeofIs (VObject o) k "number" = Ok (isNumber (prop o k)).
Proof. unfold typeofIs. simpl. by destruct (prop o k). Qed.

Lemma isValidToken_object (o : JsObject) :
  isValidToken isAddress (VObject o) = Ok (validRecord isAddress o).
Proof.
  unfold isValidToken, validRecord.
  rewrite !typeofIs_string, !typeofIs_number. cbn [getProp Result_bind].
  by rewrite !andThen_Ok.
Qed.

Lemma isValidToken_other (v : JsValue) :
  isNullish v = false → (∀ o, v ≠ VObject o) →
  isValidToken isAddress v = Ok false.
Proof. destruct v; intros Hn Ho; try done. by destruct (Ho o). Qed.

Lemma validRecord_wellTyped (o : JsObject) :
  validRecord isAddress o = true → wellTyped o = true.
Proof.
  unfold validRecord, wellTyped. rewrite !andb_true_iff. tauto.
Qed.

(** One turn of the loop: a valid record goes through [addUserToken], any
    other element that has properties is passed over. *)
Lemma importToken_run (owner : string) (v : JsValue) (w : World) :
  registryTyped w → isNullish v = false →
  importToken isAddress owner v w =
    (Ok tt, foldl (λ w' o, (addUserToken owner o w').2) w
                  (validRecords isAddress [v])).
Proof.
  intros Hw Hn. unfold importToken, bind, lift.
  destruct v as [| | | | | |o]; try done.
  rewrite isValidToken_object. unfold validRecords. simpl.
  destruct (validRecord isAddress o) eqn:Hv; simpl; [|done].
  rewrite (addUserToken_run _ _ _ Hw (validRecord_wellTyped _ Hv)). done.
Qed.

Lemma validRecords_cons (v : JsValue) (elems : list JsValue) :
  validRecords isAddress (v :: elems) =
    validRecords isAddress [v] ++ validRecords isAddress elems.
Proof.
  unfold validRecords. simpl.
  by destruct v as [| | | | | |o]; try done; destruct (validRecord isAddress o).
Qed.

Lemma validRecords_typed (elems : list JsValue) :
  Forall (λ t, wellTyped t = true) (validRecords isAddress elems).
Proof.
  induction elems as [|v elems IH]; [constructor|].
  rewrite validRecords_cons. apply Forall_app. split; [|done].
  unfold validRecords. simpl.
  destruct v as [| | | | | |o]; try constructor.
  destruct (validRecord isAddress o) eqn:Hv; repeat constructor.
  by apply validRecord_wellTyped.
Qed.

Lemma foldl_addUserToken_typed (owner : string) (l : list JsObject) (w : World) :
  registryTyped w → Forall (λ t, wellTyped t = true) l →
  registryTyped (foldl (λ w' o, (addUserToken owner o w').2) w l).
Proof.
  intros Hw Hl. revert w Hw. induction Hl as [|o l Ho Hl IH]; intros w Hw; [done|].
  simpl. apply IH. by apply addUserToken_typed.
Qed.

Lemma forOf_importToken (owner : string) (elems : list JsValue) (w : World) :
  registryTyped w → Forall (λ v, isNullish v = false) elems →
  forOf elems (importToken isAddress owner) w =
    (Ok tt, foldl (λ w' o, (addUserToken owner o w').2) w
                  (validRecords isAddress elems)).
Proof.
  intros Hw Hel. revert w Hw.
  induction Hel as [|v elems Hv Hel IH]; intros w Hw; [done|].
  rewrite validRecords_cons, foldl_app. cbn [forOf]. unfold bind.
  rewrite (importToken_run _ _ _ Hw Hv). apply IH.
  apply foldl_addUserToken_typed; [done | apply validRecords_typed].
Qed.

Lemma importUserData_run (owner : string) (doc : JsObject)
    (elems : list JsValue) (w : World) :
  registryTyped w → doc !! "tokens" = Some (VArray elems) →
  Forall (λ v, isNullish v = false) elems →
  importUserData isAddress owner (Denotes (VObject doc)) w =
    (Ok true, foldl (λ w' o, (addUserToken owner o w').2) w
                    (validRecords isAddress elems)).
Proof.
  intros Hw Hdoc Hel.
  unfold importUserData, tryCatch, bind, lift. simpl.
  unfold prop. rewrite Hdoc. simpl.
  by rewrite (forOf_importToken _ _ _ Hw Hel).
Qed.

(** The lists in memory after a run of [addUserToken] over records. *)
Lemma foldl_addUserToken_maps (owner : string) (l : list JsObject) (w : World) :
  registryTyped w → Forall (λ t, wellTyped t = true) l →
  let w' := foldl (λ w' o, (addUserToken owner o w').2) w l in
  tokensOf w' owner = foldl (λ l' o, upsert o l') (tokensOf w owner) l ∧
  (∀ other, toLowerCase other ≠ toLowerCase owner →
            tokensOf w' other = tokensOf w other) ∧
  tokenMetadata w' = tokenMetadata w ∧ clock w' = clock w.
Proof.
  intros Hw Hl. revert w Hw.
  induction Hl as [|o l Ho Hl IH]; intros w Hw; [done|].
  simpl. destruct (addUserToken_userTokens owner o w Hw Ho) as (Hut & Htm & Hcl).
  destruct (IH _ (addUserToken_typed owner o w Hw Ho)) as (H1 & H2 & H3 & H4).
  rewrite H1, H3, H4, Htm, Hcl, (tokensOf_insert _ _ _ _ Hut).
  repeat split; try done.
  intros other Hne. rewrite (H2 other Hne).
  by apply (tokensOf_insert_ne _ _ _ _ _ Hut).
Qed.

(** Records with fresh, pairwise distinct addresses are appended. *)
Lemma foldl_upsert_fresh (base l : list JsObject) :
  Forall (λ t, wellTyped t = true) l →
  NoDup (addressKey <$> (base ++ l)) →
  foldl (λ l' o, upsert o l') base l = base ++ l.
Proof.
  intros Hl. revert base. induction Hl as [|o l Ho Hl IH]; intros base Hnd.
  - by rewrite app_nil_r.
  - simpl. rewrite upsert_absent.
    + rewrite IH; [by rewrite <- app_assoc|]. by rewrite <- app_assoc.
    + intros old Hold E. rewrite fmap_app, fmap_cons in Hnd.
      apply NoDup_app in Hnd as (_ & Hdisj & _).
      apply (Hdisj (addressKey old)); [by apply list_elem_of_fmap_2|].
      rewrite E. apply list_elem_of_here.
Qed.

(** For a payload that is a JSON document whose [tokens] is an array of
    elements with properties, read into a well-typed registry, [importUserData]
    returns [true]; the registry it leaves is the one obtained by passing the
    valid records, and only them, to [addUserToken] in the order of the array,
    so the invalid ones are skipped and the valid ones after them still go
    in.  When the valid records have pairwise distinct addresses that the
    owner does not hold yet, they are appended, and the owner's list grows by
    exactly their number. *)
Theorem importUserData_skips_invalid (owner : string) (doc : JsObject)
    (elems : list JsValue) (w : World) :
  registryTyped w → doc !! "tokens" = Some (VArray elems) →
  Forall (λ v, isNullish v = false) elems →
  ∃ w', importUserData isAddress owner (Denotes (VObject doc)) w = (Ok true, w') ∧
    w' = foldl (λ w1 o, (addUserToken owner o w1).2) w
               (validRecords isAddress elems) ∧
    registryTyped w' ∧
    tokensOf w' owner =
      foldl (λ l o, upsert o l) (tokensOf w owner) (validRecords isAddress elems) ∧
    (∀ other, toLowerCase other ≠ toLowerCase owner →
              tokensOf w' other = tokensOf w other) ∧
    (NoDup (addressKey <$> (tokensOf w owner ++ validRecords isAddress elems)) →
       tokensOf w' owner = tokensOf w owner ++ validRecords isAddress elems ∧
       length (tokensOf w' owner) =
         (length (tokensOf w owner) + length (validRecords isAddress elems))%nat).
Proof.
  intros Hw Hdoc Hel. eexists.
  split; [by apply (importUserData_run owner doc elems)|].
  split; [reflexivity|].
  pose proof (validRecords_typed elems) as Hty.
  destruct (foldl_addUserToken_maps owner _ w Hw Hty) as (Hl & Hother & _).
  split; [by apply foldl_addUserToken_typed|].
  split; [exact Hl|]. split; [exact Hother|].
  intros Hnd. rewrite Hl, (foldl_upsert_fresh _ _ Hty Hnd).
  split; [done | apply length_app].
Qed.

End ImportFacts.

Lemma importUserData_skips_invalid_witness :
  registryTyped emptyWorld ∧
  payload !! "tokens" =
    Some (VArray [VObject tokenTST; VObject tokenBadCreator; VObject tokenUSD]) ∧
  validRecords hexAddress
    [VObject tokenTST; VObject tokenBadCreator; VObject tokenUSD]
    = [tokenTST; tokenUSD] ∧
  ∃ w', importUserData hexAddress ownerC (Denotes (VObject payload)) emptyWorld
          = (Ok true, w') ∧
        tokensOf w' ownerC = [tokenTST; tokenUSD].
Proof.
  assert (registryTyped emptyWorld) as Hw
    by by_evaluation.
  split; [exact Hw|]. split; [reflexivity|]. split; [reflexivity|].
  destruct (importUserData_skips_invalid hexAddress ownerC payload
              [VObject tokenTST; VObject tokenBadCreator; VObject tokenUSD]
              emptyWorld Hw)
    as (w' & Hrun & _ & _ & _ & _ & Hfresh).
  - reflexivity.
  - repeat constructor.
  - exists w'. split; [exact Hrun|].
    destruct Hfresh as [Heq _]; [|exact Heq].
    by_evaluation.
Defined.

Section JsonFacts.

Context {casing : CaseMapping}.

(** ** Export followed by import *)

Lemma toJSON_object (o : JsObject) : toJSON (VObject o) = VObject (jsonObject o).
Proof. reflexivity. Qed.

Lemma toJSON_records (l : list JsObject) :
  toJSON (VArray (VObject <$> l)) = VArray ((λ t, VObject (jsonObject t)) <$> l).
Proof.
  cbn [toJSON]. f_equal. rewrite <- list_fmap_compose. by apply list_fmap_ext.
Qed.

Lemma jsonObject_lookup (o : JsObject) (k : string) :
  jsonObject o !! k = o !! k ≫= jsonProperty.
Proof. apply lookup_omap. Qed.

Lemma jsonData_lookup (t : JsObject) (k : string) :
  jsonData (VObject t) → jsonObject t !! k = t !! k.
Proof.
  unfold jsonData. rewrite toJSON_object. intros H. injection H as H.
  by rewrite H.
Qed.

(** Serialising a record returned by [getUserTokens] keeps the fields of the
    stored record, whatever happens to [metadata]. *)
Lemma jsonObject_withMetadata (w : World) (t : JsObject) (k : string) :
  jsonData (VObject t) → k ≠ "metadata" →
  jsonObject (withMetadata w t) !! k = t !! k.
Proof.
  intros Hj Hk. rewrite <- (jsonData_lookup t k Hj), !jsonObject_lookup.
  unfold withMetadata. by rewrite lookup_insert_ne.
Qed.

Lemma prop_jsonObject_withMetadata (w : World) (t : JsObject) (k : string) :
  jsonData (VObject t) → k ≠ "metadata" →
  prop (jsonObject (withMetadata w t)) k = prop t k.
Proof. intros Hj Hk. unfold prop. by rewrite jsonObject_withMetadata. Qed.

Lemma addressKey_jsonObject (w : World) (t : JsObject) :
  jsonData (VObject t) → addressKey (jsonObject (withMetadata w t)) = addressKey t.
Proof.
  intros Hj. unfold addressKey. by rewrite prop_jsonObject_withMetadata.
Qed.

Lemma withMetadata_jsonObject (w w' : World) (t : JsObject) :
  jsonData (VObject t) → tokenMetadata w' = tokenMetadata w →
  withMetadata w' (jsonObject (withMetadata w t)) = withMetadata w t.
Proof.
  intros Hj Hm. apply map_eq. intros k. unfold withMetadata at 1 3.
  destruct (decide (k = "metadata")) as [->|Hk].
  - rewrite !lookup_insert_eq, (addressKey_jsonObject _ _ Hj).
    unfold metadataOf. by rewrite Hm.
  - rewrite !lookup_insert_ne by done. by apply jsonObject_withMetadata.
Qed.

End JsonFacts.

Section RoundTrip.

Context {casing : CaseMapping}.

Context (isAddress : JsValue → bool) (toISOString : Z → string).

Lemma validRecord_jsonObject (w : World) (t : JsObject) :
  jsonData (VObject t) →
  validRecord isAddress (jsonObject (withMetadata w t)) = validRecord isAddress t.
Proof.
  intros Hj. unfold validRecord.
  by rewrite !(prop_jsonObject_withMetadata _ _ _ Hj).
Qed.

Lemma validRecords_exported (w : World) (l : list JsObject) :
  Forall (λ t, validRecord isAddress t = true ∧ jsonData (VObject t)) l →
  validRecords isAddress ((λ t, VObject (jsonObject t)) <$> (withMetadata w <$> l))
  = (λ t, jsonObject (withMetadata w t)) <$> l.
Proof.
  induction 1 as [|t l [Hv Hj] Hl IH]; [done|].
  rewrite !fmap_cons, validRecords_cons, IH.
  unfold validRecords at 1. cbn [omap list_omap].
  by rewrite (validRecord_jsonObject _ _ Hj), Hv.
Qed.

(** C2. Let the registry be well typed with pairwise distinct addresses, let
    every record of [owner] pass [isValidToken] and be JSON data, and let
    [newOwner] hold no token.  Then [exportUserData owner] produces a
    document, [importUserData newOwner] of that document returns [true], and
    afterwards [getUserTokens newOwner] is the list [getUserTokens owner] was,
    in the same order, so all the more up to order. *)
Theorem export_import_round_trip (owner newOwner : string) (w : World) :
  registryTyped w → registryUnique w →
  Forall (λ t, validRecord isAddress t = true ∧ jsonData (VObject t))
         (tokensOf w owner) →
  tokensOf w newOwner = [] →
  ∃ doc w' tokens tokens',
    exportUserData toISOString owner w = Ok doc ∧
    importUserData isAddress newOwner doc w = (Ok true, w') ∧
    getUserTokens owner w = Ok tokens ∧
    getUserTokens newOwner w' = Ok tokens' ∧
    tokens' = tokens ∧ tokens' ≡ₚ tokens.
Proof.
  intros Hw Hu Hvalid Hfresh.
  set (l := tokensOf w owner) in *.
  set (elems := (λ t, VObject (jsonObject t)) <$> (withMetadata w <$> l)).
  assert (Forall (λ v, isNullish v = false) elems) as Hel.
  { unfold elems. rewrite <- list_fmap_compose. apply Forall_fmap.
    by apply Forall_true. }
  pose proof (validRecords_exported w l Hvalid) as Hrecs. fold elems in Hrecs.
  eexists. eexists. exists (withMetadata w <$> l). eexists.
  split.
  { unfold exportUserData. rewrite (getUserTokens_run _ _ Hw). fold l.
    cbn [Result_bind]. unfold JSON_stringify. rewrite toJSON_object.
    reflexivity. }
  split.
  { apply (importUserData_run isAddress newOwner _ elems w Hw); [|exact Hel].
    rewrite jsonObject_lookup, lookup_insert_ne by done.
    rewrite lookup_insert_eq. cbn [mbind option_bind jsonProperty].
    by rewrite toJSON_records. }
  split; [by apply getUserTokens_run|].
  set (w' := foldl _ w _).
  pose proof (validRecords_typed isAddress elems) as Hty.
  destruct (foldl_addUserToken_maps newOwner _ w Hw Hty) as (Hl & _ & Htm & _).
  fold w' in Hl, Htm.
  assert (tokensOf w' newOwner = (λ t, jsonObject (withMetadata w t)) <$> l) as Hnew.
  { rewrite Hl, Hfresh, (foldl_upsert_fresh _ _ Hty); [by rewrite Hrecs|].
    rewrite Hrecs, app_nil_l, <- list_fmap_compose.
    rewrite (list_fmap_ext _ addressKey l); [by apply tokensOf_NoDup|].
    intros i t Ht. simpl. apply addressKey_jsonObject.
    exact (proj2 (proj1 (Forall_lookup _ _) Hvalid i t Ht)). }
  assert (getUserTokens newOwner w' = Ok (withMetadata w <$> l)) as Hget.
  { rewrite getUserTokens_run by (by apply foldl_addUserToken_typed).
    rewrite Hnew, <- list_fmap_compose. f_equal.
    apply list_fmap_ext. intros i t Ht. simpl.
    apply withMetadata_jsonObject; [|exact Htm].
    exact (proj2 (proj1 (Forall_lookup _ _) Hvalid i t Ht)). }
  split; [exact Hget|]. split; done.
Qed.

End RoundTrip.

Lemma export_import_round_trip_witness :
  registryTyped worldA2 ∧ registryUnique worldA2 ∧
  tokensOf worldA2 ownerC = [] ∧
  ∃ doc w',
    exportUserData fixedISOString ownerA worldA2 = Ok doc ∧
    importUserData hexAddress ownerC doc worldA2 = (Ok true, w') ∧
    getUserTokens ownerC w' =
      Ok [withMetadata worldA2 tokenTST; withMetadata worldA2 tokenUSD].
Proof.
  assert (registryTyped worldA2) as Hw
    by by_evaluation.
  assert (registryUnique worldA2) as Hu
    by by_evaluation.
  split; [exact Hw|]. split; [exact Hu|]. split; [reflexivity|].
  destruct (export_import_round_trip hexAddress fixedISOString ownerA ownerC worldA2
              Hw Hu)
    as (doc & w' & tokens & tokens' & Hexp & Himp & Hget & Hget' & Heq & _).
  - repeat constructor.
  - reflexivity.
  - exists doc, w'. split; [exact Hexp|]. split; [exact Himp|].
    rewrite Hget', Heq. rewrite (getUserTokens_run _ _ Hw) in Hget.
    injection Hget as <-. reflexivity.
Defined.

Section UpsertAlgebra.

Context {casing : CaseMapping}.

(** ** Algebra of the insert-or-merge step *)

Lemma upsert_keeps_key (u : JsObject) (k : string) (l : list JsObject) :
  wellTyped u = true → k ∈ addressKey <$> l → k ∈ addressKey <$> upsert u l.
Proof.
  intros Hu Hk. rewrite (upsert_keys _ _ Hu). case_decide; [done|].
  apply elem_of_app. by left.
Qed.

Lemma union_absorb (u t h : JsObject) :
  dom t ⊆ dom u → u ∪ (t ∪ h) = u ∪ h.
Proof.
  intros Hd. apply map_eq. intros k. rewrite !lookup_union.
  destruct (u !! k) as [v|] eqn:Eu; [by destruct (t !! k), (h !! k)|].
  assert (t !! k = None) as ->; [|by destruct (h !! k)].
  apply not_elem_of_dom. intros Hin. apply Hd in Hin.
  by apply not_elem_of_dom in Eu.
Qed.

Lemma union_absorb_r (u t : JsObject) : dom t ⊆ dom u → u ∪ t = u.
Proof.
  intros Hd. rewrite <- (right_id_L ∅ (∪) t), (union_absorb _ _ _ Hd).
  apply (right_id_L ∅ (∪)).
Qed.

(** A record overwrites an earlier one with the same address and no other
    fields. *)
Lemma upsert_absorb (u t : JsObject) (l : list JsObject) :
  wellTyped t = true → addressKey t = addressKey u → dom t ⊆ dom u →
  upsert u (upsert t l) = upsert u l.
Proof.
  intros Ht Hk Hd. induction l as [|h l IH]; simpl.
  - rewrite decide_True by done. by rewrite union_absorb_r.
  - destruct (decide (addressKey h = addressKey t)) as [E|E].
    + rewrite decide_True by congruence. simpl.
      rewrite decide_True by (by rewrite addressKey_union).
      by rewrite union_absorb.
    + rewrite decide_False by congruence. simpl.
      rewrite decide_False by congruence. by rewrite IH.
Qed.

Lemma upsert_idem (t : JsObject) (l : list JsObject) :
  wellTyped t = true → upsert t (upsert t l) = upsert t l.
Proof. intros Ht. by apply upsert_absorb. Qed.

(** Records with different addresses commute once one of them is in. *)
Lemma upsert_comm (t u : JsObject) (l : list JsObject) :
  wellTyped t = true → wellTyped u = true →
  addressKey t ≠ addressKey u → addressKey t ∈ addressKey <$> l →
  upsert t (upsert u l) = upsert u (upsert t l).
Proof.
  intros Ht Hu Hne. induction l as [|h l IH]; intros Hin.
  - by apply elem_of_nil in Hin.
  - rewrite fmap_cons in Hin. simpl.
    destruct (decide (addressKey h = addressKey t)) as [E1|E1];
      destruct (decide (addressKey h = addressKey u)) as [E2|E2];
      try congruence; simpl.
    + rewrite decide_True by done.
      rewrite decide_False by (by rewrite addressKey_union).
      done.
    + rewrite decide_False by (by rewrite addressKey_union).
      by rewrite decide_True by done.
    + rewrite decide_False by done. rewrite decide_False by done.
      rewrite IH; [done|].
      apply elem_of_cons in Hin as [Hin|Hin]; [congruence | done].
Qed.

Lemma foldl_upsert_keeps_key (ts : list JsObject) (k : string) (l : list JsObject) :
  Forall (λ t, wellTyped t = true) ts → k ∈ addressKey <$> l →
  k ∈ addressKey <$> foldl (λ l' o, upsert o l') l ts.
Proof.
  intros Hts. revert l. induction Hts as [|u ts Hu Hts IH]; intros l Hk; [done|].
  simpl. by apply IH, upsert_keeps_key.
Qed.

(** An update that a later record of the run overwrites leaves no trace. *)
Lemma foldl_upsert_overwritten (D : gset string) (ts : list JsObject)
    (t : JsObject) (m : list JsObject) :
  Forall (λ u, wellTyped u = true ∧ dom u = D) ts →
  wellTyped t = true → dom t = D →
  addressKey t ∈ addressKey <$> ts → addressKey t ∈ addressKey <$> m →
  foldl (λ l' o, upsert o l') (upsert t m) ts = foldl (λ l' o, upsert o l') m ts.
Proof.
  intros Hts Ht Hd. revert m.
  induction Hts as [|u ts [Hu Hdu] Hts IH]; intros m Hin Hm.
  - by apply elem_of_nil in Hin.
  - simpl. destruct (decide (addressKey t = addressKey u)) as [E|E].
    + rewrite upsert_absorb; [done | done | done | by rewrite Hd, Hdu].
    + rewrite <- (upsert_comm t u) by done.
      apply IH; [|by apply upsert_keeps_key].
      rewrite fmap_cons in Hin.
      apply elem_of_cons in Hin as [Hin|Hin]; [congruence | done].
Qed.

(** An update that no later record of the run touches is still in effect at
    the end. *)
Lemma foldl_upsert_kept (ts : list JsObject) (t : JsObject) (m : list JsObject) :
  Forall (λ u, wellTyped u = true) ts → wellTyped t = true →
  addressKey t ∉ addressKey <$> ts → upsert t m = m →
  upsert t (foldl (λ l' o, upsert o l') m ts) = foldl (λ l' o, upsert o l') m ts.
Proof.
  intros Hts Ht. revert m.
  induction Hts as [|u ts Hu Hts IH]; intros m Hnot Hm; [done|].
  simpl. rewrite fmap_cons in Hnot. apply not_elem_of_cons in Hnot as [Hne Hnot].
  apply IH; [done|]. rewrite (upsert_comm t u) by
    (try done; rewrite <- Hm; by apply upsert_key_present).
  by rewrite Hm.
Qed.

(** Running the same records twice gives what running them once gives. *)
Lemma foldl_upsert_idem (D : gset string) (ts : list JsObject) (l : list JsObject) :
  Forall (λ u, wellTyped u = true ∧ dom u = D) ts →
  foldl (λ l' o, upsert o l') (foldl (λ l' o, upsert o l') l ts) ts
  = foldl (λ l' o, upsert o l') l ts.
Proof.
  intros Hts. revert l. induction Hts as [|t ts [Ht Hd] Hts IH]; intros l; [done|].
  simpl. set (m := foldl _ (upsert t l) ts).
  assert (Forall (λ u, wellTyped u = true) ts) as Hty
    by (eapply Forall_impl; [exact Hts | by intros ? []]).
  assert (addressKey t ∈ addressKey <$> m) as Hm
    by (apply foldl_upsert_keeps_key; [done | by apply upsert_key_present]).
  destruct (decide (addressKey t ∈ addressKey <$> ts)) as [Hin|Hnot].
  - rewrite (foldl_upsert_overwritten D) by done. apply IH.
  - unfold m at 1. rewrite foldl_upsert_kept; [apply IH | done | done | done |].
    by apply upsert_idem.
Qed.

End UpsertAlgebra.

(** ** Synchronisation with the chain *)

Section Sync.

Context {casing : CaseMapping}.

Import TokenManager TokenManagerSpec Ethers.

Lemma string_of_uint_digits (d : Decimal.uint) :
  allDigits (NilEmpty.string_of_uint d) = true.
Proof. induction d; simpl; auto. Qed.

Lemma bigint_toString_decimal (n : N) :
  isDecimalString (bigint_toString n) = true.
Proof.
  unfold isDecimalString, bigint_toString, NilZero.string_of_uint.
  destruct (N.to_uint n) eqn:E; try done;
    by (simpl; rewrite string_of_uint_digits).
Qed.

Lemma bigint_toString_value (n : N) :
  decimalValue (bigint_toString n) = Some n.
Proof.
  unfold decimalValue, bigint_toString. rewrite NilZero.usu.
  - simpl. by rewrite DecimalN.Unsigned.of_to.
  - destruct n as [|p]; [done | apply Unsigned.to_uint_nonnil].
Qed.

Lemma supplyString_some (n : N) : supplyString (Some n) = bigint_toString n.
Proof.
  unfold supplyString. pose proof (bigint_toString_decimal n) as H.
  destruct (String.eqb_spec (bigint_toString n) "") as [E|E]; [|done].
  by rewrite E in H.
Qed.

Lemma supplyString_decimal (supply : option N) :
  isDecimalString (supplyString supply) = true.
Proof.
  destruct supply as [n|]; [|done].
  rewrite supplyString_some. apply bigint_toString_decimal.
Qed.

Lemma userTokenOf_typed (chainId : Z) (ft : FactoryToken) :
  wellTyped (userTokenOf chainId ft) = true.
Proof. reflexivity. Qed.

Lemma userTokenOf_dom (chainId : Z) (ft : FactoryToken) :
  dom (userTokenOf chainId ft) = userTokenFields.
Proof.
  unfold userTokenOf, userTokenFields. rewrite !dom_insert_L, dom_empty_L.
  set_solver.
Qed.

Lemma forOf_addUserToken {A} (f : A → JsObject) (owner : string) (l : list A)
    (w : World) :
  registryTyped w → Forall (λ t, wellTyped t = true) (f <$> l) →
  forOf l (λ x, addUserToken owner (f x)) w =
    (Ok tt, foldl (λ w' o, (addUserToken owner o w').2) w (f <$> l)).
Proof.
  revert w. induction l as [|x l IH]; intros w Hw Hl; [done|].
  rewrite fmap_cons in Hl. apply Forall_cons in Hl as [Hx Hl].
  pose proof (addUserToken_run owner (f x) w Hw Hx) as Hrun.
  pose proof (addUserToken_typed owner (f x) w Hw Hx) as Hw1.
  rewrite fmap_cons. cbn [forOf foldl]. unfold bind.
  rewrite Hrun in Hw1 |- *. cbn [snd] in Hw1 |- *. by apply IH.
Qed.

(** The map of owners after a run of [addUserToken]. *)
Lemma foldl_addUserToken_userTokens (owner : string) (l : list JsObject)
    (w : World) :
  registryTyped w → Forall (λ t, wellTyped t = true) l → l ≠ [] →
  userTokens (foldl (λ w' o, (addUserToken owner o w').2) w l) =
    <[toLowerCase owner := foldl (λ l' o, upsert o l') (tokensOf w owner) l]>
      (userTokens w).
Proof.
  intros Hw Hl. revert w Hw.
  induction Hl as [|o l Ho Hl IH]; intros w Hw Hne; [done|].
  cbn [foldl].
  destruct (addUserToken_userTokens owner o w Hw Ho) as (Hut & _).
  pose proof (addUserToken_typed owner o w Hw Ho) as Hw1.
  destruct l as [|o' l]; [exact Hut|].
  rewrite (IH _ Hw1) by done.
  by rewrite (tokensOf_insert _ _ _ _ Hut), Hut, insert_insert_eq.
Qed.

Lemma userTokens_typed (chainId : Z) (fts : list FactoryToken) :
  Forall (λ t, wellTyped t = true) (userTokenOf chainId <$> fts).
Proof. apply Forall_fmap, Forall_true. intros ft. apply userTokenOf_typed. Qed.

Lemma syncWithBlockchain_run
    (getTokensByCreator : Signer → string → Result (list FactoryToken))
    (sg : Signer) (userAddress : string) (chainId : Z)
    (fts : list FactoryToken) (w : World) :
  registryTyped w → userAddress ≠ "" →
  getTokensByCreator sg userAddress = Ok fts →
  syncWithBlockchain getTokensByCreator (Some sg) userAddress chainId w =
    (Ok tt, foldl (λ w' o, (addUserToken userAddress o w').2) w
                  (userTokenOf chainId <$> fts)).
Proof.
  intros Hw Hne Hreply. unfold syncWithBlockchain.
  destruct (String.eqb_spec userAddress "") as [E|_]; [done|].
  unfold tryCatch, bind, lift. rewrite Hreply.
  by rewrite (forOf_addUserToken _ _ _ _ Hw (userTokens_typed chainId fts)).
Qed.

(** C6. With a signer, a non-empty user address and a reply of the factory
    whose timestamps stay in the safe-integer range once in milliseconds,
    [syncWithBlockchain] on a well-typed registry passes to [addUserToken],
    in order, one record per result: its [createdAt] is the timestamp in
    seconds times 1000, its [initialSupply] and [maxSupply] are decimal
    strings (denoting the supply when the reply has it), its
    [transactionHash] is empty.  Running the synchronisation again on the
    same reply leaves the token lists and the metadata as the first run left
    them. *)
Theorem syncWithBlockchain_idempotent
    (getTokensByCreator : Signer → string → Result (list FactoryToken))
    (sg : Signer) (userAddress : string) (chainId : Z)
    (fts : list FactoryToken) (w : World) :
  registryTyped w → userAddress ≠ "" →
  getTokensByCreator sg userAddress = Ok fts →
  Forall (λ ft, Z.of_N (createdAt ft) * 1000 ≤ MAX_SAFE_INTEGER) fts →
  ∃ w1 w2,
    syncWithBlockchain getTokensByCreator (Some sg) userAddress chainId w
      = (Ok tt, w1) ∧
    w1 = foldl (λ w' o, (addUserToken userAddress o w').2) w
               (userTokenOf chainId <$> fts) ∧
    (∀ ft, ft ∈ fts →
       ∃ initial total,
         userTokenOf chainId ft !! "createdAt"
           = Some (VNumber (Z.of_N (createdAt ft) * 1000)) ∧
         userTokenOf chainId ft !! "transactionHash" = Some (VString "") ∧
         userTokenOf chainId ft !! "initialSupply" = Some (VString initial) ∧
         userTokenOf chainId ft !! "maxSupply" = Some (VString total) ∧
         isDecimalString initial = true ∧ isDecimalString total = true ∧
         (∀ n, initialSupply ft = Some n → decimalValue initial = Some n) ∧
         (∀ n, maxSupply ft = Some n → decimalValue total = Some n)) ∧
    syncWithBlockchain getTokensByCreator (Some sg) userAddress chainId w1
      = (Ok tt, w2) ∧
    userTokens w2 = userTokens w1 ∧ tokenMetadata w2 = tokenMetadata w1.
Proof.
  intros Hw Hne Hreply _.
  pose proof (userTokens_typed chainId fts) as Hty.
  pose proof (foldl_addUserToken_typed userAddress _ w Hw Hty) as Hw1.
  eexists. eexists.
  split; [by apply syncWithBlockchain_run|]. split; [reflexivity|].
  split.
  { intros ft _. exists (supplyString (initialSupply ft)),
      (supplyString (maxSupply ft)).
    repeat split; try apply supplyString_decimal.
    - intros n ->. rewrite supplyString_some. apply bigint_toString_value.
    - intros n ->. rewrite supplyString_some. apply bigint_toString_value. }
  split; [by apply syncWithBlockchain_run|].
  set (ts := userTokenOf chainId <$> fts) in *.
  set (w1 := foldl _ w ts) in *. set (w2 := foldl _ w1 ts).
  destruct (foldl_addUserToken_maps userAddress ts w Hw Hty) as (Hl1 & _ & _).
  destruct (foldl_addUserToken_maps userAddress ts w1 Hw1 Hty)
    as (_ & _ & Htm & _).
  fold w1 in Hl1. fold w2 in Htm. split; [|exact Htm].
  destruct (decide (ts = [])) as [Hnil|Hcons].
  - unfold w2. by rewrite Hnil.
  - unfold w2. rewrite (foldl_addUserToken_userTokens _ _ _ Hw1 Hty Hcons).
    rewrite Hl1, (foldl_upsert_idem userTokenFields), <- Hl1.
    2:{ apply Forall_fmap, Forall_true. intros ft. simpl.
        split; [apply userTokenOf_typed | apply userTokenOf_dom]. }
    apply insert_id. unfold w1 at 1.
    rewrite (foldl_addUserToken_userTokens _ _ _ Hw Hty Hcons).
    rewrite lookup_insert_eq. by rewrite Hl1.
Qed.

End Sync.

Lemma syncWithBlockchain_idempotent_witness :
  registryTyped worldA ∧ ownerA ≠ "" ∧
  ∃ w1 w2,
    TokenManager.syncWithBlockchain factoryReply (Some signerA) ownerA 4207 worldA
      = (Ok tt, w1) ∧
    TokenManager.syncWithBlockchain factoryReply (Some signerA) ownerA 4207 w1
      = (Ok tt, w2) ∧
    userTokens w2 = userTokens w1 ∧
    length (tokensOf w1 ownerA) = 2%nat.
Proof.
  assert (registryTyped worldA) as Hw
    by by_evaluation.
  assert (ownerA ≠ "") as Hne by discriminate.
  split; [exact Hw|]. split; [exact Hne|].
  destruct (syncWithBlockchain_idempotent factoryReply signerA ownerA 4207
              [factoryTST; factoryUSD] worldA Hw Hne)
    as (w1 & w2 & Hrun1 & Hw1 & _ & Hrun2 & Hsame & _).
  - reflexivity.
  - repeat constructor; vm_compute; discriminate.
  - exists w1, w2. split; [exact Hrun1|]. split; [exact Hrun2|].
    split; [exact Hsame|]. rewrite Hw1. vm_compute. reflexivity.
Defined.

(** ** The wallet session *)

Section Wallet.

Import WalletConnect Ethers.

Context (formatEther : Z → string).

(** Whatever the wallet answers, [checkConnection] returns normally. *)
Lemma checkConnection_returns (ethereum : option Wallet) (s : Session) :
  ∃ s', checkConnection formatEther ethereum s = (Ok tt, s').
Proof.
  destruct ethereum as [wallet|]; [|by eexists].
  unfold checkConnection, tryCatch, bind, lift.
  destruct (eth_accounts wallet) as [accounts|e]; [|by eexists].
  destruct (bool_decide (0 < length accounts)%nat); [|by eexists].
  destruct (getSigner wallet) as [signer|e]; [|by eexists].
  destruct (getNetwork_chainId wallet) as [chainId|e]; [|by eexists].
  simpl.
  destruct (getBalance wallet (getAddress signer)) as [wei|e]; by eexists.
Qed.

(** C7. [handleAccountsChanged] always returns normally.  With no account
    the session ends up disconnected, with an empty address, balance ["0"]
    and unknown network status, and the parent is told; this holds from any
    state, the connected one included.  With a non-empty list the address is
    set to the first account and the session is resolved again through
    [checkConnection]: when the wallet answers each request and lists an
    account, the session ends up connected, with the address of the wallet's
    signer, its balance, and the network status [correct] exactly when the
    chain is 4207; when the wallet fails to list its accounts, the address is
    that first account and the network status is unknown. *)
Theorem handleAccountsChanged_resolves (ethereum : option Wallet)
    (accounts : list string) (s : Session) :
  (∃ s', handleAccountsChanged formatEther ethereum accounts s = (Ok tt, s')) ∧
  (accounts = [] →
     ∃ s', handleAccountsChanged formatEther ethereum accounts s = (Ok tt, s') ∧
       isConnected s' = false ∧ address s' = "" ∧ balance s' = "0" ∧
       networkStatus s' = unknown ∧
       callbacks s' = callbacks s ++ [onWalletDisconnected]) ∧
  (∀ primary others,
     accounts = primary :: others →
     handleAccountsChanged formatEther ethereum accounts s =
       checkConnection formatEther ethereum (setAddress primary s).2) ∧
  (∀ primary others wallet listed signer chainId balanceWei,
     accounts = primary :: others → ethereum = Some wallet →
     eth_accounts wallet = Ok listed → listed ≠ [] →
     getSigner wallet = Ok signer →
     getNetwork_chainId wallet = Ok chainId →
     getBalance wallet (getAddress signer) = Ok balanceWei →
     ∃ s', handleAccountsChanged formatEther ethereum accounts s = (Ok tt, s') ∧
       isConnected s' = true ∧ address s' = getAddress signer ∧
       balance s' = formatEther balanceWei ∧
       networkStatus s' = (if bool_decide (chainId = 4207) then correct else wrong) ∧
       callbacks s' =
         callbacks s ++ [onWalletConnected signer (getAddress signer)]) ∧
  (∀ primary others wallet e,
     accounts = primary :: others → ethereum = Some wallet →
     eth_accounts wallet = Throw e →
     ∃ s', handleAccountsChanged formatEther ethereum accounts s = (Ok tt, s') ∧
       isConnected s' = isConnected s ∧ address s' = primary ∧
       balance s' = balance s ∧ networkStatus s' = unknown).
Proof.
  split; [|split; [|split; [|split]]].
  - destruct accounts as [|primary others]; [by eexists|].
    apply checkConnection_returns.
  - intros ->. eexists. split; [reflexivity|]. by repeat split.
  - by intros primary others ->.
  - intros primary others wallet listed signer chainId balanceWei
      -> -> Hlist Hne Hsigner Hchain Hbal.
    unfold handleAccountsChanged, checkConnection, tryCatch, bind, lift.
    cbn [setAddress modify]. rewrite Hlist.
    rewrite bool_decide_eq_true_2 by (destruct listed; [done | simpl; lia]).
    rewrite Hsigner, Hchain. cbn [setNetworkStatus modify]. rewrite Hbal.
    eexists. split; [reflexivity|]. by repeat split.
  - intros primary others wallet e -> -> Hlist.
    unfold handleAccountsChanged, checkConnection, tryCatch, bind, lift.
    cbn [setAddress modify]. rewrite Hlist.
    eexists. split; [reflexivity|]. by repeat split.
Qed.

End Wallet.

Lemma handleAccountsChanged_resolves_witness :
  (∃ s', WalletConnect.handleAccountsChanged weiString (Some walletA) [] sessionC
           = (Ok tt, s') ∧
         WalletConnect.isConnected s' = false ∧ WalletConnect.address s' = "") ∧
  (∃ s', WalletConnect.handleAccountsChanged weiString (Some walletA)
           [toLowerCase ownerA] sessionC = (Ok tt, s') ∧
         WalletConnect.isConnected s' = true ∧
         WalletConnect.address s' = ownerA ∧
         WalletConnect.networkStatus s' = WalletConnect.correct).
Proof.
  split.
  - destruct (handleAccountsChanged_resolves weiString (Some walletA) []
                sessionC) as (_ & Hnone & _).
    destruct (Hnone eq_refl) as (s' & Hrun & Hc & Ha & _).
    exists s'. by repeat split.
  - destruct (handleAccountsChanged_resolves weiString (Some walletA)
                [toLowerCase ownerA] sessionC) as (_ & _ & _ & Hsome & _).
    destruct (Hsome (toLowerCase ownerA) [] walletA [ownerA] signerA 4207
                1500000000000000000)
      as (s' & Hrun & Hc & Ha & _ & Hn & _); try reflexivity; [discriminate|].
    exists s'. by repeat split.
Defined.

Section Invariant.

Context {casing : CaseMapping}.

(** ** The invariant holds in every reachable state *)

Lemma NoDup_keys_filter (P : JsObject → Prop) `{∀ t, Decision (P t)}
    (l : list JsObject) :
  NoDup (addressKey <$> l) → NoDup (addressKey <$> filter P l).
Proof.
  induction l as [|t l IH]; [done|].
  rewrite fmap_cons, filter_cons. intros [Hnotin Hnd]%NoDup_cons.
  case_decide; [|by apply IH].
  rewrite fmap_cons. apply NoDup_cons. split; [|by apply IH].
  intros (t' & Hk & [_ Ht']%list_elem_of_filter)%list_elem_of_fmap.
  apply Hnotin. rewrite Hk. by apply list_elem_of_fmap_2.
Qed.

Lemma addUserToken_invariant (owner : string) (token : JsObject) (w : World) :
  wellTyped token = true → registryInvariant w →
  registryInvariant (addUserToken owner token w).2.
Proof.
  intros Htok (Hw & Hu).
  split; [by apply addUserToken_typed | by apply addUserToken_unique].
Qed.

Lemma removeUserToken_invariant (owner tokenAddress : string) (w : World) :
  registryInvariant w → registryInvariant (removeUserToken owner tokenAddress w).2.
Proof.
  intros (Hw & Hu).
  destruct (removeUserToken_maps owner tokenAddress w Hw) as (Hut & Htm & Hcl).
  unfold registryInvariant, registryTyped, registryUnique.
  rewrite Hut. split.
  - apply map_Forall_insert_2; [|done].
    apply Forall_forall. intros x [_ Hx]%list_elem_of_filter. revert x Hx.
    apply Forall_forall, tokensOf_typed, Hw.
  - apply map_Forall_insert_2; [|done].
    by apply NoDup_keys_filter, tokensOf_NoDup.
Qed.

Lemma updateTokenMetadata_invariant (tokenAddress : string) (metadata : JsObject)
    (w : World) :
  registryInvariant w →
  registryInvariant (updateTokenMetadata tokenAddress metadata w).2.
Proof.
  intros (Hw & Hu).
  destruct (updateTokenMetadata_maps tokenAddress metadata w) as (Hut & Htm & Hcl).
  unfold registryInvariant, registryTyped, registryUnique.
  by rewrite Hut.
Qed.

End Invariant.

Section ImportInvariant.

Context {casing : CaseMapping}.

Context (isAddress : JsValue → bool).

Lemma isValidToken_true (v : JsValue) :
  isValidToken isAddress v = Ok true →
  ∃ o, v = VObject o ∧ validRecord isAddress o = true.
Proof.
  destruct v as [| | | | | |o]; try done.
  rewrite isValidToken_object. intros [= H]. eauto.
Qed.

Lemma importToken_invariant (owner : string) (v : JsValue) (w : World) :
  registryInvariant w → registryInvariant (importToken isAddress owner v w).2.
Proof.
  intros Hinv. unfold importToken, bind, lift.
  destruct (isValidToken isAddress v) as [[]|e] eqn:Hv; try done.
  apply isValidToken_true in Hv as (o & -> & Hv).
  apply addUserToken_invariant; [|done]. by eapply validRecord_wellTyped.
Qed.

Lemma forOf_importToken_invariant (owner : string) (elems : list JsValue)
    (w : World) :
  registryInvariant w →
  registryInvariant (forOf elems (importToken isAddress owner) w).2.
Proof.
  revert w. induction elems as [|v elems IH]; intros w Hinv; [done|].
  cbn [forOf]. unfold bind.
  pose proof (importToken_invariant owner v w Hinv) as Hstep.
  destruct (importToken isAddress owner v w) as [[[]|e] w1]; [|done].
  by apply IH.
Qed.

Lemma importUserData_invariant (owner : string) (data : JsonText) (w : World) :
  registryInvariant w →
  registryInvariant (importUserData isAddress owner data w).2.
Proof.
  intros Hinv. unfold importUserData, tryCatch, bind, lift.
  destruct data as [|parsed]; [done|]. cbn [JSON_parse].
  destruct (getProp parsed "tokens") as [tokens|e]; [|done].
  destruct (negb (truthy tokens) || negb (isArray tokens)); [done|].
  pose proof (forOf_importToken_invariant owner
                (match tokens with VArray l => l | _ => [] end) w Hinv) as Hloop.
  by destruct (forOf _ (importToken isAddress owner) w) as [[[]|e] w1].
Qed.

(** Every state the registry reaches from empty maps is well typed and
    holds no two records of an owner with the same address. *)
Theorem reachable_invariant (w : World) :
  reachable isAddress w → registryInvariant w.
Proof.
  induction 1 as [w Hut Htm| | | | |now w _ IH].
  - unfold registryInvariant, registryTyped, registryUnique.
    rewrite Hut. split; apply map_Forall_empty.
  - by apply addUserToken_invariant.
  - by apply removeUserToken_invariant.
  - by apply updateTokenMetadata_invariant.
  - by apply importUserData_invariant.
  - exact IH.
Qed.

End ImportInvariant.

(** ** The scenario of the specification, and boundary cases *)

Example includes_usd :
  includes "usdx" "usd" = true ∧ includes "test" "usd" = false.
Proof. by split. Qed.

Example findIndex_found :
  findIndex (sameAddress tokenRenamed) [tokenUSD; tokenTST] = Ok 1 ∧
  findIndex (sameAddress tokenRenamed) [tokenUSD] = Ok (-1).
Proof. by split. Qed.

(** Adding the token of the scenario to an empty registry: one record, equal
    to the input, with [metadata] undefined. *)
Example scenario_add :
  getUserTokens ownerA (addUserToken ownerA tokenTST emptyWorld).2
  = Ok [<["metadata" := VUndefined]> tokenTST].
Proof. reflexivity. Qed.

(** Adding the same address again under another name: still one record, with
    the new name. *)
Example scenario_add_again :
  ∃ r, tokensOf (addUserToken ownerA tokenRenamed worldA).2 ownerA = [r] ∧
       r !! "name" = Some (VString "Renamed") ∧
       r !! "creator" = Some (VString ownerA).
Proof. eexists. by repeat split. Qed.

(** A record that only brings some fields leaves the others as they were. *)
Example merge_keeps_other_fields :
  ∃ r, tokensOf (addUserToken ownerA
                   (<["address" := VString addressB]>
                    (<["name" := VString "Renamed"]>
                     {[ "symbol" := VString "TST" ]})) worldA).2 ownerA = [r] ∧
       r !! "name" = Some (VString "Renamed") ∧
       r !! "initialSupply" = Some (VString "1000").
Proof. eexists. by repeat split. Qed.

(** C3. An invalid entry that is [null] is not skipped.  On the document
    [{"tokens": [tokenTST, null, tokenUSD]}], two valid records around a
    [null], [isValidToken] throws a [TypeError] on reading [null.address]; the
    loop stops there, [importUserData] reports [false], and of the two valid
    records only the one before the [null] has been added. *)
Theorem importUserData_null_entry :
  ∃ w', importUserData hexAddress ownerC (Denotes (VObject payloadWithNull))
          emptyWorld = (Ok false, w') ∧
        tokensOf w' ownerC = [tokenTST] ∧
        console w' = [("Error importing user data:", TypeError)].
Proof. eexists. by repeat split. Qed.

(** A text that is not JSON, or a document without a [tokens] array, is
    refused as a whole. *)
Example importUserData_malformed :
  importUserData hexAddress ownerC Malformed emptyWorld
  = (Ok false,
     set_console (λ _, [("Error importing user data:", SyntaxError)]) emptyWorld) ∧
  (importUserData hexAddress ownerC (Denotes (VObject ∅)) emptyWorld).1
  = Ok false.
Proof. by split. Qed.

Import TokenStorageRest ImportSpec MoreSamples.

Section Lookup.

Context {casing : CaseMapping}.

(** * Further properties of the code *)

(** ** Looking a token up *)

Lemma findR_typed (key : string) (l : list JsObject) :
  Forall (λ t, wellTyped t = true) l →
  findR (λ token : JsObject,
           a <~ callToLowerCase (prop token "address") ;;
           Ok (String.eqb a key)) l
  = Ok (head (filter (λ t, addressKey t = key) l)).
Proof.
  induction 1 as [|t l Ht Hl IH]; [done|].
  apply wellTyped_inv in Ht as (a & ? & ? & Ha & _).
  assert (addressKey t = toLowerCase a) as Hk
    by (unfold addressKey; by rewrite Ha).
  cbn [findR]. rewrite Ha, filter_cons, Hk. cbn [callToLowerCase Result_bind].
  destruct (String.eqb_spec (toLowerCase a) key) as [E|E].
  - by rewrite decide_True.
  - by rewrite decide_False.
Qed.

Lemma withMetadata_typed_list (w : World) (l : list JsObject) :
  Forall (λ t, wellTyped t = true) l →
  Forall (λ t, wellTyped t = true) (withMetadata w <$> l).
Proof.
  intros H. apply Forall_fmap. eapply Forall_impl; [exact H|].
  intros t. apply wellTyped_withMetadata.
Qed.

Lemma filter_key_withMetadata (w : World) (key : string) (l : list JsObject) :
  filter (λ t, addressKey t = key) (withMetadata w <$> l)
  = withMetadata w <$> filter (λ t, addressKey t = key) l.
Proof.
  induction l as [|t l IH]; [done|].
  rewrite fmap_cons, !filter_cons, addressKey_withMetadata.
  case_decide; by rewrite ?fmap_cons, IH.
Qed.

Lemma getToken_run_returned (owner tokenAddress : string) (w : World) :
  registryTyped w →
  getToken owner tokenAddress w =
    Ok (head (filter (λ t, addressKey t = toLowerCase tokenAddress)
                     (withMetadata w <$> tokensOf w owner))).
Proof.
  intros Hw. unfold getToken. rewrite (getUserTokens_run _ _ Hw).
  cbn [Result_bind].
  by rewrite findR_typed by (by apply withMetadata_typed_list, tokensOf_typed).
Qed.

Lemma getToken_run (owner tokenAddress : string) (w : World) :
  registryTyped w →
  getToken owner tokenAddress w =
    Ok (withMetadata w <$>
          head (filter (λ t, addressKey t = toLowerCase tokenAddress)
                       (tokensOf w owner))).
Proof.
  intros Hw. rewrite (getToken_run_returned _ _ _ Hw).
  rewrite filter_key_withMetadata. f_equal.
  by destruct (filter _ (tokensOf w owner)).
Qed.

(** X1. On a well-typed registry [getToken owner address] returns normally.
    What it returns is a record of [getUserTokens owner] whose address is
    [address] up to the case of the letters, and it returns [undefined]
    exactly when [getUserTokens owner] has no such record. *)
Theorem getToken_sound_complete (owner tokenAddress : string) (w : World) :
  registryTyped w →
  ∃ tokens found,
    getUserTokens owner w = Ok tokens ∧
    getToken owner tokenAddress w = Ok found ∧
    (∀ r, found = Some r →
          r ∈ tokens ∧ addressKey r = toLowerCase tokenAddress) ∧
    (found = None ↔
       ∀ r, r ∈ tokens → addressKey r ≠ toLowerCase tokenAddress).
Proof.
  intros Hw. eexists. eexists.
  split; [by apply getUserTokens_run|].
  split; [by apply getToken_run_returned|].
  set (tokens := withMetadata w <$> tokensOf w owner).
  split.
  - intros r Hr.
    assert (r ∈ filter (λ t, addressKey t = toLowerCase tokenAddress) tokens)
      as Hin.
    { destruct (filter _ tokens) as [|x xs]; [done|].
      injection Hr as ->. apply list_elem_of_here. }
    apply list_elem_of_filter in Hin. tauto.
  - split.
    + intros Hnone r Hr Hk.
      assert (r ∈ filter (λ t, addressKey t = toLowerCase tokenAddress) tokens)
        as Hin by (by apply list_elem_of_filter).
      destruct (filter _ tokens); [by apply elem_of_nil in Hin | done].
    + intros Hall.
      destruct (filter _ tokens) as [|x xs] eqn:F; [done|].
      assert (x ∈ filter (λ t, addressKey t = toLowerCase tokenAddress) tokens)
        as Hin by (rewrite F; apply list_elem_of_here).
      apply list_elem_of_filter in Hin as [Hk Hx]. by destruct (Hall x Hx).
Qed.

End Lookup.

Lemma getToken_sound_complete_witness :
  registryTyped worldA2 ∧
  ∃ found, getToken ownerA (toLowerCase addressD) worldA2 = Ok found ∧
           ∀ r, found = Some r → addressKey r = toLowerCase addressD.
Proof.
  assert (registryTyped worldA2) as Hw by by_evaluation.
  split; [exact Hw|].
  destruct (getToken_sound_complete ownerA (toLowerCase addressD) worldA2 Hw)
    as (tokens & found & _ & Hrun & Hsound & _).
  exists found. split; [exact Hrun|].
  intros r Hr. by destruct (Hsound r Hr) as [_ ->].
Defined.

Section LookupAfterAdd.

Context {casing : CaseMapping}.

(** The first record with the key of [token] after the insert-or-merge step
    carries every field of [token]. *)
Lemma head_filter_upsert (token : JsObject) (l : list JsObject) :
  wellTyped token = true →
  ∃ r, head (filter (λ t, addressKey t = addressKey token) (upsert token l))
         = Some r ∧
       (r = token ∨ ∃ old, old ∈ l ∧ r = token ∪ old).
Proof.
  intros Htok. induction l as [|t l IH]; cbn [upsert].
  - exists token. rewrite filter_cons, decide_True by done. split; [done | by left].
  - destruct (decide (addressKey t = addressKey token)) as [E|E].
    + exists (token ∪ t).
      rewrite filter_cons, decide_True by (by apply addressKey_union).
      split; [done|]. right. exists t. split; [apply list_elem_of_here | done].
    + destruct IH as (r & Hr & Hor). exists r.
      rewrite filter_cons, decide_False by done. split; [done|].
      destruct Hor as [->|(old & Hold & ->)]; [by left|].
      right. exists old. split; [by apply list_elem_of_further | done].
Qed.

(** X2. After [addUserToken owner token] on a well-typed registry,
    [getToken owner] with the address of [token], in any case of the
    letters, finds a record, and every field of [token] other than
    [metadata] can be read from it with the value [token] gave it. *)
Theorem getToken_after_add (owner address address' : string) (token : JsObject)
    (w : World) :
  registryTyped w → wellTyped token = true →
  token !! "address" = Some (VString address) →
  toLowerCase address' = toLowerCase address →
  ∃ r, getToken owner address' (addUserToken owner token w).2 = Ok (Some r) ∧
       ∀ k v, k ≠ "metadata" → token !! k = Some v → r !! k = Some v.
Proof.
  intros Hw Htok Haddr Hcase.
  pose proof (addUserToken_typed owner token w Hw Htok) as Hw'.
  destruct (addUserToken_userTokens owner token w Hw Htok) as (Hut & _).
  rewrite (getToken_run _ _ _ Hw'), (tokensOf_insert _ _ _ _ Hut).
  assert (addressKey token = toLowerCase address') as Hk.
  { unfold addressKey, prop. by rewrite Haddr, Hcase. }
  rewrite <- Hk.
  destruct (head_filter_upsert token (tokensOf w owner) Htok) as (r & -> & Hor).
  eexists. split; [reflexivity|]. intros k v Hne Hv.
  unfold withMetadata. rewrite lookup_insert_ne by done.
  destruct Hor as [->|(old & _ & ->)]; [done|].
  by apply lookup_union_Some_l.
Qed.

End LookupAfterAdd.

Lemma getToken_after_add_witness :
  registryTyped worldA ∧ wellTyped tokenRenamed = true ∧
  ∃ r, getToken ownerA addressB (addUserToken ownerA tokenRenamed worldA).2
         = Ok (Some r) ∧
       r !! "name" = Some (VString "Renamed").
Proof.
  assert (registryTyped worldA) as Hw by by_evaluation.
  assert (wellTyped tokenRenamed = true) as Ht by reflexivity.
  split; [exact Hw|]. split; [exact Ht|].
  destruct (getToken_after_add ownerA (toLowerCase addressB) addressB
              tokenRenamed worldA Hw Ht)
    as (r & Hrun & Hfields); [reflexivity | reflexivity |].
  exists r. split; [exact Hrun|]. apply Hfields; [discriminate | reflexivity].
Defined.

Section LookupAfterRemove.

Context {casing : CaseMapping}.

(** X3. After [removeUserToken owner address] on a well-typed registry,
    [getToken owner] with that address, in any case of the letters, returns
    [undefined]. *)
Theorem getToken_after_remove (owner address address' : string) (w : World) :
  registryTyped w → toLowerCase address' = toLowerCase address →
  getToken owner address' (removeUserToken owner address w).2 = Ok None.
Proof.
  intros Hw Hcase.
  destruct (removeUserToken_maps owner address w Hw) as (Hut & _).
  assert (registryTyped (removeUserToken owner address w).2) as Hw'.
  { unfold registryTyped. rewrite Hut. apply map_Forall_insert_2; [|done].
    apply Forall_forall. intros x [_ Hx]%list_elem_of_filter. revert x Hx.
    apply Forall_forall, tokensOf_typed, Hw. }
  rewrite (getToken_run _ _ _ Hw'), (tokensOf_insert _ _ _ _ Hut), Hcase.
  rewrite list_filter_filter.
  assert (∀ l : list JsObject,
            filter (λ t, addressKey t = toLowerCase address
                         ∧ addressKey t ≠ toLowerCase address) l = []) as ->;
    [|done].
  clear. induction l as [|t l IH]; [done|].
  rewrite filter_cons, decide_False by tauto. exact IH.
Qed.

End LookupAfterRemove.

Lemma getToken_after_remove_witness :
  registryTyped worldA2 ∧
  getToken ownerA addressB (removeUserToken ownerA (toLowerCase addressB) worldA2).2
    = Ok None.
Proof.
  assert (registryTyped worldA2) as Hw by by_evaluation.
  split; [exact Hw|].
  apply (getToken_after_remove ownerA (toLowerCase addressB) addressB worldA2 Hw).
  reflexivity.
Defined.

Section ByNetwork.

Context {casing : CaseMapping}.

(** ** Tokens of one network, tokens of all owners *)

Lemma filterR_total {A} (f : A → bool) (l : list A) :
  filterR (λ x, Ok (f x)) l = Ok (filter (λ x, f x = true) l).
Proof.
  induction l as [|x l IH]; [done|].
  cbn [filterR Result_bind]. rewrite IH, filter_cons. cbn [Result_bind].
  destruct (f x); [by rewrite decide_True | by rewrite decide_False].
Qed.

Lemma strictEqualsNumber_spec (v : JsValue) (n : Z) :
  strictEqualsNumber v n = true ↔ v = VNumber n.
Proof.
  destruct v; simpl; try (split; [discriminate | discriminate]).
  rewrite bool_decide_eq_true. split; [by intros -> | by intros [= ->]].
Qed.

(** X4. On a well-typed registry [getTokensByNetwork owner chainId] returns,
    in their order, exactly the records of [getUserTokens owner] whose
    [chainId] is the number [chainId]; a record without [chainId], or with a
    [chainId] that is not a number, is never returned. *)
Theorem getTokensByNetwork_exact (owner : string) (chainId : Z) (w : World) :
  registryTyped w →
  ∃ tokens result,
    getUserTokens owner w = Ok tokens ∧
    getTokensByNetwork owner chainId w = Ok result ∧
    result `sublist_of` tokens ∧
    (∀ r, r ∈ result ↔ r ∈ tokens ∧ r !! "chainId" = Some (VNumber chainId)).
Proof.
  intros Hw. eexists. eexists. split; [by apply getUserTokens_run|].
  unfold getTokensByNetwork. rewrite (getUserTokens_run _ _ Hw).
  cbn [Result_bind]. rewrite filterR_total.
  split; [reflexivity|]. split; [apply sublist_filter|].
  intros r. rewrite list_elem_of_filter, strictEqualsNumber_spec.
  unfold prop. split.
  - intros [Hc Hr]. split; [done|].
    by destruct (r !! "chainId") as [v|]; simpl in Hc; [subst v | discriminate].
  - intros [Hr ->]. done.
Qed.

End ByNetwork.

Lemma getTokensByNetwork_exact_witness :
  registryTyped worldA2 ∧
  ∃ result, getTokensByNetwork ownerA 1 worldA2 = Ok result ∧
            ∀ r, r ∈ result → r !! "chainId" = Some (VNumber 1).
Proof.
  assert (registryTyped worldA2) as Hw by by_evaluation.
  split; [exact Hw|].
  destruct (getTokensByNetwork_exact ownerA 1 worldA2 Hw)
    as (tokens & result & _ & Hrun & _ & Hiff).
  exists result. split; [exact Hrun|].
  intros r Hr. by apply Hiff in Hr as [_ ?].
Defined.

Section AllTokens.

Context {casing : CaseMapping}.

Lemma mapR_lists (w : World) (entries : list (string * list JsObject)) :
  Forall (λ entry : string * list JsObject,
            Forall (λ t, wellTyped t = true) entry.2) entries →
  mapR (λ entry : string * list JsObject,
          mapR (λ token : JsObject,
                  a <~ callToLowerCase (prop token "address") ;;
                  Ok (<["metadata" := metadataOf w a]> token))
               entry.2) entries
  = Ok ((λ entry : string * list JsObject, withMetadata w <$> entry.2) <$> entries).
Proof.
  induction 1 as [|entry entries He Hes IH]; [done|].
  cbn [mapR]. by rewrite (mapR_typed _ _ He), IH.
Qed.

Lemma getAllTokens_run (w : World) :
  registryTyped w →
  getAllTokens w =
    Ok (concat ((λ entry : string * list JsObject, withMetadata w <$> entry.2)
                  <$> map_to_list (userTokens w))).
Proof.
  intros Hw. unfold getAllTokens. rewrite mapR_lists; [done|].
  apply Forall_forall. intros [owner l] Hin.
  apply elem_of_map_to_list in Hin. exact (map_Forall_lookup_1 _ _ _ _ Hw Hin).
Qed.

Lemma elem_of_concat {A} (x : A) (ls : list (list A)) :
  x ∈ concat ls ↔ ∃ l, x ∈ l ∧ l ∈ ls.
Proof.
  induction ls as [|l ls IH]; simpl.
  - split; [by intros ?%elem_of_nil | by intros (? & _ & ?%elem_of_nil)].
  - rewrite elem_of_app, IH. split.
    + intros [H|(l' & Hx & Hl')].
      * exists l. split; [done | apply list_elem_of_here].
      * exists l'. split; [done | by apply list_elem_of_further].
    + intros (l' & Hx & [->|Hl']%elem_of_cons); [by left | right; eauto].
Qed.

(** X5. On a well-typed registry [getAllTokens] returns normally, and a record
    is in its result exactly when some owner of the map holds it, in the form
    [getUserTokens] gives it; the number of records is the sum of the lengths
    of the owners' lists. *)
Theorem getAllTokens_members (w : World) :
  registryTyped w →
  ∃ all, getAllTokens w = Ok all ∧
    (∀ r, r ∈ all ↔
          ∃ owner l t, userTokens w !! owner = Some l ∧ t ∈ l ∧
                       r = withMetadata w t) ∧
    length all =
      list_sum ((λ entry : string * list JsObject, length entry.2)
                  <$> map_to_list (userTokens w)).
Proof.
  intros Hw. eexists. split; [by apply getAllTokens_run|]. split.
  - intros r. rewrite elem_of_concat. split.
    + intros (rs & Hr & (entry & -> & Hentry)%list_elem_of_fmap).
      destruct entry as [owner l]. apply elem_of_map_to_list in Hentry.
      apply list_elem_of_fmap in Hr as (t & -> & Ht). by exists owner, l, t.
    + intros (owner & l & t & Hl & Ht & ->).
      exists (withMetadata w <$> l). split; [by apply list_elem_of_fmap_2|].
      apply list_elem_of_fmap. exists (owner, l).
      split; [done | by apply elem_of_map_to_list].
  - rewrite length_concat. f_equal.
    rewrite <- list_fmap_compose. apply list_fmap_ext.
    intros i entry _. simpl. apply length_fmap.
Qed.

End AllTokens.

Lemma getAllTokens_members_witness :
  registryTyped worldA2 ∧
  ∃ all, getAllTokens worldA2 = Ok all ∧ length all = 2%nat.
Proof.
  assert (registryTyped worldA2) as Hw by by_evaluation.
  split; [exact Hw|].
  destruct (getAllTokens_members worldA2 Hw) as (all & Hrun & _ & Hlen).
  exists all. split; [exact Hrun|]. rewrite Hlen. vm_compute. reflexivity.
Defined.

Section OtherOwners.

Context {casing : CaseMapping}.

(** ** Owners are kept apart, metadata is shared *)

(** X6. [addUserToken owner token] on a well-typed registry leaves the result
    of [getUserTokens] as it was for every owner whose address differs from
    [owner] beyond the case of the letters, leaves all metadata as it was,
    and two addresses that differ only in case name the same owner. *)
Theorem addUserToken_other_owners (owner other : string) (token : JsObject)
    (w : World) :
  registryTyped w → wellTyped token = true →
  let w' := (addUserToken owner token w).2 in
  tokenMetadata w' = tokenMetadata w ∧
  (toLowerCase other ≠ toLowerCase owner →
     getUserTokens other w' = getUserTokens other w) ∧
  (toLowerCase other = toLowerCase owner →
     getUserTokens other w' = getUserTokens owner w').
Proof.
  intros Hw Htok w'.
  destruct (addUserToken_userTokens owner token w Hw Htok) as (Hut & Htm & _).
  split; [exact Htm|]. split.
  - intros Hne. apply getUserTokens_same; [|exact Htm].
    by apply (tokensOf_insert_ne _ _ _ _ _ Hut).
  - intros Heq. unfold getUserTokens. by rewrite Heq.
Qed.

End OtherOwners.

Lemma addUserToken_other_owners_witness :
  registryTyped worldA2 ∧ wellTyped tokenTST = true ∧
  getUserTokens ownerA (addUserToken ownerC tokenTST worldA2).2
    = getUserTokens ownerA worldA2.
Proof.
  assert (registryTyped worldA2) as Hw by by_evaluation.
  assert (wellTyped tokenTST = true) as Ht by reflexivity.
  split; [exact Hw|]. split; [exact Ht|].
  destruct (addUserToken_other_owners ownerC ownerA tokenTST worldA2 Hw Ht)
    as (_ & Hother & _).
  apply Hother. discriminate.
Defined.

Section MetadataEveryOwner.

Context {casing : CaseMapping}.

(** X7. Metadata belongs to the token address, not to an owner: after
    [updateTokenMetadata address partial] on a well-typed registry, every
    owner's [getUserTokens] shows the new entry on each record whose address
    is [address] up to the case of the letters, and shows every other record
    as before. *)
Theorem updateTokenMetadata_every_owner (tokenAddress : string)
    (partial : JsObject) (owner : string) (w : World) :
  registryTyped w →
  let w' := (updateTokenMetadata tokenAddress partial w).2 in
  ∃ entry tokens,
    tokenMetadata w' !! toLowerCase tokenAddress = Some entry ∧
    getUserTokens owner w' = Ok tokens ∧
    tokens =
      (λ t, if decide (addressKey t = toLowerCase tokenAddress)
            then <["metadata" := VObject entry]> t
            else withMetadata w t) <$> tokensOf w owner.
Proof.
  intros Hw w'.
  destruct (updateTokenMetadata_maps tokenAddress partial w) as (Hut & Htm & _).
  fold w' in Hut, Htm.
  assert (registryTyped w') as Hw' by (unfold registryTyped; by rewrite Hut).
  eexists. eexists. split; [by rewrite Htm, lookup_insert_eq|].
  split; [by apply getUserTokens_run|].
  unfold tokensOf. rewrite Hut. apply list_fmap_ext. intros i t _.
  unfold withMetadata, metadataOf. rewrite Htm. case_decide as E.
  - by rewrite E, lookup_insert_eq.
  - by rewrite lookup_insert_ne.
Qed.

End MetadataEveryOwner.

Lemma updateTokenMetadata_every_owner_witness :
  registryTyped worldA2 ∧
  ∃ entry tokens,
    tokenMetadata (updateTokenMetadata addressD ∅ worldA2).2
      !! toLowerCase addressD = Some entry ∧
    getUserTokens ownerA (updateTokenMetadata addressD ∅ worldA2).2 = Ok tokens ∧
    tokens = [withMetadata worldA2 tokenTST;
              <["metadata" := VObject entry]> tokenUSD].
Proof.
  assert (registryTyped worldA2) as Hw by by_evaluation.
  split; [exact Hw|].
  destruct (updateTokenMetadata_every_owner addressD ∅ ownerA worldA2 Hw)
    as (entry & tokens & Hentry & Hrun & Heq).
  exists entry, tokens. split; [exact Hentry|]. split; [exact Hrun|].
  rewrite Heq. reflexivity.
Defined.

Section AddRemove.

Context {casing : CaseMapping}.

(** ** Removal and addition together *)

Lemma removeUserToken_typed (owner tokenAddress : string) (w : World) :
  registryTyped w → registryTyped (removeUserToken owner tokenAddress w).2.
Proof.
  intros Hw. destruct (removeUserToken_maps owner tokenAddress w Hw) as (Hut & _).
  unfold registryTyped. rewrite Hut. apply map_Forall_insert_2; [|done].
  apply Forall_forall. intros x [_ Hx]%list_elem_of_filter. revert x Hx.
  apply Forall_forall, tokensOf_typed, Hw.
Qed.

Lemma filter_upsert_key (token : JsObject) (l : list JsObject) :
  wellTyped token = true →
  filter (λ t, addressKey t ≠ addressKey token) (upsert token l)
  = filter (λ t, addressKey t ≠ addressKey token) l.
Proof.
  intros Htok. induction l as [|t l IH]; cbn [upsert].
  - by rewrite filter_cons, decide_False by (by intros []).
  - destruct (decide (addressKey t = addressKey token)) as [E|E].
    + rewrite !filter_cons.
      rewrite decide_False by (rewrite addressKey_union by done; by intros []).
      by rewrite decide_False by (by intros []).
    + by rewrite !filter_cons, IH.
Qed.

Lemma upsert_filter_key (token : JsObject) (l : list JsObject) :
  upsert token (filter (λ t, addressKey t ≠ addressKey token) l)
  = filter (λ t, addressKey t ≠ addressKey token) l ++ [token].
Proof.
  apply upsert_absent. by intros old [? _]%list_elem_of_filter.
Qed.

(** X8. On a well-typed registry, for a token with address [address]:
    removing the address after adding the token leaves the owner's list as
    removing alone does, and adding the token after removing its address
    leaves the other records in their order followed by the token exactly as
    given, with no field of the removed record. *)
Theorem add_remove_compose (owner address : string) (token : JsObject)
    (w : World) :
  registryTyped w → wellTyped token = true →
  token !! "address" = Some (VString address) →
  tokensOf (removeUserToken owner address (addUserToken owner token w).2).2 owner
    = tokensOf (removeUserToken owner address w).2 owner ∧
  tokensOf (addUserToken owner token (removeUserToken owner address w).2).2 owner
    = filter (λ t, addressKey t ≠ toLowerCase address) (tokensOf w owner)
      ++ [token].
Proof.
  intros Hw Htok Haddr.
  assert (addressKey token = toLowerCase address) as Hk
    by (unfold addressKey, prop; by rewrite Haddr).
  pose proof (addUserToken_typed owner token w Hw Htok) as Hw1.
  pose proof (removeUserToken_typed owner address w Hw) as Hw2.
  destruct (addUserToken_userTokens owner token w Hw Htok) as (Hut1 & _).
  destruct (removeUserToken_maps owner address w Hw) as (Hut2 & _).
  destruct (removeUserToken_maps owner address _ Hw1) as (Hut3 & _).
  destruct (addUserToken_userTokens owner token _ Hw2 Htok) as (Hut4 & _).
  rewrite (tokensOf_insert _ _ _ _ Hut3), (tokensOf_insert _ _ _ _ Hut2),
    (tokensOf_insert _ _ _ _ Hut4), (tokensOf_insert _ _ _ _ Hut1),
    (tokensOf_insert _ _ _ _ Hut2), <- Hk.
  split; [by apply filter_upsert_key | apply upsert_filter_key].
Qed.

End AddRemove.

Lemma add_remove_compose_witness :
  registryTyped worldA ∧ wellTyped tokenRenamed = true ∧
  tokensOf (addUserToken ownerA tokenRenamed
              (removeUserToken ownerA (toLowerCase addressB) worldA).2).2 ownerA
    = [tokenRenamed].
Proof.
  assert (registryTyped worldA) as Hw by by_evaluation.
  assert (wellTyped tokenRenamed = true) as Ht by reflexivity.
  split; [exact Hw|]. split; [exact Ht|].
  destruct (add_remove_compose ownerA (toLowerCase addressB) tokenRenamed worldA
              Hw Ht) as (_ & ->); reflexivity.
Defined.

Section RemovalKeeps.

Context {casing : CaseMapping}.

(** X9. [removeUserToken owner address] on a well-typed registry keeps, in
    their order, exactly the records of the owner with another address; when
    addresses are pairwise distinct it takes away one record if the address
    was there and none otherwise. *)
Theorem removeUserToken_keeps_others (owner address : string) (w : World) :
  registryTyped w →
  let before := tokensOf w owner in
  let after := tokensOf (removeUserToken owner address w).2 owner in
  after = filter (λ t, addressKey t ≠ toLowerCase address) before ∧
  (∀ t, t ∈ after ↔ t ∈ before ∧ addressKey t ≠ toLowerCase address) ∧
  (NoDup (addressKey <$> before) →
     length before =
       (length after +
        if decide (toLowerCase address ∈ addressKey <$> before) then 1 else 0)%nat).
Proof.
  intros Hw before after.
  destruct (removeUserToken_maps owner address w Hw) as (Hut & _).
  assert (after = filter (λ t, addressKey t ≠ toLowerCase address) before)
    as Hafter by (by apply (tokensOf_insert _ _ _ _ Hut)).
  split; [exact Hafter|]. split.
  - intros t. rewrite Hafter, list_elem_of_filter. tauto.
  - intros Hnd. rewrite Hafter.
    assert (∀ l : list JsObject,
              length l =
                (length (filter (λ t, addressKey t ≠ toLowerCase address) l) +
                 length (filter (λ t, addressKey t = toLowerCase address) l))%nat)
      as Hsplit.
    { clear. induction l as [|t l IH]; [done|].
      rewrite !filter_cons.
      destruct (decide (addressKey t = toLowerCase address)) as [E|E].
      - rewrite decide_False by (by intros []). simpl. lia.
      - rewrite decide_True by done. simpl. lia. }
    rewrite (Hsplit before) at 1. f_equal. case_decide as Hin.
    + by apply (count_key_present (toLowerCase address) before).
    + apply length_zero_iff_nil.
      destruct (filter (λ t, addressKey t = toLowerCase address) before)
        as [|x xs] eqn:F; [done|]. exfalso.
      assert (x ∈ filter (λ t, addressKey t = toLowerCase address) before)
        as Hx by (rewrite F; apply list_elem_of_here).
      apply list_elem_of_filter in Hx as [Hk Hx]. apply Hin. rewrite <- Hk.
      by apply list_elem_of_fmap_2.
Qed.

End RemovalKeeps.

Lemma removeUserToken_keeps_others_witness :
  registryTyped worldA2 ∧
  tokensOf (removeUserToken ownerA addressB worldA2).2 ownerA = [tokenUSD].
Proof.
  assert (registryTyped worldA2) as Hw by by_evaluation.
  split; [exact Hw|].
  destruct (removeUserToken_keeps_others ownerA addressB worldA2 Hw)
    as (-> & _). reflexivity.
Defined.

Section Narrowing.

Context {casing : CaseMapping}.

(** ** Narrowing a search *)

Lemma string_app_assoc (a b c : string) : (a +:+ b) +:+ c = a +:+ (b +:+ c).
Proof.
  induction a as [|x a IH]; [done|].
  change (String x ((a +:+ b) +:+ c) = String x (a +:+ (b +:+ c))).
  by f_equal.
Qed.

Lemma includes_trans (s q r : string) :
  includes s q = true → includes q r = true → includes s r = true.
Proof.
  rewrite !includes_spec.
  intros (a & b & ->) (c & d & ->).
  exists (a +:+ c), (d +:+ b). by rewrite !string_app_assoc.
Qed.

Lemma searchHit_narrow (q q' : string) (t : JsObject) :
  includes (toLowerCase q') (toLowerCase q) = true →
  searchHit q' t = true → searchHit q t = true.
Proof.
  intros Hq. unfold searchHit. rewrite !orb_true_iff.
  intros [[H|H]|H]; [left; left | left; right | right];
    by eapply includes_trans.
Qed.

(** X10. Extending the query never adds results: when [q'] in lower case
    contains [q] in lower case, on a well-typed registry every record
    [searchTokens owner q'] returns is returned by [searchTokens owner q]
    too, in the same relative order.  Nothing is assumed of [toLowerCase]. *)
Theorem searchTokens_narrowing (owner q q' : string) (w : World) :
  registryTyped w → containsCI q' q →
  ∃ wide narrow,
    searchTokens owner q w = Ok wide ∧
    searchTokens owner q' w = Ok narrow ∧
    narrow `sublist_of` wide.
Proof.
  intros Hw Hq%includes_lower_spec. eexists. eexists.
  split; [by apply searchTokens_run|]. split; [by apply searchTokens_run|].
  rewrite <- (list_filter_filter_l (λ t, searchHit q' t = true)
                (λ t, searchHit q t = true)).
  - apply sublist_filter.
  - intros t. by apply searchHit_narrow.
Qed.

End Narrowing.

Lemma searchTokens_narrowing_witness :
  registryTyped worldA2 ∧ containsCI "USDx" "usd" ∧
  ∃ wide narrow,
    searchTokens ownerA "usd" worldA2 = Ok wide ∧
    searchTokens ownerA "USDx" worldA2 = Ok narrow ∧
    narrow `sublist_of` wide.
Proof.
  assert (registryTyped worldA2) as Hw by by_evaluation.
  assert (containsCI "USDx" "usd") as Hq
    by (exists "", "x"; reflexivity).
  split; [exact Hw|]. split; [exact Hq|].
  exact (searchTokens_narrowing ownerA "usd" "USDx" worldA2 Hw Hq).
Defined.

Section UpsertSelf.

Context {casing : CaseMapping}.

(** ** Importing again *)

Lemma upsert_middle (token t : JsObject) (pre l : list JsObject) :
  NoDup (addressKey <$> (pre ++ t :: l)) → addressKey t = addressKey token →
  upsert token (pre ++ t :: l) = pre ++ (token ∪ t) :: l.
Proof.
  induction pre as [|p pre IH]; intros Hnd Hk; simpl.
  - by rewrite decide_True.
  - change (NoDup (addressKey <$> (p :: (pre ++ t :: l)))) in Hnd.
    rewrite fmap_cons in Hnd. apply NoDup_cons in Hnd as [Hnotin Hnd].
    rewrite decide_False; [by rewrite IH|].
    intros E. apply Hnotin. rewrite E, <- Hk, fmap_app, fmap_cons.
    apply elem_of_app. right. apply list_elem_of_here.
Qed.

(** Records that come back with the key they had are merged each into its
    own place. *)
Lemma foldl_upsert_self (g : JsObject → JsObject) (pre l : list JsObject) :
  (∀ t, t ∈ l → wellTyped (g t) = true ∧ addressKey (g t) = addressKey t) →
  NoDup (addressKey <$> (pre ++ l)) →
  foldl (λ l' o, upsert o l') (pre ++ l) (g <$> l)
  = pre ++ ((λ t, g t ∪ t) <$> l).
Proof.
  revert pre. induction l as [|t l IH]; intros pre Hg Hnd; [done|].
  destruct (Hg t (list_elem_of_here _ _)) as [Hty Hk].
  rewrite !fmap_cons. cbn [foldl].
  rewrite (upsert_middle _ _ _ _ Hnd) by done.
  rewrite (cons_middle (g t ∪ t)), app_assoc. rewrite IH.
  - by rewrite <- app_assoc.
  - intros u Hu. by apply Hg, list_elem_of_further.
  - rewrite <- app_assoc. cbn [app].
    rewrite fmap_app, fmap_cons, (addressKey_union _ _ Hty), Hk.
    by rewrite fmap_app, fmap_cons in Hnd.
Qed.

End UpsertSelf.

Section ImportAgain.

Context {casing : CaseMapping}.

Context (isAddress : JsValue → bool) (toISOString : Z → string).

(** X11. Let the registry be well typed with pairwise distinct addresses and
    let every record of [owner] pass [isValidToken] and be JSON data.  Then
    importing the document [exportUserData owner] produces back into the same
    owner returns [true] and leaves [getUserTokens owner] as it was. *)
Theorem import_own_export (owner : string) (w : World) :
  registryTyped w → registryUnique w →
  Forall (λ t, validRecord isAddress t = true ∧ jsonData (VObject t))
         (tokensOf w owner) →
  ∃ doc w',
    exportUserData toISOString owner w = Ok doc ∧
    importUserData isAddress owner doc w = (Ok true, w') ∧
    getUserTokens owner w' = getUserTokens owner w.
Proof.
  intros Hw Hu Hvalid.
  set (l := tokensOf w owner) in *.
  set (elems := (λ t, VObject (jsonObject t)) <$> (withMetadata w <$> l)).
  assert (Forall (λ v, isNullish v = false) elems) as Hel.
  { unfold elems. rewrite <- list_fmap_compose. apply Forall_fmap.
    by apply Forall_true. }
  pose proof (validRecords_exported isAddress w l Hvalid) as Hrecs.
  fold elems in Hrecs.
  eexists. eexists. split.
  { unfold exportUserData. rewrite (getUserTokens_run _ _ Hw). fold l.
    cbn [Result_bind]. unfold JSON_stringify. rewrite toJSON_object.
    reflexivity. }
  split.
  { apply (importUserData_run isAddress owner _ elems w Hw); [|exact Hel].
    rewrite jsonObject_lookup, lookup_insert_ne by done.
    rewrite lookup_insert_eq. cbn [mbind option_bind jsonProperty].
    by rewrite toJSON_records. }
  set (w' := foldl _ w _).
  pose proof (validRecords_typed isAddress elems) as Hty.
  destruct (foldl_addUserToken_maps owner _ w Hw Hty) as (Hl & _ & Htm & _).
  fold w' in Hl, Htm. fold l in Hl.
  assert (∀ t, t ∈ l → jsonData (VObject t)) as Hjson.
  { intros t Ht. exact (proj2 (proj1 (Forall_forall _ _) Hvalid t Ht)). }
  assert (∀ t, t ∈ l →
            wellTyped (jsonObject (withMetadata w t)) = true ∧
            addressKey (jsonObject (withMetadata w t)) = addressKey t) as Hg.
  { intros t Ht. split; [|by apply addressKey_jsonObject, Hjson].
    apply (validRecord_wellTyped isAddress).
    rewrite validRecord_jsonObject by (by apply Hjson).
    exact (proj1 (proj1 (Forall_forall _ _) Hvalid t Ht)). }
  rewrite Hrecs in Hl.
  pose proof (foldl_upsert_self (λ t, jsonObject (withMetadata w t)) [] l Hg
                (tokensOf_NoDup w owner Hu)) as Hself.
  cbn [app] in Hself. rewrite Hself in Hl.
  rewrite (getUserTokens_run _ _ Hw).
  rewrite getUserTokens_run by (by apply foldl_addUserToken_typed).
  rewrite Hl, <- list_fmap_compose. f_equal. fold l.
  apply list_fmap_ext. intros i t Ht%list_elem_of_lookup_2. simpl.
  destruct (Hg t Ht) as [Hty' Hk']. pose proof (Hjson t Ht) as Hj.
  apply map_eq. intros k. unfold withMetadata at 1 3.
  destruct (decide (k = "metadata")) as [->|Hk].
  - rewrite !lookup_insert_eq, (addressKey_union _ _ Hty'), Hk'.
    unfold metadataOf. by rewrite Htm.
  - rewrite !lookup_insert_ne by done.
    rewrite lookup_union, (jsonObject_withMetadata _ _ _ Hj Hk).
    by destruct (t !! k).
Qed.

(** Running records twice gives what running them once gives, as soon as two
    records of the run with the same address have the same fields. *)
Lemma foldl_upsert_overwritten_same (ts : list JsObject) (t : JsObject)
    (m : list JsObject) :
  Forall (λ u, wellTyped u = true) ts → wellTyped t = true →
  (∀ u, u ∈ ts → addressKey u = addressKey t → dom t ⊆ dom u) →
  addressKey t ∈ addressKey <$> ts → addressKey t ∈ addressKey <$> m →
  foldl (λ l' o, upsert o l') (upsert t m) ts = foldl (λ l' o, upsert o l') m ts.
Proof.
  intros Hts Ht. revert m.
  induction Hts as [|u ts Hu Hts IH]; intros m Hd Hin Hm.
  - by apply elem_of_nil in Hin.
  - cbn [foldl]. destruct (decide (addressKey t = addressKey u)) as [E|E].
    + rewrite upsert_absorb; [done | done | done |].
      apply Hd; [apply list_elem_of_here | done].
    + rewrite <- (upsert_comm t u) by done.
      apply IH; [| |by apply upsert_keeps_key].
      * intros u' Hu'. by apply Hd, list_elem_of_further.
      * rewrite fmap_cons in Hin.
        apply elem_of_cons in Hin as [Hin|Hin]; [congruence | done].
Qed.

Lemma foldl_upsert_idem_same (ts : list JsObject) (l : list JsObject) :
  Forall (λ u, wellTyped u = true) ts →
  (∀ i j t u, ts !! i = Some t → ts !! j = Some u → (i < j)%nat →
              addressKey u = addressKey t → dom t ⊆ dom u) →
  foldl (λ l' o, upsert o l') (foldl (λ l' o, upsert o l') l ts) ts
  = foldl (λ l' o, upsert o l') l ts.
Proof.
  intros Hts. revert l. induction Hts as [|t ts Ht Hts IH]; intros l Hd; [done|].
  cbn [foldl]. set (m := foldl _ (upsert t l) ts).
  assert (addressKey t ∈ addressKey <$> m) as Hm
    by (apply foldl_upsert_keeps_key; [done | by apply upsert_key_present]).
  assert (∀ i j t0 u, ts !! i = Some t0 → ts !! j = Some u → (i < j)%nat →
            addressKey u = addressKey t0 → dom t0 ⊆ dom u) as Hd'.
  { intros i j t0 u Hi Hj Hlt. apply (Hd (S i) (S j)); [done | done | lia]. }
  destruct (decide (addressKey t ∈ addressKey <$> ts)) as [Hin|Hnot].
  - rewrite foldl_upsert_overwritten_same; [by apply IH | done | done | | done | done].
    intros u (j & Hj)%list_elem_of_lookup_1.
    apply (Hd 0%nat (S j)); [done | done | lia].
  - unfold m at 1. rewrite foldl_upsert_kept; [by apply IH | done | done | done |].
    by apply upsert_idem.
Qed.

(** The loop of [importUserData] on any array: it gets through the elements
    before the first [null], and throws there when there is one. *)
Lemma forOf_importToken_any (owner : string) (elems : list JsValue) (w : World) :
  registryTyped w →
  forOf elems (importToken isAddress owner) w =
    (if forallb (λ v, negb (isNullish v)) elems then Ok tt else Throw TypeError,
     foldl (λ w' o, (addUserToken owner o w').2) w
           (validRecords isAddress (beforeNull elems))).
Proof.
  revert w. induction elems as [|v elems IH]; intros w Hw; [done|].
  cbn [forOf forallb beforeNull]. unfold bind.
  destruct (isNullish v) eqn:Hv.
  - by destruct v.
  - rewrite (importToken_run _ _ _ _ Hw Hv).
    rewrite (validRecords_cons _ v (beforeNull elems)), foldl_app.
    cbn [negb andb]. apply IH.
    apply foldl_addUserToken_typed; [done | apply validRecords_typed].
Qed.

(** A run of [importUserData] on any text: whether it reports success depends
    on the text alone, and the maps it leaves are those [addUserToken] leaves
    on the records read. *)
Lemma importUserData_run_any (owner : string) (data : JsonText) :
  ∃ r, ∀ w, registryTyped w →
    ∃ w', importUserData isAddress owner data w = (Ok r, w') ∧
      userTokens w' =
        userTokens (foldl (λ w1 o, (addUserToken owner o w1).2) w
                          (recordsRead isAddress data)) ∧
      tokenMetadata w' =
        tokenMetadata (foldl (λ w1 o, (addUserToken owner o w1).2) w
                             (recordsRead isAddress data)).
Proof.
  assert (Hrefused : ∀ r w w',
            importUserData isAddress owner data w = (Ok r, w') →
            userTokens w' = userTokens w → tokenMetadata w' = tokenMetadata w →
            recordsRead isAddress data = [] →
            ∃ w', importUserData isAddress owner data w = (Ok r, w') ∧
              userTokens w' =
                userTokens (foldl (λ w1 o, (addUserToken owner o w1).2) w
                                  (recordsRead isAddress data)) ∧
              tokenMetadata w' =
                tokenMetadata (foldl (λ w1 o, (addUserToken owner o w1).2) w
                                     (recordsRead isAddress data))).
  { intros r w w' Hrun Hu Hm ->. by exists w'. }
  destruct data as [|v].
  { exists false. intros w _. by eapply Hrefused. }
  destruct v as [| | | | | |doc];
    try (exists false; intros w _; by eapply Hrefused).
  destruct (doc !! "tokens") as [tokens|] eqn:Hdoc.
  2:{ exists false. intros w _. eapply Hrefused.
      - unfold importUserData, tryCatch, bind, lift. simpl.
        unfold prop. rewrite Hdoc. simpl. reflexivity.
      - reflexivity.
      - reflexivity.
      - unfold recordsRead, tokensArray. by rewrite Hdoc. }
  assert (Hthrown : ∀ w,
            negb (truthy tokens) || negb (isArray tokens) = true →
            ∃ w', importUserData isAddress owner (Denotes (VObject doc)) w
                  = (Ok false, w') ∧
                  userTokens w' = userTokens w ∧
                  tokenMetadata w' = tokenMetadata w).
  { intros w Hbad. unfold importUserData, tryCatch, bind, lift. simpl.
    unfold prop. rewrite Hdoc. simpl. rewrite Hbad. simpl. by eexists. }
  destruct tokens as [| |b|n|s|elems|o];
    try (exists false; intros w _;
         destruct (Hthrown w) as (w' & Hrun & Hu & Hm);
           [by (simpl; rewrite ?orb_true_r)|];
         eapply Hrefused; [exact Hrun | exact Hu | exact Hm |];
         unfold recordsRead, tokensArray; by rewrite Hdoc).
  - exists (forallb (λ v, negb (isNullish v)) elems). intros w Hw.
    unfold importUserData, tryCatch, bind, lift. simpl.
    unfold prop. rewrite Hdoc. simpl.
    rewrite (forOf_importToken_any _ _ _ Hw).
    unfold recordsRead, tokensArray. rewrite Hdoc.
    destruct (forallb _ elems); eexists; (split; [reflexivity|]); by split.
Qed.

(** X12. Importing a text a second time reports what the first import
    reported and changes nothing more in the token lists and the metadata.
    This holds from any well-typed registry and for any text: one that is not
    JSON, a document without a [tokens] array, an array with [null] entries
    (where the import stops and reports [false]) and a sound one alike.  The
    proviso is that of two records read with the same address the later one
    has every field of the earlier one, as when the addresses are all
    different. *)
Theorem importUserData_twice (owner : string) (data : JsonText) (w : World) :
  registryTyped w →
  (∀ i j t u, recordsRead isAddress data !! i = Some t →
              recordsRead isAddress data !! j = Some u → (i < j)%nat →
              addressKey u = addressKey t → dom t ⊆ dom u) →
  ∃ r w1 w2,
    importUserData isAddress owner data w = (Ok r, w1) ∧
    importUserData isAddress owner data w1 = (Ok r, w2) ∧
    userTokens w2 = userTokens w1 ∧ tokenMetadata w2 = tokenMetadata w1.
Proof.
  intros Hw Hd.
  destruct (importUserData_run_any owner data) as [r Hrun].
  set (ts := recordsRead isAddress data) in *.
  assert (Hty : Forall (λ t, wellTyped t = true) ts).
  { unfold ts, recordsRead. destruct (tokensArray data); [|constructor].
    apply validRecords_typed. }
  destruct (Hrun w Hw) as (w1 & Hrun1 & Hu1 & Hm1).
  assert (Hw1 : registryTyped w1).
  { unfold registryTyped. rewrite Hu1.
    by apply foldl_addUserToken_typed. }
  destruct (Hrun w1 Hw1) as (w2 & Hrun2 & Hu2 & Hm2).
  exists r, w1, w2. split; [exact Hrun1|]. split; [exact Hrun2|].
  destruct (foldl_addUserToken_maps owner ts w Hw Hty) as (Hl & _ & _).
  destruct (foldl_addUserToken_maps owner ts w1 Hw1 Hty) as (_ & _ & Htm & _).
  split; [|by rewrite Hm2, Htm].
  rewrite Hu2. destruct (decide (ts = [])) as [Hnil|Hcons]; [by rewrite Hnil|].
  rewrite (foldl_addUserToken_userTokens _ _ _ Hw1 Hty Hcons).
  assert (Hl1 : tokensOf w1 owner
                = foldl (λ l' o, upsert o l') (tokensOf w owner) ts)
    by (rewrite <- Hl; unfold tokensOf; by rewrite Hu1).
  rewrite Hl1, (foldl_upsert_idem_same ts _ Hty Hd).
  apply insert_id. rewrite Hu1.
  rewrite (foldl_addUserToken_userTokens _ _ _ Hw Hty Hcons).
  by rewrite lookup_insert_eq.
Qed.

End ImportAgain.

Lemma import_own_export_witness :
  registryTyped worldA2 ∧ registryUnique worldA2 ∧
  ∃ doc w',
    exportUserData fixedISOString ownerA worldA2 = Ok doc ∧
    importUserData hexAddress ownerA doc worldA2 = (Ok true, w') ∧
    getUserTokens ownerA w' = getUserTokens ownerA worldA2.
Proof.
  assert (registryTyped worldA2) as Hw by by_evaluation.
  assert (registryUnique worldA2) as Hu by by_evaluation.
  split; [exact Hw|]. split; [exact Hu|].
  apply (import_own_export hexAddress fixedISOString ownerA worldA2 Hw Hu).
  repeat constructor.
Defined.

Lemma importUserData_twice_witness :
  ∃ w1 w2,
    importUserData hexAddress ownerA (Denotes (VObject payloadWithNull)) worldA
      = (Ok false, w1) ∧
    importUserData hexAddress ownerA (Denotes (VObject payloadWithNull)) w1
      = (Ok false, w2) ∧
    userTokens w2 = userTokens w1 ∧ tokenMetadata w2 = tokenMetadata w1.
Proof.
  assert (registryTyped worldA) as Hw by by_evaluation.
  destruct (importUserData_twice hexAddress ownerA
              (Denotes (VObject payloadWithNull)) worldA Hw)
    as (r & w1 & w2 & H1 & H2 & Hu & Hm).
  - intros i j t u Hi Hj Hlt Hk.
    destruct i as [|i], j as [|j]; try lia; discriminate.
  - exists w1, w2.
    assert (r = false) as -> by (vm_compute in H1; congruence).
    by repeat split.
Defined.

Section ClearAll.

Context {casing : CaseMapping}.

(** ** Reset *)

(** X13. [clearAllData] returns normally from any state and leaves nothing
    behind: both maps are empty, the three keys of the registry are gone from
    the store while every other key of the store is kept, every query
    answers as for an empty registry, and a page load afterwards starts from
    the same empty registry. *)
Theorem clearAllData_clears (w : World) :
  ∃ w', clearAllData w = (Ok tt, w') ∧
    userTokens w' = ∅ ∧ tokenMetadata w' = ∅ ∧
    localStorage w' !! USER_TOKENS = None ∧
    localStorage w' !! TOKEN_METADATA = None ∧
    localStorage w' !! LAST_SYNC = None ∧
    (∀ key, key ≠ USER_TOKENS → key ≠ TOKEN_METADATA → key ≠ LAST_SYNC →
            localStorage w' !! key = localStorage w !! key) ∧
    (∀ owner, getUserTokens owner w' = Ok []) ∧
    (∀ owner address, getToken owner address w' = Ok None) ∧
    getAllTokens w' = Ok [] ∧
    totalUsers w' = 0%nat ∧
    newTokenStorage w' = Some w'.
Proof.
  destruct w as [ut tm ls co cl outs]. eexists. split; [reflexivity|].
  cbn [userTokens tokenMetadata localStorage set_localStorage set_userTokens
       set_tokenMetadata].
  split; [done|]. split; [done|].
  split; [by rewrite lookup_delete_ne, lookup_delete_ne, lookup_delete_eq|].
  split; [by rewrite lookup_delete_ne, lookup_delete_eq|].
  split; [by rewrite lookup_delete_eq|].
  split; [intros key H1 H2 H3; by rewrite !lookup_delete_ne|].
  split; [done|]. split; [done|]. split; [reflexivity|].
  split; [done|].
  unfold newTokenStorage, loadFromStorage, loadMetadata.
  cbn [userTokens tokenMetadata localStorage set_localStorage set_userTokens
       set_tokenMetadata console clock setItemOutcomes].
  rewrite lookup_delete_ne, lookup_delete_ne, lookup_delete_eq by done.
  by rewrite lookup_delete_ne, lookup_delete_eq.
Qed.

End ClearAll.

Lemma clearAllData_clears_witness :
  ∃ w', clearAllData worldFull = (Ok tt, w') ∧
        getAllTokens w' = Ok [] ∧ newTokenStorage w' = Some w'.
Proof.
  destruct (clearAllData_clears worldFull)
    as (w' & Hrun & _ & _ & _ & _ & _ & _ & _ & _ & Hall & _ & Hload).
  by exists w'.
Defined.

Section SaveLoad.

Context {casing : CaseMapping}.

(** ** What is saved is what is loaded *)

Lemma asRecords_objects (l : list JsObject) :
  asRecords (VArray (VObject <$> l)) = Some l.
Proof. unfold asRecords. by apply mapM_fmap_Some. Qed.

Lemma toJSON_userTokensObj (w : World) :
  toJSON (userTokensObj w) =
    VObject ((λ l : list JsObject, VArray (VObject <$> (jsonObject <$> l)))
               <$> userTokens w).
Proof.
  unfold userTokensObj. rewrite toJSON_object. f_equal.
  apply map_eq. intros k. rewrite jsonObject_lookup, !lookup_fmap.
  destruct (userTokens w !! k) as [l|]; [|done].
  cbn [fmap option_fmap option_map mbind option_bind jsonProperty].
  by rewrite toJSON_records, <- list_fmap_compose.
Qed.

Lemma toJSON_metadataObj (w : World) :
  toJSON (metadataObj w) =
    VObject ((λ m : JsObject, VObject (jsonObject m)) <$> tokenMetadata w).
Proof.
  unfold metadataObj. rewrite toJSON_object. f_equal.
  apply map_eq. intros k. rewrite jsonObject_lookup, !lookup_fmap.
  by destruct (tokenMetadata w !! k).
Qed.

Lemma entriesOf_userTokens (w : World) :
  entriesOf asRecords (JSON_stringify (userTokensObj w)) =
    EntriesMap ((λ l : list JsObject, jsonObject <$> l) <$> userTokens w).
Proof.
  unfold JSON_stringify. rewrite toJSON_userTokensObj. cbn [entriesOf].
  rewrite decide_True.
  - f_equal. apply map_eq. intros k. rewrite lookup_omap, !lookup_fmap.
    destruct (userTokens w !! k) as [l|]; [|done].
    cbn [fmap option_fmap option_map mbind option_bind].
    apply asRecords_objects.
  - intros k v. rewrite lookup_fmap.
    destruct (userTokens w !! k) as [l|]; [|done].
    intros [= <-]. rewrite asRecords_objects. by eexists.
Qed.

Lemma entriesOf_metadata (w : World) :
  entriesOf asMetadata (JSON_stringify (metadataObj w)) =
    EntriesMap (jsonObject <$> tokenMetadata w).
Proof.
  unfold JSON_stringify. rewrite toJSON_metadataObj. cbn [entriesOf].
  rewrite decide_True.
  - f_equal. apply map_eq. intros k. rewrite lookup_omap, !lookup_fmap.
    by destruct (tokenMetadata w !! k).
  - intros k v. rewrite lookup_fmap.
    destruct (tokenMetadata w !! k) as [m|]; [|done].
    intros [= <-]. by eexists.
Qed.

Lemma jsonData_jsonObject (t : JsObject) :
  jsonData (VObject t) → jsonObject t = t.
Proof. unfold jsonData. rewrite toJSON_object. by intros [= ->]. Qed.

(** X14. When none of the three writes of [saveToStorage] fails, a page load
    afterwards ([newTokenStorage]) rebuilds both maps from the store, each
    record and each metadata entry as JSON keeps it; if every record and
    every entry is JSON data, the maps are those that were saved, and
    [getUserTokens] answers for every owner what it answered before. *)
Theorem save_then_load (w : World) :
  false ∉ take 3 (setItemOutcomes w) →
  ∃ w', newTokenStorage (saveToStorage w).2 = Some w' ∧
    userTokens w' = (λ l : list JsObject, jsonObject <$> l) <$> userTokens w ∧
    tokenMetadata w' = jsonObject <$> tokenMetadata w ∧
    (map_Forall (λ _ l, Forall (λ t, jsonData (VObject t)) l) (userTokens w) →
     map_Forall (λ _ m, jsonData (VObject m)) (tokenMetadata w) →
     userTokens w' = userTokens w ∧ tokenMetadata w' = tokenMetadata w ∧
     ∀ owner, getUserTokens owner w' = getUserTokens owner w).
Proof.
  intros Hok.
  destruct (saveToStorage_no_fault w Hok) as [_ Hls].
  set (ws := (saveToStorage w).2) in *.
  unfold newTokenStorage, loadFromStorage, loadMetadata.
  cbn [localStorage set_userTokens set_tokenMetadata].
  rewrite Hls.
  rewrite (lookup_insert_ne _ LAST_SYNC USER_TOKENS) by done.
  rewrite (lookup_insert_ne _ TOKEN_METADATA USER_TOKENS) by done.
  rewrite lookup_insert_eq, entriesOf_userTokens.
  rewrite (lookup_insert_ne _ LAST_SYNC TOKEN_METADATA) by done.
  rewrite lookup_insert_eq, entriesOf_metadata.
  eexists. split; [reflexivity|].
  cbn [userTokens tokenMetadata set_userTokens set_tokenMetadata].
  split; [done|]. split; [done|].
  intros Hrecs Hmeta.
  assert ((λ l : list JsObject, jsonObject <$> l) <$> userTokens w
          = userTokens w) as Hut.
  { apply map_eq. intros k. rewrite lookup_fmap.
    destruct (userTokens w !! k) as [l|] eqn:E; [|done]. simpl. f_equal.
    rewrite <- (list_fmap_id l) at 2. apply list_fmap_ext.
    intros i t Ht%list_elem_of_lookup_2. simpl. apply jsonData_jsonObject.
    exact (proj1 (Forall_forall _ _) (map_Forall_lookup_1 _ _ _ _ Hrecs E) t Ht). }
  assert (jsonObject <$> tokenMetadata w = tokenMetadata w) as Htm.
  { apply map_eq. intros k. rewrite lookup_fmap.
    destruct (tokenMetadata w !! k) as [m|] eqn:E; [|done]. simpl. f_equal.
    apply jsonData_jsonObject. exact (map_Forall_lookup_1 _ _ _ _ Hmeta E). }
  split; [exact Hut|]. split; [exact Htm|].
  intros owner. apply getUserTokens_same.
  - unfold tokensOf. cbn [userTokens set_userTokens set_tokenMetadata].
    by rewrite Hut.
  - exact Htm.
Qed.

End SaveLoad.

Lemma save_then_load_witness :
  (false ∉ take 3 (setItemOutcomes worldA2)) ∧
  ∃ w', newTokenStorage (saveToStorage worldA2).2 = Some w' ∧
        userTokens w' = userTokens worldA2 ∧
        tokenMetadata w' = tokenMetadata worldA2.
Proof.
  assert (false ∉ take 3 (setItemOutcomes worldA2)) as Hok
    by (by intros ?%elem_of_nil).
  split; [exact Hok|].
  destruct (save_then_load worldA2 Hok) as (w' & Hload & _ & _ & Hsame).
  exists w'. split; [exact Hload|].
  destruct Hsame as (Hut & Htm & _).
  - apply map_Forall_singleton. repeat constructor.
  - apply map_Forall_singleton. reflexivity.
  - by split.
Defined.

Section DamagedStore.

Context {casing : CaseMapping}.

(** ** Loading from a damaged store *)

(** X15. A page load never writes to the store.  When the stored token
    document is not JSON, or is [null], the registry starts with both maps
    empty and one error on the console, whatever the metadata document holds;
    when the token document is absent and the metadata document is not JSON
    or [null], likewise. *)
Theorem newTokenStorage_damaged (w : World) :
  (∀ w', newTokenStorage w = Some w' → localStorage w' = localStorage w) ∧
  (∀ text e,
     (text = Malformed ∧ e = SyntaxError ∨ text = Denotes VNull ∧ e = TypeError) →
     (localStorage w !! USER_TOKENS = Some text ∨
      localStorage w !! USER_TOKENS = None ∧
      localStorage w !! TOKEN_METADATA = Some text) →
     ∃ w', newTokenStorage w = Some w' ∧
       userTokens w' = ∅ ∧ tokenMetadata w' = ∅ ∧
       console w' = console w ++ [("Error loading token data from storage:", e)]).
Proof.
  split.
  - intros w'. unfold newTokenStorage, loadFromStorage, loadMetadata.
    cbn [localStorage set_userTokens set_tokenMetadata].
    destruct (localStorage w !! USER_TOKENS) as [text|];
      [destruct (entriesOf asRecords text)|];
      try destruct (localStorage w !! TOKEN_METADATA) as [text'|];
      try destruct (entriesOf asMetadata text');
      try discriminate; by intros [= <-].
  - intros text e Htext Hwhere.
    unfold newTokenStorage, loadFromStorage, loadMetadata.
    cbn [localStorage set_userTokens set_tokenMetadata].
    destruct Hwhere as [->|[-> ->]];
      destruct Htext as [[-> ->]|[-> ->]]; by eexists.
Qed.

End DamagedStore.

Lemma newTokenStorage_damaged_witness :
  localStorage worldCorrupt !! USER_TOKENS = Some Malformed ∧
  ∃ w', newTokenStorage worldCorrupt = Some w' ∧
        userTokens w' = ∅ ∧ tokenMetadata w' = ∅ ∧
        console w' = [("Error loading token data from storage:", SyntaxError)].
Proof.
  assert (localStorage worldCorrupt !! USER_TOKENS = Some Malformed) as Hdoc
    by reflexivity.
  split; [exact Hdoc|].
  destruct (newTokenStorage_damaged worldCorrupt) as [_ Hfail].
  apply (Hfail Malformed SyntaxError); [by left | by left].
Defined.

(** ** Synchronisation: failures and what is found afterwards *)

Section SyncEdges.

Context {casing : CaseMapping}.

Import TokenManager Ethers.

Context (getTokensByCreator : Signer → string → Result (list FactoryToken)).

(** X16. [syncWithBlockchain] never raises, whatever the registry holds and
    whatever the factory answers.  Without a signer or with an empty user
    address it changes nothing at all; when the factory call fails, the token
    lists and the metadata stay as they were and the failure is reported on
    the console. *)
Theorem syncWithBlockchain_failures (signer : option Signer)
    (userAddress : string) (chainId : Z) (w : World) :
  (∃ w', syncWithBlockchain getTokensByCreator signer userAddress chainId w
           = (Ok tt, w')) ∧
  (signer = None ∨ userAddress = "" →
     syncWithBlockchain getTokensByCreator signer userAddress chainId w
       = (Ok tt, w)) ∧
  (∀ sg e, signer = Some sg → userAddress ≠ "" →
     getTokensByCreator sg userAddress = Throw e →
     ∃ w', syncWithBlockchain getTokensByCreator signer userAddress chainId w
             = (Ok tt, w') ∧
       userTokens w' = userTokens w ∧ tokenMetadata w' = tokenMetadata w ∧
       localStorage w' = localStorage w ∧
       console w' = console w ++ [("Error syncing with blockchain:", e)]).
Proof.
  unfold syncWithBlockchain. split; [|split].
  - destruct signer as [sg|]; [|by eexists].
    destruct (String.eqb userAddress ""); [by eexists|].
    unfold tryCatch.
    destruct (bind _ _ w) as [[[]|e] w1]; by eexists.
  - intros [-> | ->]; [done|]. by destruct signer.
  - intros sg e -> Hne Hreply.
    destruct (String.eqb_spec userAddress "") as [E|_]; [done|].
    unfold tryCatch, bind, lift. rewrite Hreply. by eexists.
Qed.

Lemma foldl_upsert_key_of_run (ts : list JsObject) (t : JsObject)
    (l : list JsObject) :
  Forall (λ u, wellTyped u = true) ts → t ∈ ts →
  addressKey t ∈ addressKey <$> foldl (λ l' o, upsert o l') l ts.
Proof.
  intros Hts. revert l. induction Hts as [|u ts Hu Hts IH]; intros l Hin.
  - by apply elem_of_nil in Hin.
  - cbn [foldl]. apply elem_of_cons in Hin as [->|Hin]; [|by apply IH].
    apply foldl_upsert_keeps_key; [done | by apply upsert_key_present].
Qed.

Lemma getToken_found (owner address : string) (w : World) :
  registryTyped w →
  toLowerCase address ∈ addressKey <$> tokensOf w owner →
  ∃ r, getToken owner address w = Ok (Some r) ∧
       addressKey r = toLowerCase address.
Proof.
  intros Hw (t & Hk & Ht)%list_elem_of_fmap.
  rewrite (getToken_run _ _ _ Hw).
  destruct (filter (λ t0, addressKey t0 = toLowerCase address) (tokensOf w owner))
    as [|x xs] eqn:F.
  - assert (t ∈ filter (λ t0, addressKey t0 = toLowerCase address)
                  (tokensOf w owner)) as Hin by (by apply list_elem_of_filter).
    rewrite F in Hin. by apply elem_of_nil in Hin.
  - exists (withMetadata w x). split; [done|].
    assert (x ∈ filter (λ t0, addressKey t0 = toLowerCase address)
                  (tokensOf w owner)) as Hin by (rewrite F; apply list_elem_of_here).
    apply list_elem_of_filter in Hin as [Hx _].
    by rewrite addressKey_withMetadata.
Qed.

(** X17. After a synchronisation that the factory answered, on a well-typed
    registry, [getToken] finds every token of the reply under its address, in
    any case of the letters. *)
Theorem syncWithBlockchain_then_getToken (sg : Signer) (userAddress : string)
    (chainId : Z) (fts : list FactoryToken) (ft : FactoryToken)
    (address : string) (w : World) :
  registryTyped w → userAddress ≠ "" →
  getTokensByCreator sg userAddress = Ok fts → ft ∈ fts →
  toLowerCase address = toLowerCase (tokenAddress ft) →
  ∃ w' r,
    syncWithBlockchain getTokensByCreator (Some sg) userAddress chainId w
      = (Ok tt, w') ∧
    getToken userAddress address w' = Ok (Some r) ∧
    addressKey r = toLowerCase (tokenAddress ft).
Proof.
  intros Hw Hne Hreply Hin Hcase.
  pose proof (userTokens_typed chainId fts) as Hty.
  pose proof (foldl_addUserToken_typed userAddress _ w Hw Hty) as Hw'.
  destruct (foldl_addUserToken_maps userAddress _ w Hw Hty) as (Hl & _).
  eexists.
  assert (addressKey (userTokenOf chainId ft)
          ∈ addressKey <$> tokensOf
              (foldl (λ w' o, (addUserToken userAddress o w').2) w
                     (userTokenOf chainId <$> fts)) userAddress) as Hkey.
  { rewrite Hl. apply foldl_upsert_key_of_run; [done|].
    by apply list_elem_of_fmap_2. }
  change (addressKey (userTokenOf chainId ft))
    with (toLowerCase (tokenAddress ft)) in Hkey.
  rewrite <- Hcase in Hkey |- *.
  destruct (getToken_found userAddress address _ Hw' Hkey) as (r & Hrun & Hr).
  exists r. split; [by apply syncWithBlockchain_run|]. by split.
Qed.

End SyncEdges.

Lemma syncWithBlockchain_then_getToken_witness :
  registryTyped worldA ∧ ownerA ≠ "" ∧
  ∃ w' r,
    TokenManager.syncWithBlockchain factoryReply (Some signerA) ownerA 4207 worldA
      = (Ok tt, w') ∧
    getToken ownerA (toLowerCase addressD) w' = Ok (Some r) ∧
    addressKey r = toLowerCase addressD.
Proof.
  assert (registryTyped worldA) as Hw by by_evaluation.
  assert (ownerA ≠ "") as Hne by discriminate.
  split; [exact Hw|]. split; [exact Hne|].
  apply (syncWithBlockchain_then_getToken factoryReply signerA ownerA 4207
           [factoryTST; factoryUSD] factoryUSD (toLowerCase addressD) worldA
           Hw Hne).
  - reflexivity.
  - apply list_elem_of_further, list_elem_of_here.
  - reflexivity.
Defined.

Lemma syncWithBlockchain_failures_witness :
  ∃ w', TokenManager.syncWithBlockchain factoryDown (Some signerA) ownerA 4207
          worldA = (Ok tt, w') ∧
        userTokens w' = userTokens worldA ∧
        console w' = [("Error syncing with blockchain:",
                       Error "could not detect network")].
Proof.
  destruct (syncWithBlockchain_failures factoryDown (Some signerA) ownerA 4207
              worldA) as (_ & _ & Hfail).
  destruct (Hfail signerA (Error "could not detect network"))
    as (w' & Hrun & Hut & _ & _ & Hlog); [reflexivity | discriminate | reflexivity |].
  exists w'. by repeat split.
Defined.

(** ** The wallet component *)

Section AddressDisplay.

Import Ethers WalletConnect WalletConnectRest WalletSpec.

Lemma length_app_string (a b : string) :
  String.length (a +:+ b) = (String.length a + String.length b)%nat.
Proof. induction a as [|c a IH]; [done|]. simpl. by f_equal. Qed.

Lemma substring_all (s : string) : substring 0 (String.length s) s = s.
Proof. induction s as [|c s IH]; [done|]. simpl. by f_equal. Qed.

Lemma substring_prefix (a r : string) :
  substring 0 (String.length a) (a +:+ r) = a.
Proof. induction a as [|c a IH]; [by destruct r|]. simpl. by f_equal. Qed.

Lemma substring_suffix (p b : string) :
  substring (String.length p) (String.length b) (p +:+ b) = b.
Proof. induction p as [|c p IH]; [apply substring_all|]. exact IH. Qed.

(** X18. [formatAddress] (the component's and [ContractUtils.formatAddress])
    keeps the first six and the last four characters of a string of at least
    ten characters and puts three dots in place of everything between. *)
Theorem formatAddress_long (a mid b : string) :
  String.length a = 6%nat → String.length b = 4%nat →
  formatAddress (a +:+ mid +:+ b) = a +:+ "..." +:+ b.
Proof.
  intros Ha Hb. unfold formatAddress, slice.
  assert (Hlen : String.length (a +:+ mid +:+ b)
                 = (10 + String.length mid)%nat)
    by (rewrite !length_app_string; lia).
  rewrite Hlen.
  rewrite (bool_decide_eq_false_2 (0 < 0)) by lia.
  rewrite (bool_decide_eq_false_2 (6 < 0)) by lia.
  rewrite (bool_decide_eq_true_2 (-4 < 0)) by lia.
  replace (Z.to_nat (Z.min 6 _ - Z.min 0 _)) with (String.length a) by lia.
  replace (Z.to_nat (Z.min 0 _)) with 0%nat by lia.
  rewrite substring_prefix.
  replace (Z.to_nat (Z.max _ 0)) with (String.length (a +:+ mid))
    by (rewrite length_app_string; lia).
  replace (Z.to_nat _) with (String.length b) by lia.
  by rewrite <- (string_app_assoc a mid b), substring_suffix.
Qed.

Lemma formatAddress_long_witness :
  formatAddress ("0x6a82" +:+ "5c21AB4A0B9B93E18E08fCAf37ad3c82" +:+ "c7bD")
  = "0x6a82...c7bD".
Proof. apply (formatAddress_long "0x6a82" _ "c7bD"); reflexivity. Defined.

(** X19. A string of at most four characters is not shortened by
    [formatAddress]: it is shown twice, around the dots. *)
Theorem formatAddress_short (addr : string) :
  (String.length addr ≤ 4)%nat →
  formatAddress addr = addr +:+ "..." +:+ addr.
Proof.
  intros Hlen. unfold formatAddress, slice.
  rewrite (bool_decide_eq_false_2 (0 < 0)) by lia.
  rewrite (bool_decide_eq_false_2 (6 < 0)) by lia.
  rewrite (bool_decide_eq_true_2 (-4 < 0)) by lia.
  replace (Z.to_nat (Z.min 6 _ - Z.min 0 _)) with (String.length addr) by lia.
  replace (Z.to_nat (Z.min 0 _)) with 0%nat by lia.
  replace (Z.to_nat (Z.max _ 0)) with 0%nat by lia.
  replace (Z.to_nat _) with (String.length addr) by lia.
  by rewrite substring_all.
Qed.

Lemma formatAddress_short_witness : formatAddress "0x1" = "0x1...0x1".
Proof. apply formatAddress_short. cbn. lia. Defined.

End AddressDisplay.

Section Connecting.

Import Ethers WalletConnect WalletConnectRest WalletSpec.

(** X20. [checkConnection] never disconnects a session and never reports a
    disconnection: either it leaves the connection flag, the address, the
    balance and the callbacks as they were, the network status being kept or
    set to unknown, or it ends connected with the address of the wallet's
    signer and a known network status.  It touches neither the error message
    nor the connecting flag. *)
Theorem checkConnection_never_disconnects (formatEther : Z → string)
    (ethereum : option Wallet) (s : Session) :
  let s' := (checkConnection formatEther ethereum s).2 in
  error s' = error s ∧ isConnecting s' = isConnecting s ∧
  ((isConnected s' = isConnected s ∧ address s' = address s ∧
    balance s' = balance s ∧ callbacks s' = callbacks s ∧
    (networkStatus s' = networkStatus s ∨ networkStatus s' = unknown)) ∨
   (∃ signer, isConnected s' = true ∧ address s' = getAddress signer ∧
      callbacks s' = callbacks s ++ [onWalletConnected signer (getAddress signer)] ∧
      networkStatus s' ≠ unknown)).
Proof.
  assert (Hkept : ∀ s' : Session,
            error s' = error s → isConnecting s' = isConnecting s →
            isConnected s' = isConnected s → address s' = address s →
            balance s' = balance s → callbacks s' = callbacks s →
            networkStatus s' = networkStatus s ∨ networkStatus s' = unknown →
            error s' = error s ∧ isConnecting s' = isConnecting s ∧
            ((isConnected s' = isConnected s ∧ address s' = address s ∧
              balance s' = balance s ∧ callbacks s' = callbacks s ∧
              (networkStatus s' = networkStatus s ∨ networkStatus s' = unknown)) ∨
             (∃ signer, isConnected s' = true ∧ address s' = getAddress signer ∧
                callbacks s' =
                  callbacks s ++ [onWalletConnected signer (getAddress signer)] ∧
                networkStatus s' ≠ unknown)))
    by (intros; split; [done|split; [done|by left]]).
  destruct ethereum as [wallet|]; [|apply Hkept; auto].
  unfold checkConnection, tryCatch, bind, lift.
  destruct (eth_accounts wallet) as [accounts|e]; [|apply Hkept; auto].
  destruct (bool_decide (0 < length accounts)%nat); [|apply Hkept; auto].
  destruct (getSigner wallet) as [signer|e]; [|apply Hkept; auto].
  destruct (getNetwork_chainId wallet) as [chainId|e]; [|apply Hkept; auto].
  simpl.
  destruct (getBalance wallet (getAddress signer)) as [wei|e];
    [|apply Hkept; auto].
  simpl. split; [done|]. split; [done|]. right. exists signer.
  repeat split. by destruct (bool_decide (chainId = 4207)).
Qed.

(** The run of [connectWallet] on an installed wallet, by the answers of the
    wallet. *)
Lemma connectWallet_run (wallet : Provider) (c : Connection) :
  let s := session c in
  let c' := (connectWallet (Some wallet) c).2 in
  let s' := session c' in
  (connectWallet (Some wallet) c).1 = Answer tt ∧
  isConnecting s' = false ∧
  networkStatus s' = networkStatus s ∧ balance s' = balance s ∧
  match connects wallet with
  | Some signer =>
      isConnected s' = true ∧ address s' = getAddress signer ∧ error s' = "" ∧
      callbacks s' = callbacks s ++ [onWalletConnected signer (getAddress signer)] ∧
      console s' = console s
  | None =>
      isConnected s' = isConnected s ∧ address s' = address s ∧
      callbacks s' = callbacks s ∧ error s' ≠ "" ∧
      ∃ e, rejection wallet = Some e ∧
           (console s' =
              console s ++ [("Error connecting wallet:", Error (message e))] ∨
            console s' =
              console s ++ [("Error adding Edgen Chain:", Error (message e));
                            ("Error connecting wallet:", Error (message e))]) ∧
           error s' = (if String.eqb (message e) "" then "Failed to connect wallet"
                       else message e)
  end.
Proof.
  destruct wallet as [accounts id switch add signer].
  assert (Hmsg : ∀ m : string,
            (if String.eqb m "" then "Failed to connect wallet" else m) ≠ "").
  { intros m. destruct (String.eqb_spec m ""); [done|done]. }
  unfold connects, chainReady, rejection, chainRejection;
    cbn [requestAccounts chainId switchEthereumChain addEthereumChain signerOf].
  destruct accounts as [accs|e1].
  2:{ cbn. repeat split; [apply Hmsg|]. exists e1. by split; [|split; [left|]]. }
  destruct id as [id|e2].
  2:{ destruct signer; cbn; (repeat split; [apply Hmsg|]); exists e2;
      by split; [|split; [left|]]. }
  unfold connectWallet, switchToEdgenChain, addEdgenChain, andThenAsk,
    finallyAsk, catchAsk, request, update, logError, answer, raise.
  cbn [requestAccounts chainId switchEthereumChain addEthereumChain signerOf
       session requests fst snd].
  destruct (String.eqb id edgenChainId).
  { destruct signer as [sg|e5]; cbn.
    - by repeat split.
    - repeat split; [apply Hmsg|]. exists e5. by split; [|split; [left|]]. }
  cbn [orb].
  destruct switch as [[]|e3].
  { destruct signer as [sg|e5]; cbn.
    - by repeat split.
    - repeat split; [apply Hmsg|]. exists e5. by split; [|split; [left|]]. }
  destruct (TokenStorageRest.strictEqualsNumber (code e3) 4902); cbn [andb].
  2:{ destruct signer; cbn; (repeat split; [apply Hmsg|]); exists e3;
      by split; [|split; [left|]]. }
  destruct add as [[]|e4].
  { destruct signer as [sg|e5]; cbn.
    - by repeat split.
    - repeat split; [apply Hmsg|]. exists e5. by split; [|split; [left|]]. }
  destruct signer; cbn; (repeat split; [apply Hmsg|]); exists e4;
    (split; [done|]); (split; [right|done]); by rewrite <- app_assoc.
Qed.

(** X21. Whatever the wallet answers, [connectWallet] returns normally, the
    connecting flag is off when it returns, and the network status and the
    balance are what they were: connecting neither checks the network nor
    reads the balance. *)
Theorem connectWallet_settles (wallet : Provider) (c : Connection) :
  let c' := (connectWallet (Some wallet) c).2 in
  (connectWallet (Some wallet) c).1 = Answer tt ∧
  isConnecting (session c') = false ∧
  networkStatus (session c') = networkStatus (session c) ∧
  balance (session c') = balance (session c).
Proof.
  destruct (connectWallet_run wallet c) as (H1 & H2 & H3 & H4 & _).
  by repeat split.
Qed.

(** X22. When the wallet grants the accounts, is or gets on the Edgen chain
    and gives a signer, [connectWallet] ends connected with the signer's
    address and no error message, tells the parent once, and reports nothing
    on the console. *)
Theorem connectWallet_connects (wallet : Provider) (signer : Signer)
    (c : Connection) :
  connects wallet = Some signer →
  let s' := session (connectWallet (Some wallet) c).2 in
  isConnected s' = true ∧ address s' = getAddress signer ∧ error s' = "" ∧
  callbacks s' =
    callbacks (session c) ++ [onWalletConnected signer (getAddress signer)] ∧
  console s' = console (session c).
Proof.
  intros Hc. destruct (connectWallet_run wallet c) as (_ & _ & _ & _ & H).
  by rewrite Hc in H.
Qed.

Lemma connectWallet_connects_witness :
  let s' := session (connectWallet (Some walletNewChain)
                       (mkConnection sessionIdle [])).2 in
  isConnected s' = true ∧ address s' = Samples.ownerA ∧ error s' = "".
Proof.
  assert (H : connects walletNewChain = Some Samples.signerA) by reflexivity.
  destruct (connectWallet_connects walletNewChain Samples.signerA
              (mkConnection sessionIdle []) H) as (H1 & H2 & H3 & _).
  by repeat split.
Defined.

(** X23. In every other case the wallet rejects one of the requests, and
    the first rejection in the order of the requests stops [connectWallet]:
    the connection flag, the address and the callbacks stay as they were, the
    rejection is reported on the console (twice when it is the request to add
    the chain that is rejected), and the error message is set to the message
    of that rejection, or to a default text when it has none; it is never
    empty. *)
Theorem connectWallet_fails (wallet : Provider) (c : Connection) :
  connects wallet = None →
  let s := session c in
  let s' := session (connectWallet (Some wallet) c).2 in
  ∃ e, rejection wallet = Some e ∧
    (requestAccounts wallet = Rejected e ∨ chainId wallet = Rejected e ∨
     switchEthereumChain wallet = Rejected e ∨
     addEthereumChain wallet = Rejected e ∨ signerOf wallet = Rejected e) ∧
    isConnected s' = isConnected s ∧ address s' = address s ∧
    callbacks s' = callbacks s ∧
    error s' = (if String.eqb (message e) "" then "Failed to connect wallet"
                else message e) ∧
    error s' ≠ "" ∧
    (console s' =
       console s ++ [("Error connecting wallet:", Error (message e))] ∨
     console s' =
       console s ++ [("Error adding Edgen Chain:", Error (message e));
                     ("Error connecting wallet:", Error (message e))]).
Proof.
  intros Hc. destruct (connectWallet_run wallet c) as (_ & _ & _ & _ & H).
  rewrite Hc in H. destruct H as (H1 & H2 & H3 & H4 & e & He & Hlog & Herr).
  exists e. repeat split; try done.
  clear - He. unfold rejection, chainRejection in He.
  destruct (requestAccounts wallet); [|injection He as ->; by left].
  destruct (chainId wallet) as [id|]; [|injection He as ->; by right; left].
  destruct (String.eqb id edgenChainId).
  { destruct (signerOf wallet); [done|].
    injection He as ->. by right; right; right; right. }
  destruct (switchEthereumChain wallet) as [|e3].
  { destruct (signerOf wallet); [done|].
    injection He as ->. by right; right; right; right. }
  destruct (TokenStorageRest.strictEqualsNumber (code e3) 4902);
    [|injection He as ->; by right; right; left].
  destruct (addEthereumChain wallet);
    [|injection He as ->; by right; right; right; left].
  destruct (signerOf wallet); [done|].
  injection He as ->. by right; right; right; right.
Qed.

Lemma connectWallet_fails_witness :
  let s' := session (connectWallet (Some walletRefused)
                       (mkConnection Samples.sessionC [])).2 in
  isConnected s' = isConnected Samples.sessionC ∧
  address s' = address Samples.sessionC ∧
  error s' = "User rejected the request.".
Proof.
  assert (H : connects walletRefused = None) by reflexivity.
  destruct (connectWallet_fails walletRefused
              (mkConnection Samples.sessionC []) H)
    as (e & He & _ & H1 & H2 & _ & H4 & _).
  injection He as <-. by repeat split.
Defined.

(** X24. The requests [connectWallet] sends: it asks for the accounts first
    and sends no request twice; it asks the wallet to switch chain exactly
    when the accounts were granted and the chain the wallet reports is not
    the string ["0x106F"], compared as written; and it asks the wallet to add
    the chain exactly when that switch was rejected with code 4902. *)
Theorem connectWallet_requests (wallet : Provider) (c : Connection) :
  ∃ sent : list Request,
    requests (connectWallet (Some wallet) c).2 = requests c ++ sent ∧
    head sent = Some eth_requestAccounts ∧ NoDup sent ∧
    (wallet_switchEthereumChain ∈ sent ↔
       ∃ accounts id, requestAccounts wallet = Answer accounts ∧
                      chainId wallet = Answer id ∧ id ≠ "0x106F") ∧
    (wallet_addEthereumChain ∈ sent ↔
       wallet_switchEthereumChain ∈ sent ∧
       ∃ e, switchEthereumChain wallet = Rejected e ∧ code e = VNumber 4902).
Proof.
  destruct wallet as [accounts id switch add signer].
  unfold connectWallet, switchToEdgenChain, addEdgenChain, andThenAsk,
    finallyAsk, catchAsk, request, update, logError, answer, raise.
  cbn [requestAccounts chainId switchEthereumChain addEthereumChain signerOf
       session requests fst snd].
  assert (Hcode : ∀ v, TokenStorageRest.strictEqualsNumber v 4902 = true
                       ↔ v = VNumber 4902).
  { intros v. destruct v; cbn; try (split; [done|discriminate]).
    rewrite bool_decide_eq_true. split; [by intros ->|by intros [= ->]]. }
  destruct accounts as [accs|e1].
  2:{ exists [eth_requestAccounts]. split; [done|]. split; [done|].
      split; [by_evaluation|]. split.
      - split; [intros H; exfalso; revert H; by_evaluation|].
        by intros (? & ? & ? & _).
      - split; [intros H; exfalso; revert H; by_evaluation|].
        intros [H _]; exfalso; revert H; by_evaluation. }
  destruct id as [id|e2].
  2:{ exists [eth_requestAccounts; eth_chainId].
      split; [by rewrite <- app_assoc|]. split; [done|].
      split; [by_evaluation|]. split.
      - split; [intros H; exfalso; revert H; by_evaluation|].
        by intros (? & ? & _ & ? & _).
      - split; [intros H; exfalso; revert H; by_evaluation|].
        intros [H _]; exfalso; revert H; by_evaluation. }
  destruct (String.eqb_spec id edgenChainId) as [->|Hid].
  { exists [eth_requestAccounts; eth_chainId; provider_getSigner].
    split; [destruct signer; cbn; by rewrite <- !app_assoc|].
    split; [done|]. split; [by_evaluation|]. split.
    - split; [intros H; exfalso; revert H; by_evaluation|].
      by intros (? & ? & _ & [= <-] & ?).
    - split; [intros H; exfalso; revert H; by_evaluation|].
      intros [H _]; exfalso; revert H; by_evaluation. }
  assert (Hswitch : ∃ accounts id0, Answer (A:=list string) accs = Answer accounts ∧
                      Answer (A:=string) id = Answer id0 ∧ id0 ≠ "0x106F")
    by (by exists accs, id).
  destruct switch as [[]|e3].
  { exists [eth_requestAccounts; eth_chainId; wallet_switchEthereumChain;
            provider_getSigner].
    split; [destruct signer; cbn; by rewrite <- !app_assoc|].
    split; [done|]. split; [by_evaluation|]. split.
    - split; [done|intros _; by_evaluation].
    - split; [intros H; exfalso; revert H; by_evaluation|].
      by intros [_ (? & ? & _)]. }
  destruct (TokenStorageRest.strictEqualsNumber (code e3) 4902) eqn:H4902.
  2:{ exists [eth_requestAccounts; eth_chainId; wallet_switchEthereumChain].
      split; [cbn; by rewrite <- !app_assoc|].
      split; [done|]. split; [by_evaluation|]. split.
      - split; [done|intros _; by_evaluation].
      - split; [intros H; exfalso; revert H; by_evaluation|].
        intros [_ (e & [= <-] & He)]. apply Hcode in He. congruence. }
  apply Hcode in H4902.
  exists (eth_requestAccounts :: eth_chainId :: wallet_switchEthereumChain ::
          wallet_addEthereumChain ::
          match add with Answer _ => [provider_getSigner] | Rejected _ => [] end).
  split; [destruct add as [[]|e4]; destruct signer; cbn; by rewrite <- !app_assoc|].
  split; [done|]. split; [destruct add; by_evaluation|]. split.
  - split; [done|intros _; destruct add; by_evaluation].
  - split; [|intros _; destruct add; by_evaluation].
    intros _. split; [destruct add; by_evaluation|]. by exists e3.
Qed.

Lemma connectWallet_requests_witness :
  wallet_switchEthereumChain
  ∈ requests (connectWallet (Some walletLowerCase)
                (mkConnection sessionIdle [])).2.
Proof.
  destruct (connectWallet_requests walletLowerCase (mkConnection sessionIdle []))
    as (sent & Hreq & _ & _ & Hswitch & _).
  rewrite Hreq. apply elem_of_app. right. apply Hswitch.
  by exists [Samples.ownerA], "0x106f".
Defined.

End Connecting.

(** ** The contract library *)

Section ContractFacts.

Import Ethers Contracts ContractsSpec.

Lemma orElse_filled (value : option string) (fallback : string) :
  fallback ≠ "" → orElse value fallback ≠ "".
Proof.
  intros Hf. destruct value as [s|]; [|done]. simpl.
  by destruct (String.eqb_spec s "").
Qed.

(** X25. The branch of [getTokenFactoryContract] and of
    [getMintableTokenContract] that reports a missing configuration is never
    taken: whatever the environment holds, the contract is made with a
    non-empty address, which is the configured one when it is set and not
    empty (for a mintable token, the address passed in comes first). *)
Theorem contract_address_never_missing {Contract : Type}
    (newContract : string → Abi → Signer → Result Contract)
    (env : Env) (signer : Signer) (address : option string) :
  (∃ a, a ≠ "" ∧ a = orElse (VITE_TOKEN_FACTORY_ADDRESS env) (TOKEN_FACTORY (mkEnv None None)) ∧
        getTokenFactoryContract newContract env signer
        = newContract a TOKEN_FACTORY_ABI signer) ∧
  (∃ a, a ≠ "" ∧
        a = orElse address (orElse (VITE_MINTABLE_TOKEN_ADDRESS env)
                                   (MINTABLE_TOKEN (mkEnv None None))) ∧
        getMintableTokenContract newContract env signer address
        = newContract a MINTABLE_TOKEN_ABI signer).
Proof.
  split.
  - exists (getContractAddress env TokenFactory).
    assert (Hne : getContractAddress env TokenFactory ≠ "")
      by (by apply orElse_filled).
    split; [done|]. split; [done|]. unfold getTokenFactoryContract.
    by destruct (String.eqb_spec (getContractAddress env TokenFactory) "").
  - exists (orElse address (getContractAddress env MintableToken)).
    assert (Hne : orElse address (getContractAddress env MintableToken) ≠ "")
      by (by apply orElse_filled, orElse_filled).
    split; [done|]. split; [done|]. unfold getMintableTokenContract.
    by destruct (String.eqb_spec
                   (orElse address (getContractAddress env MintableToken)) "").
Qed.

(** X26. [handleContractError] always returns a text, never an empty one, and
    reports the error on the console exactly once. *)
Theorem handleContractError_never_blank (error : Failure) (console : Console) :
  ∃ text, text ≠ "" ∧
    handleContractError error console
    = (Ok text, console ++ [("Contract error:", Error (default "" (message error)))]).
Proof.
  unfold handleContractError, bind, console_error, modify, ret.
  destruct (strictEqualsString (code error) "UNPREDICTABLE_GAS_LIMIT");
    [eexists; (split; [|reflexivity]); done|].
  destruct (strictEqualsString (code error) "INSUFFICIENT_FUNDS");
    [eexists; (split; [|reflexivity]); done|].
  destruct (strictEqualsString (code error) "USER_REJECTED"); [eexists; (split; [|reflexivity]); done|].
  destruct (match message error with
            | Some m => includes m "execution reverted"
            | None => false
            end);
    (eexists; split; [|reflexivity]); by apply orElse_filled.
Qed.

Lemma cut_none (sep s : string) : includes s sep = false → cut sep s = None.
Proof.
  induction s as [|c s IH]; simpl; intros [H1 H2]%orb_false_iff; rewrite H1;
    [done|]. by rewrite IH.
Qed.

Lemma dropChars_app (a b : string) : dropChars (String.length a) (a +:+ b) = b.
Proof. induction a as [|c a IH]; [done|]. exact IH. Qed.

Lemma startsWith_app (a b : string) : startsWith (a +:+ b) a = true.
Proof. apply startsWith_spec. by exists b. Qed.

(** An occurrence that starts in [a] and ends after it goes on in [b]. *)
Lemma startsWith_across (a b p : string) :
  startsWith (a +:+ b) p = true → (String.length a ≤ String.length p)%nat →
  startsWith b (dropChars (String.length a) p) = true.
Proof.
  revert p. induction a as [|c a IH]; intros p; [done|].
  destruct p as [|d p]; simpl; [lia|].
  intros [_ H]%andb_true_iff Hlen. apply IH; [done|lia].
Qed.

Lemma startsWith_within (a b p : string) :
  startsWith (a +:+ b) p = true → (String.length p ≤ String.length a)%nat →
  startsWith a p = true.
Proof.
  revert p. induction a as [|c a IH]; intros p.
  - destruct p; simpl; [done|lia].
  - destruct p as [|d p]; simpl; [done|].
    intros [-> H]%andb_true_iff Hlen. apply andb_true_iff. split; [done|].
    apply IH; [done|lia].
Qed.

(** The separator does not overlap itself, so its first occurrence in a text
    that continues with it starts where the text before it ends. *)
Lemma cut_reverted (pre rest : string) :
  includes pre "execution reverted: " = false →
  cut "execution reverted: " (pre +:+ "execution reverted: " +:+ rest)
  = Some (pre, rest).
Proof.
  set (sep := "execution reverted: ").
  induction pre as [|c pre IH]; intros Hpre.
  - change (cut sep (sep +:+ rest) = Some ("", rest)).
    destruct (sep +:+ rest) eqn:E; [done|]. rewrite <- E. clear E.
    unfold cut at 1. destruct (sep +:+ rest) eqn:E; [done|]. rewrite <- E.
    fold cut. rewrite startsWith_app. by rewrite dropChars_app.
  - change (startsWith (String c pre) sep || includes pre sep = false) in Hpre.
    apply orb_false_iff in Hpre as [Hhere Hlater].
    change (cut sep (String c (pre +:+ sep +:+ rest)) = Some (String c pre, rest)).
    cbn [cut]. fold sep.
    assert (Hno : startsWith (String c (pre +:+ sep +:+ rest)) sep = false).
    { apply not_true_is_false. intros Hyes.
      change (startsWith (String c pre +:+ (sep +:+ rest)) sep = true) in Hyes.
      destruct (decide (String.length sep ≤ String.length (String c pre))%nat)
        as [Hlong|Hshort].
      - apply startsWith_within in Hyes; [|done]. congruence.
      - apply startsWith_across in Hyes; [|lia].
        remember (String.length (String c pre)) as k eqn:Hk.
        assert (Hpos : (0 < k)%nat) by (subst k; simpl; lia).
        assert (Hk20 : (k < 20)%nat) by (change (String.length sep) with 20%nat in Hshort; lia).
        clear - Hyes Hpos Hk20.
        do 20 (destruct k as [|k]; [first [lia | by vm_compute in Hyes]|]).
        lia. }
    rewrite Hno. by rewrite IH.
Qed.

(** X27. For an error without one of the three known codes whose message
    holds the text ["execution reverted: "] once, [handleContractError]
    returns what follows it, the revert reason of the contract, or
    ["Transaction reverted"] when nothing follows. *)
Theorem handleContractError_revert_reason (error : Failure)
    (pre reason : string) (console : Console) :
  strictEqualsString (code error) "UNPREDICTABLE_GAS_LIMIT" = false →
  strictEqualsString (code error) "INSUFFICIENT_FUNDS" = false →
  strictEqualsString (code error) "USER_REJECTED" = false →
  message error = Some (pre +:+ "execution reverted: " +:+ reason) →
  includes pre "execution reverted: " = false →
  includes reason "execution reverted: " = false →
  (handleContractError error console).1
  = Ok (if String.eqb reason "" then "Transaction reverted" else reason).
Proof.
  intros H1 H2 H3 Hm Hpre Hreason.
  unfold handleContractError, bind, console_error, modify, ret.
  rewrite H1, H2, H3, Hm.
  assert (Hinc : includes (pre +:+ "execution reverted: " +:+ reason)
                          "execution reverted" = true).
  { apply includes_spec. by exists pre, (": " +:+ reason). }
  rewrite Hinc. cbn [fst default from_option id]. unfold splitSecond.
  rewrite cut_reverted by done. by rewrite (cut_none _ _ Hreason).
Qed.

Lemma handleContractError_revert_reason_witness :
  (handleContractError failureReverted []).1 = Ok "Max supply exceeded".
Proof.
  apply (handleContractError_revert_reason failureReverted "call failed: "
           "Max supply exceeded" []); reflexivity.
Defined.

Lemma call_filed (txs : Transactions) (c : Call) :
  keepsHash c → filed txs → filed (call txs c).
Proof.
  intros Hc Hf hash record. destruct c as [h|h update|h]; cbn [call].
  - unfold addTransaction. destruct (decide (h = hash)) as [->|Hne].
    + rewrite lookup_insert_eq. intros [= <-].
      split; [done|]. split; by eexists.
    + rewrite lookup_insert_ne by done. apply Hf.
  - unfold updateTransaction. destruct (txs !! h) as [existing|] eqn:E;
      [|apply Hf].
    destruct (decide (h = hash)) as [->|Hne].
    + rewrite lookup_insert_eq. intros [= <-].
      destruct (Hf _ _ E) as (Hh & Hs & Hn). cbn [keepsHash] in Hc.
      split; [|split].
      * rewrite lookup_union_r by done. done.
      * apply lookup_union_is_Some. by right.
      * apply lookup_union_is_Some. by right.
    + rewrite lookup_insert_ne by done. apply Hf.
  - unfold removeTransaction. intros [_ H]%lookup_delete_Some. by apply Hf.
Qed.

(** X28. Through any sequence of [addTransaction], [updateTransaction] and
    [removeTransaction] whose updates leave the [hash] field alone, every
    tracked record stays filed under its own hash and keeps a status and a
    number of confirmations. *)
Theorem tracker_records_filed (cs : list Call) (txs : Transactions) :
  Forall keepsHash cs → filed txs → filed (calls cs txs).
Proof.
  unfold calls. revert txs. induction cs as [|c cs IH]; intros txs Hcs Hf;
    [done|].
  inversion Hcs as [|? ? Hc Hrest]; subst. simpl. apply IH; [done|].
  by apply call_filed.
Qed.

Lemma tracker_records_filed_witness :
  filed (calls [Add "0xabc"; Update "0xabc" {[ "status" := VString "confirmed" ]};
                Update "0xdef" {[ "status" := VString "failed" ]};
                Add "0xdef"; Remove "0xabc"] ∅).
Proof.
  apply tracker_records_filed.
  - repeat constructor.
  - intros hash record H. by rewrite lookup_empty in H.
Defined.

(** X29. [updateTransaction] never creates a record: for an unknown hash it
    changes nothing.  For a tracked hash it changes that record only, and in
    it only the fields the update names, which take the update's values. *)
Theorem updateTransaction_frame (hash : string) (update : JsObject)
    (txs : Transactions) :
  (getTransaction hash txs = None → updateTransaction hash update txs = txs) ∧
  (∀ other, other ≠ hash →
     getTransaction other (updateTransaction hash update txs)
     = getTransaction other txs) ∧
  (∀ record, getTransaction hash txs = Some record →
     ∃ record', getTransaction hash (updateTransaction hash update txs)
                = Some record' ∧
       ∀ field, record' !! field = match update !! field with
                                   | Some v => Some v
                                   | None => record !! field
                                   end).
Proof.
  unfold getTransaction, updateTransaction. split; [|split].
  - by intros ->.
  - intros other Hne. destruct (txs !! hash); [|done].
    by rewrite lookup_insert_ne.
  - intros record ->. exists (update ∪ record). rewrite lookup_insert_eq.
    split; [done|]. intros field. rewrite lookup_union.
    destruct (update !! field), (record !! field); done.
Qed.

Lemma updateTransaction_frame_witness :
  updateTransaction "0xdef" {[ "status" := VString "failed" ]}
    (addTransaction "0xabc" ∅) = addTransaction "0xabc" ∅.
Proof.
  destruct (updateTransaction_frame "0xdef" {[ "status" := VString "failed" ]}
              (addTransaction "0xabc" ∅)) as (Hnone & _).
  apply Hnone. reflexivity.
Defined.

End ContractFacts.
